(** * The 0/1 knapsack solver of the quote tool ([knapsack.pyx])

    The Cython module has two functions: [knapsack], the Python-facing
    translation layer that copies its arguments into typed buffers, and
    [_knapsack], the C-level dynamic program over those buffers.  Both are
    embedded here as they are written: the table is a list of rows updated
    by index, the loops are folds over [range], every subscript goes through
    the bounds check that Cython and NumPy perform (negative indices wrap
    around, anything else out of range raises [IndexError]), and C [int]
    arithmetic wraps at 32 bits.

    A call either returns or raises; a call that returns also yields the
    list of the subscripts it performed, which is how the statements about
    bounds are phrased.  Floating-point arithmetic is a parameter of the
    definitions; the development instantiates it with IEEE 754
    binary32/binary64 as the Standard Library specifies them, evaluates the
    code with it, and proves for it the order laws of [>] and [+] that the
    statements about ordering rest on, NaN and the infinities included.
    Failure to allocate the table is not modelled. *)

From Stdlib Require Import ZArith Lia SpecFloat.
From stdpp Require Import base tactics option list numbers.

Local Open Scope Z_scope.

(** ** Exceptions and the outcome of a call *)

(** The Python exceptions the module can raise. *)
Inductive exception : Type :=
  | IndexError      (* a subscript outside its buffer *)
  | ValueError      (* np.zeros with a negative dimension *)
  | OverflowError.  (* a Python int that does not fit a C int *)

(** The four indexed objects of [_knapsack]. *)
Inductive buffer : Type :=
  | Values      (* float[:] values *)
  | Weights     (* int[:] weights *)
  | TableRows   (* dp_array, first axis *)
  | TableCols.  (* one row of dp_array *)

(** One subscript operation: which object, the index written in the source
    and the length of the axis at that moment. *)
Record access : Type := Access {
  acc_buffer : buffer;
  acc_index : Z;
  acc_length : nat
}.

Definition in_bounds (a : access) : Prop :=
  0 ≤ acc_index a < Z.of_nat (acc_length a).

(** The subscript is within an axis of the length the source expects:
    [nv] values, [nw] weights, [rows] table rows of [cols] entries. *)
Definition access_ok (nv nw : nat) (rows cols : Z) (a : access) : Prop :=
  in_bounds a ∧
  Z.of_nat (acc_length a) =
    match acc_buffer a with
    | Values => Z.of_nat nv
    | Weights => Z.of_nat nw
    | TableRows => rows
    | TableCols => cols
    end.

(** A computation either returns a value, together with the subscripts it
    performed, or raises. *)
Inductive outcome (A : Type) : Type :=
  | Returns (a : A) (log : list access)
  | Raises (e : exception).
Arguments Returns {A} a log.
Arguments Raises {A} e.

Definition outcome_bind {A B} (f : A → outcome B) (m : outcome A) : outcome B :=
  match m with
  | Raises e => Raises e
  | Returns a l1 =>
      match f a with
      | Raises e => Raises e
      | Returns b l2 => Returns b (l1 ++ l2)
      end
  end.

#[global] Instance outcome_ret : MRet outcome := λ A a, Returns a [].
#[global] Instance outcome_mbind : MBind outcome := λ A B f m, outcome_bind f m.

(** The value a call returned, if it returned. *)
Definition result {A} (m : outcome A) : option A :=
  match m with Returns a _ => Some a | Raises _ => None end.

(** ** C integers *)

Definition INT_MIN : Z := - 2 ^ 31.
Definition INT_MAX : Z := 2 ^ 31 - 1.

(** Arithmetic on [cdef int] wraps around. *)
Definition wrap_int (z : Z) : Z := (z + 2 ^ 31) mod 2 ^ 32 - 2 ^ 31.

(** Conversion of a Python int to a C int, as at a typed argument or an
    [array.array('i', ...)] slot. *)
Definition to_c_int (z : Z) : outcome Z :=
  if (INT_MIN <=? z) && (z <=? INT_MAX) then mret z else Raises OverflowError.

(** ** Floating-point values *)

(** The operations the module uses on its two floating-point types:
    [float] (the elements of [values]) and [double] (the table entries and
    the temporary [value]). *)
Class Arith : Type := {
  float32 : Type;
  float64 : Type;
  f64_zero : float64;                       (* an entry of np.zeros *)
  f64_add : float64 → float64 → float64;    (* + on doubles *)
  f64_gt : float64 → float64 → bool;        (* > on doubles *)
  f32_of_f64 : float64 → float32;           (* storing into array('f') *)
  f64_of_f32 : float32 → float64            (* cdef double value = values[k] *)
}.

(** What the proofs about ordering use of [>] and [+].  A comparison with
    a NaN is false, so the laws speak of the doubles, the well-formed data
    of the format, and of the numbers, the doubles other than NaN;
    [a ≤ b] is written [a > b = false].  Adding the same double on the
    left keeps [≤] as far as the sums are numbers (rounding is monotone),
    and a sum that is a NaN is above nothing.  The laws are proved below
    for IEEE 754 doubles. *)
Class OrderLaws (AR : Arith) : Type := {
  is_double : float64 → Prop;
  is_number : float64 → Prop;
  number_double : ∀ a, is_number a → is_double a;
  number_zero : is_number f64_zero;
  double_of_f32 : ∀ v, is_double (f64_of_f32 v);
  double_add : ∀ a b, is_double a → is_double b → is_double (f64_add a b);
  f64_gt_number : ∀ a b, is_double a → f64_gt a b = true → is_number a;
  f64_gt_asym : ∀ a b, f64_gt a b = true → f64_gt b a = false;
  f64_gt_cotrans : ∀ a b c,
    is_double a → is_number b → is_double c →
    f64_gt a b = false → f64_gt b c = false → f64_gt a c = false;
  f64_add_mono : ∀ v t x d,
    is_double v → is_double t → is_number x → is_double d →
    f64_gt t x = false → f64_gt (f64_add v x) d = false →
    f64_gt (f64_add v t) d = false
}.

Section Knapsack.
Context {AR : Arith}.

(** [a ≤ b] on doubles, as the negation of [a > b]. *)
Definition f64_le (a b : float64) : Prop := f64_gt a b = false.

(** Python's two-argument [max]: the second argument only when it is
    strictly greater. *)
Definition fmax (a b : float64) : float64 := if f64_gt b a then b else a.

(** ** Subscripts *)

(** Bounds check of one subscript, with Python's wrap-around of negative
    indices; returns the position in the underlying storage. *)
Definition position (b : buffer) (n : nat) (i : Z) : outcome nat :=
  let k := if i <? 0 then i + Z.of_nat n else i in
  if (0 <=? k) && (k <? Z.of_nat n)
  then Returns (Z.to_nat k) [Access b i n]
  else Raises IndexError.

(** [l[i]] *)
Definition index {A} (b : buffer) (l : list A) (i : Z) : outcome A :=
  k ← position b (length l) i;
  match l !! k with
  | Some x => mret x
  | None => Raises IndexError
  end.

(** [dp_array[i][j] = x] *)
Definition store (dp_array : list (list float64)) (i j : Z) (x : float64)
  : outcome (list (list float64)) :=
  ki ← position TableRows (length dp_array) i;
  match dp_array !! ki with
  | Some row =>
      kj ← position TableCols (length row) j;
      mret (<[ki := <[kj := x]> row]> dp_array)
  | None => Raises IndexError
  end.

(** [np.zeros((rows, cols))] *)
Definition np_zeros (rows cols : Z) : outcome (list (list float64)) :=
  if (rows <? 0) || (cols <? 0) then Raises ValueError
  else mret (replicate (Z.to_nat rows) (replicate (Z.to_nat cols) f64_zero)).

(** ** Loops *)

(** [range(lo, hi)] *)
Definition range (lo hi : Z) : list Z := seqZ lo (hi - lo).

(** [for i in l: s = body(i, s)] *)
Fixpoint for_each {S} (l : list Z) (body : Z → S → outcome S) (s : S) : outcome S :=
  match l with
  | [] => mret s
  | i :: l' => s' ← body i s; for_each l' body s'
  end.

(** ** [_knapsack] *)

(** The body of the inner loop, lines 21-26. *)
Definition cell (values : list float32) (weights : list Z) (i j : Z)
    (dp_array : list (list float64)) : outcome (list (list float64)) :=
  weight ← index Weights weights (wrap_int (i - 1));
  if 0 <=? wrap_int (j - weight) then
    v ← index Values values (wrap_int (i - 1));
    let value := f64_of_f32 v in
    above ← index TableRows dp_array (wrap_int (i - 1));
    skip ← index TableCols above j;
    above' ← index TableRows dp_array (wrap_int (i - 1));
    rest ← index TableCols above' (wrap_int (j - weight));
    store dp_array i j (fmax skip (f64_add value rest))
  else
    above ← index TableRows dp_array (wrap_int (i - 1));
    skip ← index TableCols above j;
    store dp_array i j skip.

(** Lines 8-26: allocation of the table and the two loops. *)
Definition fill_table (values : list float32) (weights : list Z) (max_weight : Z)
  : outcome (list (list float64)) :=
  let rows := wrap_int (Z.of_nat (length weights) + 1) in
  let cols := wrap_int (max_weight + 1) in
  dp_array ← np_zeros rows cols;
  for_each (range 1 rows) (λ i dp_array,
    for_each (range 1 cols) (λ j dp_array,
      cell values weights i j dp_array) dp_array) dp_array.

Definition _knapsack (values : list float32) (weights : list Z) (max_weight : Z)
  : outcome float64 :=
  let rows := wrap_int (Z.of_nat (length weights) + 1) in
  let cols := wrap_int (max_weight + 1) in
  dp_array ← fill_table values weights max_weight;
  last ← index TableRows dp_array (wrap_int (rows - 1));
  index TableCols last (wrap_int (cols - 1)).

(** ** [knapsack], the translation layer *)

(** [array.array('f', values)] *)
Definition array_f (values : list float64) : outcome (list float32) :=
  mret (f32_of_f64 <$> values).

(** [array.array('i', weights)] *)
Fixpoint array_i (weights : list Z) : outcome (list Z) :=
  match weights with
  | [] => mret []
  | w :: ws => w' ← to_c_int w; ws' ← array_i ws; mret (w' :: ws')
  end.

Definition knapsack (values : list float64) (weights : list Z) (max_weight : Z)
  : outcome float64 :=
  v ← array_f values;
  w ← array_i weights;
  c ← to_c_int max_weight;
  _knapsack v w c.

End Knapsack.

(** ** The table the loops build *)

Section Table.
Context {AR : Arith}.

(** The entry the two loops leave at row [i], column [j]: row 0 and
    column 0 keep the zero of [np.zeros], every other cell is written once,
    from the row above.  (Rows past the last item are not part of the
    table; the function repeats the last row there.) *)
Fixpoint dp_entry (values : list float32) (weights : list Z) (i : nat) (j : Z)
  : float64 :=
  match i with
  | O => f64_zero
  | S i' =>
      if j <=? 0 then f64_zero
      else match weights !! i', values !! i' with
           | Some weight, Some v =>
               if 0 <=? j - weight
               then fmax (dp_entry values weights i' j)
                         (f64_add (f64_of_f32 v) (dp_entry values weights i' (j - weight)))
               else dp_entry values weights i' j
           | _, _ => dp_entry values weights i' j
           end
  end.

(** [dp] is a [rows] by [cols] table whose entry at [(r, k)] is [f r k]. *)
Definition table_at (rows cols : Z) (f : Z → Z → float64)
    (dp : list (list float64)) : Prop :=
  Z.of_nat (length dp) = rows ∧
  ∀ r, 0 ≤ r < rows →
    ∃ row, dp !! Z.to_nat r = Some row ∧ Z.of_nat (length row) = cols ∧
           ∀ k, 0 ≤ k < cols → row !! Z.to_nat k = Some (f r k).

(** What [_knapsack] needs of its buffers: a value for every weight,
    weights that are non-negative C ints, and a capacity and an item count
    whose successors are still C ints. *)
Definition buffers_ok (values : list float32) (weights : list Z) (max_weight : Z)
  : Prop :=
  (length weights ≤ length values)%nat ∧
  Forall (λ weight, 0 ≤ weight ≤ INT_MAX) weights ∧
  0 ≤ max_weight < INT_MAX ∧
  Z.of_nat (length weights) < INT_MAX.

(** The preconditions of the interface: sequences of equal length, no
    negative weight, no negative capacity. *)
Definition valid_input (values : list float64) (weights : list Z) (capacity : Z)
  : Prop :=
  length values = length weights ∧
  Forall (λ weight, 0 ≤ weight) weights ∧
  0 ≤ capacity.

(** The input fits the buffers: every weight is a C int, and the capacity
    and the item count stay below the largest one, so that [cols] and
    [rows] do not wrap. *)
Definition fits_c_int (weights : list Z) (capacity : Z) : Prop :=
  Forall (λ weight, weight ≤ INT_MAX) weights ∧
  capacity < INT_MAX ∧
  Z.of_nat (length weights) < INT_MAX.

(** *** Selections of items *)

(** A selection has one flag per item.  Its weight is the sum of the
    selected weights; its value adds the selected values in item order,
    each new item on the left of the running sum, as the table does. *)
Definition total_weight (sel : list bool) (weights : list Z) : Z :=
  foldl (λ (acc : Z) (bw : bool * Z), if bw.1 then bw.2 + acc else acc)
        0 (zip sel weights).

Definition total_value (sel : list bool) (values : list float64) : float64 :=
  foldl (λ (acc : float64) (bv : bool * float64),
           if bv.1 then f64_add bv.2 acc else acc)
        f64_zero (zip sel values).

Definition feasible (sel : list bool) (weights : list Z) (capacity : Z) : Prop :=
  length sel = length weights ∧ total_weight sel weights ≤ capacity.

(** [r] is the best value of a feasible selection: one reaches it and none
    exceeds it. *)
Definition is_optimum (values : list float64) (weights : list Z) (capacity : Z)
    (r : float64) : Prop :=
  (∃ sel, feasible sel weights capacity ∧ total_value sel values = r) ∧
  (∀ sel, feasible sel weights capacity → f64_le (total_value sel values) r).

(** Every selection of [n] items. *)
Fixpoint selections (n : nat) : list (list bool) :=
  match n with
  | O => [[]]
  | S n' => ((λ sel, sel ++ [false]) <$> selections n')
            ++ ((λ sel, sel ++ [true]) <$> selections n')
  end.

(** Exhaustive search: the largest value among the selections that fit. *)
Definition brute_force (values : list float64) (weights : list Z) (capacity : Z)
  : float64 :=
  foldr (λ sel best,
           if total_weight sel weights <=? capacity
           then fmax best (total_value sel values) else best)
        f64_zero (selections (length weights)).

(** The values as the table sees them: narrowed to [float] by the
    translation layer, widened again when read into [value]. *)
Definition as_stored (values : list float64) : list float64 :=
  (λ v, f64_of_f32 (f32_of_f64 v)) <$> values.

(** [dp] has [rows] rows of [cols] entries each. *)
Definition dims (rows cols : Z) (dp : list (list float64)) : Prop :=
  Z.of_nat (length dp) = rows ∧
  Forall (λ row, Z.of_nat (length row) = cols) dp.

(** The entry of a table at row [i], column [j], if there is one. *)
Definition entry_of (dp : list (list float64)) (i j : Z) : option float64 :=
  if (i <? 0) || (j <? 0) then None
  else row ← dp !! Z.to_nat i; row !! Z.to_nat j.

(** The recurrence of the dynamic program, read at cell [(i, j)] of a
    table: carry the entry above when item [i - 1] is heavier than [j],
    otherwise take the better of carrying it and of adding the item's value
    to the entry [weight] columns to the left in the row above. *)
Definition recurrence_at (values : list float64) (weights : list Z)
    (dp : list (list float64)) (i j : Z) : Prop :=
  ∃ weight v skip,
    weights !! Z.to_nat (i - 1) = Some weight ∧
    as_stored values !! Z.to_nat (i - 1) = Some v ∧
    entry_of dp (i - 1) j = Some skip ∧
    if weight >? j then entry_of dp i j = Some skip
    else ∃ rest, entry_of dp (i - 1) (j - weight) = Some rest ∧
                 entry_of dp i j = Some (fmax skip (f64_add v rest)).

End Table.

(** ** IEEE 754 arithmetic *)

(** IEEE 754 binary32 and binary64, from the Standard Library's
    specification of floating-point numbers; [convert] rounds to nearest,
    ties to even. *)
Module IEEE.

Definition convert (prec emax : Z) (x : spec_float) : spec_float :=
  match x with
  | S754_finite s m e => binary_round prec emax s m e
  | _ => x
  end.

#[export] Instance arith : Arith := {|
  float32 := spec_float;
  float64 := spec_float;
  f64_zero := S754_zero false;
  f64_add := SFadd 53 1024;
  f64_gt := λ a b, SFltb b a;
  f32_of_f64 := convert 24 128;
  f64_of_f32 := convert 53 1024
|}.

(** The double nearest to [m * 2^e]. *)
Definition double (m e : Z) : spec_float := binary_normalize 53 1024 m e false.

Definition exponent (x : spec_float) : Z :=
  match x with S754_finite _ _ e => e | _ => 0 end.

(** The finite number [x] as an integer multiple of [2^k]. *)
Definition scaled (k : Z) (x : spec_float) : option Z :=
  match x with
  | S754_zero _ => Some 0
  | S754_finite s m e => Some (cond_Zopp s (Zpos m) * 2 ^ (e - k))
  | _ => None
  end.

(** Whether two floating-point data denote the same number, whatever
    their formats: finite numbers are compared as integers after scaling
    both to the smaller exponent. *)
Definition same_number (x y : spec_float) : bool :=
  match x, y with
  | S754_infinity s1, S754_infinity s2 => Bool.eqb s1 s2
  | _, _ =>
      let k := Z.min (exponent x) (exponent y) in
      match scaled k x, scaled k y with
      | Some a, Some b => a =? b
      | _, _ => false
      end
  end.

(** *** Doubles as integers

    What follows serves the proofs of the order laws; the model of the
    code evaluates none of it.  First the data of the format, and those
    of them that are numbers. *)
Definition valid_double (x : spec_float) : Prop := valid_binary 53 1024 x = true.

Definition valid_number (x : spec_float) : Prop := valid_double x ∧ x ≠ S754_nan.

(** Whether [m / 2^k] is rounded up: to nearest, ties to even. *)
Definition round_up (m k : Z) : bool :=
  let rem := m mod 2 ^ k in
  (2 ^ k <? 2 * rem) || ((2 * rem =? 2 ^ k) && Z.odd (m / 2 ^ k)).

Definition rnd (m k : Z) : Z := m / 2 ^ k + (if round_up m k then 1 else 0).

(** The double with mantissa [m2 ≤ 2^53] and exponent [E], as
    [binary_round] builds it. *)
Definition rounded (s : bool) (m2 E : Z) : spec_float :=
  if m2 =? 0 then S754_zero s
  else if m2 =? 2 ^ 53
       then if E + 1 <=? 971 then S754_finite s (Z.to_pos (2 ^ 52)) (E + 1)
            else S754_infinity s
       else if E <=? 971 then S754_finite s (Z.to_pos m2) E else S754_infinity s.

(** The number a double stands for, in units of [2^-1074], the smallest
    positive double.  Finite doubles stay below [2^2098]; the infinities
    are put at [±2^2200], far enough beyond that the sum of an infinity and
    a finite double is still beyond every finite double. *)
Definition key (x : spec_float) : Z :=
  match x with
  | S754_zero _ | S754_nan => 0
  | S754_infinity s => cond_Zopp s (2 ^ 2200)
  | S754_finite s m e => cond_Zopp s (Zpos m * 2 ^ (e + 1074))
  end.

(** The positive integer [N] rounded to 53 significant bits. *)
Definition val (N : Z) : Z :=
  let K := Z.max (Zdigits2 N - 53) 0 in rnd N K * 2 ^ K.

(** Overflow: what reaches [2^2098] becomes an infinity. *)
Definition clamp (z : Z) : Z := if z <? 2 ^ 2098 then z else 2 ^ 2200.

(** The integer [S] (in units of [2^-1074]) rounded to a double. *)
Definition round_key (S : Z) : Z := Z.sgn S * clamp (val (Z.abs S)).

End IEEE.

(** * Properties *)

(** Closes the side conditions of a concrete input. *)
Ltac concrete_input :=
  repeat first [ split | apply Forall_cons | apply Forall_nil ];
  try reflexivity; try (simpl; lia); try (vm_compute; congruence).

(** ** C integers *)

Lemma wrap_int_id (z : Z) : INT_MIN ≤ z ≤ INT_MAX → wrap_int z = z.
Proof.
  unfold INT_MIN, INT_MAX, wrap_int. intros Hz.
  rewrite Z.mod_small by lia. lia.
Qed.

Lemma to_c_int_fits (z : Z) : INT_MIN ≤ z ≤ INT_MAX → to_c_int z = Returns z [].
Proof.
  intros Hz. unfold to_c_int.
  destruct (Z.leb_spec INT_MIN z); [|lia].
  destruct (Z.leb_spec z INT_MAX); [|lia]. reflexivity.
Qed.

Lemma to_c_int_overflow (z : Z) :
  ¬ (INT_MIN ≤ z ≤ INT_MAX) → to_c_int z = Raises OverflowError.
Proof.
  intros Hz. unfold to_c_int.
  destruct (Z.leb_spec INT_MIN z); destruct (Z.leb_spec z INT_MAX); simpl; try reflexivity; lia.
Qed.

(** ** Sequencing *)

Lemma bind_returns {A B} (m : outcome A) (f : A → outcome B) a l1 b l2 :
  m = Returns a l1 → f a = Returns b l2 → (m ≫= f) = Returns b (l1 ++ l2).
Proof. intros -> Hf. unfold mbind, outcome_mbind. simpl. rewrite Hf. reflexivity. Qed.

Lemma bind_raises {A B} (m : outcome A) (f : A → outcome B) e :
  m = Raises e → (m ≫= f) = Raises e.
Proof. intros ->. reflexivity. Qed.

Lemma bind_inv {A B} (m : outcome A) (f : A → outcome B) b l :
  (m ≫= f) = Returns b l →
  ∃ a l1 l2, m = Returns a l1 ∧ f a = Returns b l2 ∧ l = l1 ++ l2.
Proof.
  unfold mbind, outcome_mbind. destruct m as [a l1|e]; simpl; [|discriminate].
  destruct (f a) as [b' l2|e] eqn:Hf; [|discriminate].
  intros [= -> <-]. eauto 6.
Qed.

(** ** Subscripts *)

Section Subscripts.
Context {AR : Arith}.

Lemma position_in_range b (n : nat) (i : Z) :
  0 ≤ i < Z.of_nat n → position b n i = Returns (Z.to_nat i) [Access b i n].
Proof.
  intros Hi. unfold position.
  destruct (Z.ltb_spec i 0); [lia|].
  destruct (Z.leb_spec 0 i); [|lia].
  destruct (Z.ltb_spec i (Z.of_nat n)); [|lia]. reflexivity.
Qed.

Lemma position_too_large b (n : nat) (i : Z) :
  Z.of_nat n ≤ i → position b n i = Raises IndexError.
Proof.
  intros Hi. unfold position.
  destruct (Z.ltb_spec i 0); [lia|].
  destruct (Z.ltb_spec i (Z.of_nat n)); [lia|].
  rewrite andb_false_r. reflexivity.
Qed.

Lemma index_in_range {A} b (l : list A) (i : Z) x :
  0 ≤ i → l !! Z.to_nat i = Some x →
  index b l i = Returns x [Access b i (length l)].
Proof.
  intros Hi Hx. unfold index.
  apply lookup_lt_Some in Hx as Hlt.
  unfold mbind, outcome_mbind.
  rewrite position_in_range by lia. simpl. rewrite Hx. reflexivity.
Qed.

Lemma index_too_large {A} b (l : list A) (i : Z) :
  Z.of_nat (length l) ≤ i → index b l i = Raises IndexError.
Proof.
  intros Hi. unfold index. apply bind_raises, position_too_large, Hi.
Qed.

Lemma store_in_range (dp : list (list float64)) (i j : Z) row x :
  0 ≤ i → dp !! Z.to_nat i = Some row → 0 ≤ j < Z.of_nat (length row) →
  store dp i j x =
    Returns (<[Z.to_nat i := <[Z.to_nat j := x]> row]> dp)
            [Access TableRows i (length dp); Access TableCols j (length row)].
Proof.
  intros Hi Hrow Hj. unfold store.
  apply lookup_lt_Some in Hrow as Hlt.
  unfold mbind, outcome_mbind.
  rewrite position_in_range by lia. simpl. rewrite Hrow.
  rewrite position_in_range by lia. reflexivity.
Qed.

End Subscripts.

(** ** Loops *)

Lemma range_empty (lo hi : Z) : hi ≤ lo → range lo hi = [].
Proof. intros H. unfold range. unfold seqZ. replace (Z.to_nat (hi - lo)) with 0%nat by lia. reflexivity. Qed.

Lemma range_first (lo hi : Z) : lo < hi → range lo hi = lo :: range (lo + 1) hi.
Proof.
  intros H. unfold range. rewrite seqZ_cons by lia.
  f_equal. f_equal; lia.
Qed.

(** The rule for a counted loop: an invariant that holds on entry and is
    carried by every iteration holds on exit, and the loop returns. *)
Lemma for_each_range {S} (Inv : Z → S → Prop) (P : access → Prop)
    (body : Z → S → outcome S) (lo hi : Z) (s : S) :
  lo ≤ hi → Inv lo s →
  (∀ i s, lo ≤ i < hi → Inv i s →
     ∃ s' log, body i s = Returns s' log ∧ Inv (i + 1) s' ∧ Forall P log) →
  ∃ s' log, for_each (range lo hi) body s = Returns s' log ∧ Inv hi s' ∧
            Forall P log.
Proof.
  intros Hle. remember (Z.to_nat (hi - lo)) as n eqn:Hn.
  revert lo s Hle Hn. induction n as [|n IH]; intros lo s Hle Hn Hinv Hbody.
  - assert (lo = hi) as -> by lia. rewrite range_empty by lia.
    exists s, []. split; [reflexivity|]. split; [assumption|constructor].
  - rewrite range_first by lia. simpl.
    destruct (Hbody lo s) as (s1 & log1 & Hb & Hinv1 & Hlog1); [lia|assumption|].
    destruct (IH (lo + 1) s1) as (s2 & log2 & Hrest & Hinv2 & Hlog2); [lia|lia|assumption| |].
    { intros i s' Hi. apply Hbody. lia. }
    exists s2, (log1 ++ log2). split; [|split; [assumption|]].
    + eapply bind_returns; eassumption.
    + apply Forall_app; split; assumption.
Qed.

(** ** Tables *)

Section TableLemmas.
Context {AR : Arith}.

Lemma table_at_zeros (rows cols : Z) :
  0 ≤ rows → 0 ≤ cols →
  table_at rows cols (λ _ _, f64_zero)
    (replicate (Z.to_nat rows) (replicate (Z.to_nat cols) f64_zero)).
Proof.
  intros Hr Hc. split; [rewrite length_replicate; lia|].
  intros r Hrr. eexists. split; [apply lookup_replicate_2; lia|].
  split; [rewrite length_replicate; lia|].
  intros k Hk. apply lookup_replicate_2. lia.
Qed.

Lemma table_at_ext (rows cols : Z) f g dp :
  (∀ r k, 0 ≤ r < rows → 0 ≤ k < cols → f r k = g r k) →
  table_at rows cols f dp → table_at rows cols g dp.
Proof.
  intros Hfg [Hlen Hrows]. split; [assumption|].
  intros r Hr. destruct (Hrows r Hr) as (row & Hrow & Hlr & Hcells).
  exists row. split; [assumption|]. split; [assumption|].
  intros k Hk. rewrite <- Hfg by assumption. apply Hcells, Hk.
Qed.

Lemma table_at_entry (rows cols : Z) f dp r k :
  table_at rows cols f dp → 0 ≤ r < rows → 0 ≤ k < cols →
  entry_of dp r k = Some (f r k).
Proof.
  intros [_ Hrows] Hr Hk. destruct (Hrows r Hr) as (row & Hrow & _ & Hcells).
  unfold entry_of.
  destruct (Z.ltb_spec r 0); [lia|]. destruct (Z.ltb_spec k 0); [lia|].
  simpl. rewrite Hrow. simpl. apply Hcells, Hk.
Qed.

Lemma table_at_store (rows cols : Z) f dp i j row x :
  table_at rows cols f dp → 0 ≤ i < rows → 0 ≤ j < cols →
  dp !! Z.to_nat i = Some row →
  table_at rows cols (λ r k, if (r =? i) && (k =? j) then x else f r k)
    (<[Z.to_nat i := <[Z.to_nat j := x]> row]> dp).
Proof.
  intros [Hlen Hrows] Hi Hj Hrow. split; [rewrite length_insert; assumption|].
  intros r Hr. destruct (Hrows r Hr) as (row' & Hrow' & Hlr & Hcells).
  destruct (Z.eqb_spec r i) as [->|Hne].
  - assert (row' = row) as -> by congruence.
    exists (<[Z.to_nat j := x]> row). split.
    { apply list_lookup_insert_eq. apply lookup_lt_Some in Hrow. assumption. }
    split; [rewrite length_insert; assumption|].
    intros k Hk. simpl. destruct (Z.eqb_spec k j) as [->|Hkj].
    + apply list_lookup_insert_eq. lia.
    + rewrite list_lookup_insert_ne by lia. apply Hcells, Hk.
  - exists row'. split; [rewrite list_lookup_insert_ne by lia; assumption|].
    split; [assumption|]. intros k Hk. simpl. apply Hcells, Hk.
Qed.

Lemma dp_entry_col0 values weights (i : nat) (j : Z) :
  j ≤ 0 → dp_entry values weights i j = f64_zero.
Proof.
  intros Hj. destruct i as [|i]; [reflexivity|]. simpl.
  destruct (Z.leb_spec j 0); [reflexivity|lia].
Qed.

Lemma dp_entry_step values weights (i : nat) (j : Z) weight v :
  1 ≤ j → weights !! i = Some weight → values !! i = Some v →
  dp_entry values weights (S i) j =
    if 0 <=? j - weight
    then fmax (dp_entry values weights i j)
              (f64_add (f64_of_f32 v) (dp_entry values weights i (j - weight)))
    else dp_entry values weights i j.
Proof.
  intros Hj Hw Hv. simpl. destruct (Z.leb_spec j 0); [lia|].
  rewrite Hw, Hv. reflexivity.
Qed.

(** One iteration of the inner loop writes the cell [(i, j)] from the row
    above and touches nothing else; all its subscripts are in range. *)
Lemma cell_spec values weights (rows cols : Z) f dp (i j weight : Z) v :
  table_at rows cols f dp →
  1 ≤ i < rows → 1 ≤ j < cols → rows ≤ INT_MAX → cols ≤ INT_MAX →
  weights !! Z.to_nat (i - 1) = Some weight → 0 ≤ weight ≤ INT_MAX →
  values !! Z.to_nat (i - 1) = Some v →
  ∃ dp' log,
    cell values weights i j dp = Returns dp' log ∧
    Forall (access_ok (length values) (length weights) rows cols) log ∧
    table_at rows cols
      (λ r k, if (r =? i) && (k =? j)
              then if 0 <=? j - weight
                   then fmax (f (i - 1) j)
                             (f64_add (f64_of_f32 v) (f (i - 1) (j - weight)))
                   else f (i - 1) j
              else f r k) dp'.
Proof.
  intros Htab Hi Hj Hrows Hcols Hw Hwr Hv.
  assert (Hint : INT_MIN = - 2 ^ 31 ∧ INT_MAX = 2 ^ 31 - 1) by (split; reflexivity).
  destruct Htab as [Hlen Hall].
  destruct (Hall (i - 1)) as (above & Habove & Hla & Hcells); [lia|].
  destruct (Hall i) as (row & Hrow & Hlr & _); [lia|].
  apply lookup_lt_Some in Hw as Hlw. apply lookup_lt_Some in Hv as Hlv.
  unfold cell.
  rewrite !(wrap_int_id (i - 1)) by lia.
  rewrite (index_in_range Weights weights (i - 1) weight) by (lia || assumption).
  unfold mbind, outcome_mbind at 1. simpl outcome_bind.
  rewrite (wrap_int_id (j - weight)) by lia.
  destruct (Z.leb_spec 0 (j - weight)) as [Hfit|Hnofit].
  - rewrite (index_in_range Values values (i - 1) v) by (lia || assumption).
    rewrite (index_in_range TableRows dp (i - 1) above) by (lia || assumption).
    unfold mbind, outcome_mbind. simpl outcome_bind.
    rewrite (index_in_range TableCols above j (f (i - 1) j)) by (lia || (apply Hcells; lia)).
    simpl outcome_bind.
    rewrite (index_in_range TableCols above (j - weight) (f (i - 1) (j - weight)))
      by (lia || (apply Hcells; lia)).
    simpl outcome_bind.
    rewrite (store_in_range dp i j row) by (lia || assumption).
    eexists _, _. split; [reflexivity|]. split.
    + repeat (apply Forall_cons; [unfold access_ok, in_bounds; simpl; lia|]). constructor.
    + apply table_at_store; [split; assumption|lia|lia|assumption].
  - rewrite (index_in_range TableRows dp (i - 1) above) by (lia || assumption).
    unfold mbind, outcome_mbind. simpl outcome_bind.
    rewrite (index_in_range TableCols above j (f (i - 1) j)) by (lia || (apply Hcells; lia)).
    simpl outcome_bind.
    rewrite (store_in_range dp i j row) by (lia || assumption).
    eexists _, _. split; [reflexivity|]. split.
    + repeat (apply Forall_cons; [unfold access_ok, in_bounds; simpl; lia|]). constructor.
    + apply table_at_store; [split; assumption|lia|lia|assumption].
Qed.

End TableLemmas.

(** ** The two loops *)

Section Loops.
Context {AR : Arith}.

Lemma buffers_ok_lookup values weights max_weight (i : Z) :
  buffers_ok values weights max_weight →
  1 ≤ i < Z.of_nat (length weights) + 1 →
  ∃ weight v, weights !! Z.to_nat (i - 1) = Some weight ∧
              values !! Z.to_nat (i - 1) = Some v ∧ 0 ≤ weight ≤ INT_MAX.
Proof.
  intros (Hlen & Hw & _ & _) Hi.
  destruct (lookup_lt_is_Some_2 weights (Z.to_nat (i - 1))) as [weight Hweight]; [lia|].
  destruct (lookup_lt_is_Some_2 values (Z.to_nat (i - 1))) as [v Hv]; [lia|].
  exists weight, v. split; [assumption|]. split; [assumption|].
  rewrite Forall_lookup in Hw. apply (Hw _ _ Hweight).
Qed.

(** The inner loop fills row [i] from left to right. *)
Lemma row_spec values weights max_weight (i : Z) dp :
  let rows := Z.of_nat (length weights) + 1 in
  let cols := max_weight + 1 in
  let E := λ r k, dp_entry values weights (Z.to_nat r) k in
  buffers_ok values weights max_weight →
  1 ≤ i < rows →
  table_at rows cols (λ r k, if r <? i then E r k else f64_zero) dp →
  ∃ dp' log,
    for_each (range 1 cols) (λ j dp, cell values weights i j dp) dp = Returns dp' log ∧
    table_at rows cols (λ r k, if r <? i + 1 then E r k else f64_zero) dp' ∧
    Forall (access_ok (length values) (length weights) rows cols) log.
Proof.
  intros rows cols E Hok Hi Htab.
  destruct (buffers_ok_lookup _ _ _ i Hok Hi) as (weight & v & Hw & Hv & Hwr).
  destruct Hok as (_ & _ & Hcap & Hn).
  assert (HEi : ∀ k, 1 ≤ k → E i k =
            if 0 <=? k - weight
            then fmax (E (i - 1) k) (f64_add (f64_of_f32 v) (E (i - 1) (k - weight)))
            else E (i - 1) k).
  { intros k Hk. unfold E. replace (Z.to_nat i) with (S (Z.to_nat (i - 1))) by lia.
    apply dp_entry_step; assumption. }
  destruct (for_each_range
    (λ j dp, table_at rows cols
       (λ r k, if (r <? i) || ((r =? i) && (k <? j)) then E r k else f64_zero) dp)
    (access_ok (length values) (length weights) rows cols)
    (λ j dp, cell values weights i j dp) 1 cols dp) as (dp' & log & Hrun & Hinv & Hlog).
  - unfold cols. lia.
  - revert Htab. apply table_at_ext. intros r k Hr Hk.
    destruct (Z.ltb_spec r i); [reflexivity|]. simpl.
    destruct (Z.eqb_spec r i) as [->|]; [|reflexivity]. simpl.
    destruct (Z.ltb_spec k 1); [|reflexivity].
    unfold E. symmetry. apply dp_entry_col0. lia.
  - intros j s Hj Hs.
    destruct (cell_spec values weights rows cols _ s i j weight v Hs)
      as (s' & log & Hcell & Hlog & Hs'); try assumption; try (unfold rows, cols; lia).
    exists s', log. split; [assumption|]. split; [|assumption].
    revert Hs'. apply table_at_ext. intros r k Hr Hk.
    destruct (Z.eqb_spec r i) as [->|Hri]; simpl.
    + destruct (Z.ltb_spec i i); [lia|]. simpl.
      destruct (Z.eqb_spec k j) as [->|Hkj].
      * destruct (Z.ltb_spec j (j + 1)); [|lia].
        destruct (Z.ltb_spec (i - 1) i); [|lia]. simpl.
        rewrite HEi by lia.
        destruct (Z.leb_spec 0 (j - weight)); reflexivity.
      * destruct (Z.ltb_spec k j); destruct (Z.ltb_spec k (j + 1)); try reflexivity; lia.
    + rewrite ?orb_false_r. reflexivity.
  - exists dp', log. split; [assumption|]. split; [|assumption].
    revert Hinv. apply table_at_ext. intros r k Hr Hk.
    destruct (Z.ltb_spec r i); destruct (Z.ltb_spec r (i + 1)); try lia; simpl; try reflexivity.
    + destruct (Z.eqb_spec r i); [|lia]. destruct (Z.ltb_spec k cols); [reflexivity|lia].
    + destruct (Z.eqb_spec r i); [lia|]. reflexivity.
Qed.

(** The table [fill_table] returns, and that it returns one. *)
Lemma fill_table_spec values weights max_weight :
  buffers_ok values weights max_weight →
  ∃ dp log,
    fill_table values weights max_weight = Returns dp log ∧
    table_at (Z.of_nat (length weights) + 1) (max_weight + 1)
      (λ r k, dp_entry values weights (Z.to_nat r) k) dp ∧
    Forall (access_ok (length values) (length weights)
              (Z.of_nat (length weights) + 1) (max_weight + 1)) log.
Proof.
  intros Hok. pose proof Hok as (_ & _ & Hcap & Hn).
  assert (Hint : INT_MIN = - 2 ^ 31 ∧ INT_MAX = 2 ^ 31 - 1) by (split; reflexivity).
  unfold fill_table. rewrite !wrap_int_id by lia.
  set (rows := Z.of_nat (length weights) + 1). set (cols := max_weight + 1).
  unfold np_zeros.
  destruct (Z.ltb_spec rows 0); [unfold rows in *; lia|].
  destruct (Z.ltb_spec cols 0); [unfold cols in *; lia|]. simpl orb. cbv iota.
  destruct (for_each_range
    (λ i dp, table_at rows cols
       (λ r k, if r <? i then dp_entry values weights (Z.to_nat r) k else f64_zero) dp)
    (access_ok (length values) (length weights) rows cols)
    (λ i dp, for_each (range 1 cols) (λ j dp, cell values weights i j dp) dp)
    1 rows (replicate (Z.to_nat rows) (replicate (Z.to_nat cols) f64_zero)))
    as (dp & log & Hrun & Hinv & Hlog).
  - unfold rows. lia.
  - eapply table_at_ext; [|apply table_at_zeros; lia].
    intros r k Hr Hk. simpl. destruct (Z.ltb_spec r 1); [|reflexivity].
    replace r with 0 by lia. reflexivity.
  - intros i s Hi Hs. apply (row_spec values weights max_weight i s Hok Hi Hs).
  - exists dp, log. split; [|split; [|assumption]].
    + unfold mret, outcome_ret, mbind, outcome_mbind. simpl. rewrite Hrun. reflexivity.
    + revert Hinv. apply table_at_ext. intros r k Hr Hk.
      destruct (Z.ltb_spec r rows); [reflexivity|lia].
Qed.

(** [_knapsack] returns the bottom-right entry. *)
Lemma _knapsack_spec values weights max_weight :
  buffers_ok values weights max_weight →
  ∃ log, _knapsack values weights max_weight =
           Returns (dp_entry values weights (length weights) max_weight) log ∧
         Forall (access_ok (length values) (length weights)
                   (Z.of_nat (length weights) + 1) (max_weight + 1)) log.
Proof.
  intros Hok. pose proof Hok as (_ & _ & Hcap & Hn).
  assert (Hint : INT_MIN = - 2 ^ 31 ∧ INT_MAX = 2 ^ 31 - 1) by (split; reflexivity).
  destruct (fill_table_spec _ _ _ Hok) as (dp & log & Hrun & Htab & Hlog).
  unfold _knapsack. rewrite Hrun.
  rewrite (wrap_int_id (Z.of_nat (length weights) + 1)) by lia.
  rewrite (wrap_int_id (max_weight + 1)) by lia.
  rewrite (wrap_int_id (Z.of_nat (length weights) + 1 - 1)) by lia.
  rewrite (wrap_int_id (max_weight + 1 - 1)) by lia.
  destruct Htab as [Hlen Hall].
  destruct (Hall (Z.of_nat (length weights))) as (row & Hrow & Hlr & Hcells); [lia|].
  specialize (Hcells max_weight ltac:(lia)).
  replace (Z.of_nat (length weights) + 1 - 1) with (Z.of_nat (length weights)) by lia.
  replace (max_weight + 1 - 1) with max_weight by lia.
  unfold mbind, outcome_mbind. simpl outcome_bind.
  rewrite (index_in_range TableRows dp _ row) by (lia || assumption). simpl.
  rewrite (index_in_range TableCols row max_weight _ ltac:(lia) Hcells).
  rewrite Nat2Z.id. eexists. split; [reflexivity|].
  apply Forall_app. split; [assumption|].
  repeat (apply Forall_cons; [unfold access_ok, in_bounds; simpl; lia|]). constructor.
Qed.

End Loops.

(** ** Ordering of table entries *)

Section Order.
Context {AR : Arith} {LAWS : OrderLaws AR}.

Lemma f64_le_refl (a : float64) : f64_le a a.
Proof.
  unfold f64_le. destruct (f64_gt a a) eqn:H; [|reflexivity].
  rewrite <- H at 1. apply f64_gt_asym, H.
Qed.

Lemma f64_le_trans (a b c : float64) :
  is_double a → is_number b → is_double c →
  f64_le a b → f64_le b c → f64_le a c.
Proof. unfold f64_le. apply f64_gt_cotrans. Qed.

Lemma fmax_le_l (a b : float64) : f64_le a (fmax a b).
Proof.
  unfold fmax. destruct (f64_gt b a) eqn:H; [|apply f64_le_refl].
  apply f64_gt_asym, H.
Qed.

Lemma fmax_le_r (a b : float64) : f64_le b (fmax a b).
Proof.
  unfold fmax. destruct (f64_gt b a) eqn:H; [apply f64_le_refl|exact H].
Qed.

(** [max] never picks a NaN: its second argument is taken only when it
    compares greater. *)
Lemma fmax_number (a b : float64) : is_number a → is_double b → is_number (fmax a b).
Proof.
  intros Ha Hb. unfold fmax.
  destruct (f64_gt b a) eqn:H; [apply (f64_gt_number b a Hb H)|exact Ha].
Qed.

Lemma fmax_add_mono (a a' v x x' : float64) :
  is_number a → is_number a' → is_double v → is_number x → is_number x' →
  f64_le a a' → f64_le x x' →
  f64_le (fmax a (f64_add v x)) (fmax a' (f64_add v x')).
Proof.
  intros Ha Ha' Hv Hx Hx' Haa Hxx.
  assert (Hd : is_number (fmax a' (f64_add v x'))).
  { apply fmax_number; [exact Ha'|]. apply double_add; [exact Hv|apply number_double, Hx']. }
  unfold fmax at 1. destruct (f64_gt (f64_add v x) a).
  - apply (f64_add_mono v x x'); try assumption.
    + apply number_double, Hx.
    + apply number_double, Hd.
    + apply fmax_le_r.
  - apply (f64_le_trans a a'); try assumption.
    + apply number_double, Ha.
    + apply number_double, Hd.
    + apply fmax_le_l.
Qed.

(** Every entry is a number: no NaN gets into the table, whatever the
    values are. *)
Lemma dp_entry_number values weights (i : nat) (j : Z) :
  is_number (dp_entry values weights i j).
Proof.
  revert j. induction i as [|i IH]; intros j; [apply number_zero|].
  simpl. destruct (j <=? 0); [apply number_zero|].
  destruct (weights !! i) as [weight|]; [|apply IH].
  destruct (values !! i) as [v|]; [|apply IH].
  destruct (0 <=? j - weight); [|apply IH].
  apply fmax_number; [apply IH|].
  apply double_add; [apply double_of_f32|apply number_double, IH].
Qed.

Lemma dp_entry_double values weights (i : nat) (j : Z) :
  is_double (dp_entry values weights i j).
Proof. apply number_double, dp_entry_number. Qed.

(** Each row dominates the one above. *)
Lemma dp_entry_mono_row values weights (i : nat) (j : Z) :
  f64_le (dp_entry values weights i j) (dp_entry values weights (S i) j).
Proof.
  cbn [dp_entry]. destruct (Z.leb_spec j 0) as [Hj|Hj].
  - rewrite dp_entry_col0 by assumption. apply f64_le_refl.
  - destruct (weights !! i) as [weight|]; [|apply f64_le_refl].
    destruct (values !! i) as [v|]; [|apply f64_le_refl].
    destruct (0 <=? j - weight); [apply fmax_le_l|apply f64_le_refl].
Qed.

Lemma dp_entry_mono_rows values weights (i i' : nat) (j : Z) :
  (i ≤ i')%nat →
  f64_le (dp_entry values weights i j) (dp_entry values weights i' j).
Proof.
  induction 1 as [|i' _ IH]; [apply f64_le_refl|].
  eapply f64_le_trans; [| | |exact IH|apply dp_entry_mono_row];
    first [apply dp_entry_double|apply dp_entry_number].
Qed.

(** No entry is below zero, whatever the values are. *)
Lemma dp_entry_nonneg values weights (i : nat) (j : Z) :
  f64_le f64_zero (dp_entry values weights i j).
Proof. apply (dp_entry_mono_rows values weights 0 i j). lia. Qed.

(** Within a row, entries grow with the column, as long as no weight is
    negative. *)
Lemma dp_entry_mono_col values weights (i : nat) (j j' : Z) :
  Forall (λ weight, 0 ≤ weight) weights → j ≤ j' →
  f64_le (dp_entry values weights i j) (dp_entry values weights i j').
Proof.
  intros Hw. revert j j'. induction i as [|i IH]; intros j j' Hj; [apply f64_le_refl|].
  destruct (Z.leb_spec j 0) as [Hj0|Hj0].
  { rewrite (dp_entry_col0 _ _ (S i) j) by assumption. apply dp_entry_nonneg. }
  cbn [dp_entry].
  destruct (Z.leb_spec j 0); [lia|]. destruct (Z.leb_spec j' 0); [lia|].
  destruct (weights !! i) as [weight|] eqn:Hweight; [|apply IH, Hj].
  destruct (values !! i) as [v|]; [|apply IH, Hj].
  rewrite Forall_lookup in Hw. specialize (Hw _ _ Hweight). simpl in Hw.
  destruct (Z.leb_spec 0 (j - weight)); destruct (Z.leb_spec 0 (j' - weight)); try lia.
  - apply fmax_add_mono; try apply dp_entry_number; [apply double_of_f32|apply IH, Hj|].
    apply IH. lia.
  - eapply f64_le_trans; [| | |apply IH, Hj|apply fmax_le_l];
      [apply dp_entry_double|apply dp_entry_number|].
    apply number_double, fmax_number; [apply dp_entry_number|].
    apply double_add; [apply double_of_f32|apply dp_entry_double].
  - apply IH, Hj.
Qed.

End Order.

(** ** The translation layer *)

Section Translation.
Context {AR : Arith}.

Lemma bind_pure {A B} (a : A) (f : A → outcome B) : (Returns a [] ≫= f) = f a.
Proof. unfold mbind, outcome_mbind. simpl. destruct (f a); reflexivity. Qed.

Lemma array_i_fits (weights : list Z) :
  Forall (λ weight, INT_MIN ≤ weight ≤ INT_MAX) weights →
  array_i weights = Returns weights [].
Proof.
  induction 1 as [|weight ws Hw _ IH]; [reflexivity|].
  simpl. rewrite (to_c_int_fits weight Hw), bind_pure, IH, bind_pure. reflexivity.
Qed.

Lemma array_i_overflow (weights : list Z) :
  ¬ Forall (λ weight, INT_MIN ≤ weight ≤ INT_MAX) weights →
  array_i weights = Raises OverflowError.
Proof.
  induction weights as [|weight ws IH]; intros Hbad.
  - exfalso. apply Hbad. constructor.
  - simpl. destruct (decide (INT_MIN ≤ weight ≤ INT_MAX)) as [Hw|Hw].
    + rewrite (to_c_int_fits weight Hw), bind_pure, IH; [reflexivity|].
      intros Hws. apply Hbad. constructor; assumption.
    + rewrite (to_c_int_overflow weight Hw). reflexivity.
Qed.

(** On C ints the translation layer hands [_knapsack] the weights and the
    capacity as they are and the values narrowed to [float]. *)
Lemma knapsack_translates values weights max_weight :
  Forall (λ weight, INT_MIN ≤ weight ≤ INT_MAX) weights →
  INT_MIN ≤ max_weight ≤ INT_MAX →
  knapsack values weights max_weight =
    _knapsack (f32_of_f64 <$> values) weights max_weight.
Proof.
  intros Hw Hc. unfold knapsack, array_f.
  change (mret (f32_of_f64 <$> values)) with (Returns (f32_of_f64 <$> values) []).
  rewrite bind_pure, (array_i_fits weights Hw), bind_pure.
  rewrite (to_c_int_fits max_weight Hc), bind_pure. reflexivity.
Qed.

Lemma valid_input_buffers_ok values weights capacity :
  (length weights ≤ length values)%nat →
  Forall (λ weight, 0 ≤ weight) weights → 0 ≤ capacity →
  fits_c_int weights capacity →
  buffers_ok (f32_of_f64 <$> values) weights capacity ∧
  Forall (λ weight, INT_MIN ≤ weight ≤ INT_MAX) weights ∧
  INT_MIN ≤ capacity ≤ INT_MAX.
Proof.
  intros Hlen Hw Hc (Hfit & Hcap & Hn).
  assert (Hint : INT_MIN = - 2 ^ 31 ∧ INT_MAX = 2 ^ 31 - 1) by (split; reflexivity).
  assert (Hboth : Forall (λ weight, 0 ≤ weight ≤ INT_MAX) weights).
  { rewrite Forall_forall in *. intros weight Hin. split; [apply Hw|apply Hfit]; assumption. }
  split; [|split; [|lia]].
  - split; [rewrite length_fmap; assumption|]. split; [assumption|]. split; [lia|assumption].
  - eapply Forall_impl; [|exact Hboth]. simpl. intros. lia.
Qed.

(** The value [knapsack] returns on an input that fits the buffers. *)
Lemma knapsack_spec values weights capacity :
  (length weights ≤ length values)%nat →
  Forall (λ weight, 0 ≤ weight) weights → 0 ≤ capacity →
  fits_c_int weights capacity →
  ∃ log, knapsack values weights capacity =
           Returns (dp_entry (f32_of_f64 <$> values) weights (length weights) capacity) log ∧
         Forall (access_ok (length values) (length weights)
                   (Z.of_nat (length weights) + 1) (capacity + 1)) log.
Proof.
  intros Hlen Hw Hc Hfit.
  destruct (valid_input_buffers_ok _ _ _ Hlen Hw Hc Hfit) as (Hok & Hwr & Hcr).
  rewrite (knapsack_translates _ _ _ Hwr Hcr).
  destruct (_knapsack_spec _ _ _ Hok) as (log & Hrun & Hlog).
  rewrite length_fmap in Hlog. exists log. split; assumption.
Qed.

End Translation.

(** ** Selections *)

Section Selections.
Context {AR : Arith}.

Lemma total_weight_snoc sel weights (b : bool) (weight : Z) :
  length sel = length weights →
  total_weight (sel ++ [b]) (weights ++ [weight]) =
    (if b then weight else 0) + total_weight sel weights.
Proof.
  intros Hlen. unfold total_weight.
  rewrite zip_with_app by assumption. simpl. rewrite foldl_snoc. simpl.
  destruct b; lia.
Qed.

Lemma total_value_snoc sel values (b : bool) (v : float64) :
  length sel = length values →
  total_value (sel ++ [b]) (values ++ [v]) =
    if b then f64_add v (total_value sel values) else total_value sel values.
Proof.
  intros Hlen. unfold total_value.
  rewrite zip_with_app by assumption. simpl. rewrite foldl_snoc. reflexivity.
Qed.

Lemma total_value_take sel values :
  total_value sel (take (length sel) values) = total_value sel values.
Proof. unfold total_value. rewrite zip_with_take_r. reflexivity. Qed.

Lemma total_weight_nonneg sel weights :
  Forall (λ weight, 0 ≤ weight) weights → 0 ≤ total_weight sel weights.
Proof.
  intros Hw. unfold total_weight.
  assert (H : ∀ (l : list (bool * Z)) acc,
            Forall (λ bw, 0 ≤ bw.2) l → 0 ≤ acc →
            0 ≤ foldl (λ (acc : Z) (bw : bool * Z), if bw.1 then bw.2 + acc else acc) acc l).
  { induction l as [|[b w] l IH]; intros acc Hl Hacc; [assumption|].
    simpl. inversion Hl; subst. apply IH; [assumption|]. simpl in *. destruct b; lia. }
  apply H; [|lia]. clear H. revert sel.
  induction Hw as [|w ws Hw _ IH]; intros [|b sel]; simpl; try constructor; auto.
Qed.

Lemma snoc_of_length {A} (l : list A) (n : nat) :
  length l = S n → ∃ l' x, l = l' ++ [x] ∧ length l' = n.
Proof.
  intros Hlen. destruct l as [|y l] using rev_ind; [discriminate|].
  rewrite length_app in Hlen. simpl in Hlen. exists l, y. split; [reflexivity|lia].
Qed.

(** Every entry is the value of a selection among the first [i] items that
    fits the column. *)
Lemma dp_entry_attained values weights (i : nat) (j : Z) :
  (i ≤ length weights)%nat → (length weights ≤ length values)%nat → 0 ≤ j →
  ∃ sel, length sel = i ∧
         total_weight sel (take i weights) ≤ j ∧
         total_value sel (take i (f64_of_f32 <$> values)) = dp_entry values weights i j.
Proof.
  intros Hi Hlen. revert j. induction i as [|i IH]; intros j Hj.
  { exists []. split; [reflexivity|]. split; [simpl; unfold total_weight; simpl; lia|reflexivity]. }
  destruct (lookup_lt_is_Some_2 weights i) as [weight Hweight]; [lia|].
  destruct (lookup_lt_is_Some_2 values i) as [v Hv]; [lia|].
  assert (Hv' : (f64_of_f32 <$> values) !! i = Some (f64_of_f32 v))
    by (rewrite list_lookup_fmap, Hv; reflexivity).
  rewrite (take_S_r _ _ _ Hweight), (take_S_r _ _ _ Hv').
  assert (Hlw : length (take i weights) = i) by (rewrite length_take; lia).
  assert (Hlv : length (take i (f64_of_f32 <$> values)) = i)
    by (rewrite length_take, length_fmap; lia).
  assert (Hskip : ∃ sel, length sel = S i ∧
            total_weight sel (take i weights ++ [weight]) ≤ j ∧
            total_value sel (take i (f64_of_f32 <$> values) ++ [f64_of_f32 v]) =
              dp_entry values weights i j).
  { destruct (IH ltac:(lia) j Hj) as (sel & Hls & Hsw & Hsv).
    exists (sel ++ [false]). split; [rewrite length_app; simpl; lia|].
    rewrite total_weight_snoc, total_value_snoc by congruence. split; [lia|assumption]. }
  destruct (Z.leb_spec j 0) as [Hj0|Hj0].
  { rewrite (dp_entry_col0 _ _ (S i)) by assumption.
    rewrite <- (dp_entry_col0 values weights i j) by assumption. exact Hskip. }
  rewrite (dp_entry_step values weights i j weight v ltac:(lia) Hweight Hv).
  destruct (Z.leb_spec 0 (j - weight)) as [Hfit|Hfit]; [|exact Hskip].
  unfold fmax. destruct (f64_gt _ _); [|exact Hskip].
  destruct (IH ltac:(lia) (j - weight) Hfit) as (sel & Hls & Hsw & Hsv).
  exists (sel ++ [true]). split; [rewrite length_app; simpl; lia|].
  rewrite total_weight_snoc, total_value_snoc by congruence. split; [lia|].
  rewrite Hsv. reflexivity.
Qed.

(** A sum of doubles is a double. *)
Lemma total_value_double {LAWS : OrderLaws AR} sel values :
  Forall is_double values → is_double (total_value sel values).
Proof.
  intros Hv. unfold total_value.
  assert (H : ∀ (l : list (bool * float64)) acc,
            Forall (λ bv, is_double bv.2) l → is_double acc →
            is_double (foldl (λ (acc : float64) (bv : bool * float64),
                                if bv.1 then f64_add bv.2 acc else acc) acc l)).
  { induction l as [|[b v] l IH]; intros acc Hl Hacc; [assumption|].
    simpl. apply Forall_inv in Hl as Hhead. apply Forall_inv_tail in Hl.
    apply IH; [assumption|]. simpl in *.
    destruct b; [apply double_add|]; assumption. }
  apply H; [|apply number_double, number_zero]. clear H. revert sel.
  induction Hv as [|v vs Hv _ IH]; intros [|b sel]; simpl; try constructor; auto.
Qed.

Lemma stored_values_double {LAWS : OrderLaws AR} (values : list float32) (i : nat) :
  Forall is_double (take i (f64_of_f32 <$> values)).
Proof.
  apply Forall_take, Forall_lookup. intros k v Hk.
  apply list_lookup_fmap_Some_1 in Hk as (x & -> & _). apply double_of_f32.
Qed.

(** No selection among the first [i] items that fits the column and takes
    only items of weight at least 1 is worth more than the entry. *)
Lemma dp_entry_bound_taken {LAWS : OrderLaws AR} values weights (i : nat) (j : Z) sel :
  Forall (λ weight, 0 ≤ weight) weights →
  (∀ (k : nat) weight,
     sel !! k = Some true → weights !! k = Some weight → 1 ≤ weight) →
  (i ≤ length weights)%nat → (length weights ≤ length values)%nat →
  length sel = i → total_weight sel (take i weights) ≤ j →
  f64_le (total_value sel (take i (f64_of_f32 <$> values))) (dp_entry values weights i j).
Proof.
  intros Hw Htaken Hi Hlen. revert j sel Htaken.
  induction i as [|i IH]; intros j sel Htaken Hls Hfeas.
  { destruct sel; [|discriminate]. apply f64_le_refl. }
  destruct (lookup_lt_is_Some_2 weights i) as [weight Hweight]; [lia|].
  destruct (lookup_lt_is_Some_2 values i) as [v Hv]; [lia|].
  assert (Hv' : (f64_of_f32 <$> values) !! i = Some (f64_of_f32 v))
    by (rewrite list_lookup_fmap, Hv; reflexivity).
  assert (Hnonneg : Forall (λ weight, 0 ≤ weight) (take i weights))
    by apply Forall_take, Hw.
  revert Hfeas. rewrite (take_S_r _ _ _ Hweight), (take_S_r _ _ _ Hv').
  destruct (snoc_of_length _ _ Hls) as (sel' & b & -> & Hls').
  assert (Hlw : length (take i weights) = i) by (rewrite length_take; lia).
  assert (Hlv : length (take i (f64_of_f32 <$> values)) = i)
    by (rewrite length_take, length_fmap; lia).
  assert (Htaken' : ∀ (k : nat) weight,
            sel' !! k = Some true → weights !! k = Some weight → 1 ≤ weight).
  { intros k wk Hk. apply Htaken. rewrite lookup_app_l; [exact Hk|].
    apply lookup_lt_Some in Hk. exact Hk. }
  rewrite total_weight_snoc, total_value_snoc by congruence.
  pose proof (total_weight_nonneg sel' _ Hnonneg) as Hrest.
  pose proof (total_value_double sel' _ (stored_values_double values i)) as Hsum.
  intros Hfeas.
  assert (Hskip : b = false ∨ 1 ≤ weight).
  { destruct b; [right|left; reflexivity].
    apply (Htaken i weight); [|exact Hweight].
    rewrite lookup_app_r by lia. replace (i - length sel')%nat with 0%nat by lia.
    reflexivity. }
  destruct (Z.leb_spec j 0) as [Hj0|Hj0].
  { destruct b; [destruct Hskip; [discriminate|lia]|].
    eapply f64_le_trans;
      [exact Hsum|apply dp_entry_number|apply dp_entry_double
      |apply (IH ltac:(lia) j sel' Htaken' Hls'); lia|apply dp_entry_mono_row]. }
  rewrite (dp_entry_step values weights i j weight v ltac:(lia) Hweight Hv).
  assert (Hcell : is_number
            (fmax (dp_entry values weights i j)
               (f64_add (f64_of_f32 v) (dp_entry values weights i (j - weight))))).
  { apply fmax_number; [apply dp_entry_number|].
    apply double_add; [apply double_of_f32|apply dp_entry_double]. }
  destruct b.
  - destruct (Z.leb_spec 0 (j - weight)); [|lia].
    apply (f64_add_mono (f64_of_f32 v) _ (dp_entry values weights i (j - weight)));
      [apply double_of_f32|exact Hsum|apply dp_entry_number|apply number_double, Hcell
      | |apply fmax_le_r].
    apply IH; [lia|exact Htaken'|assumption|lia].
  - assert (Hcarry : f64_le (total_value sel' (take i (f64_of_f32 <$> values)))
                            (dp_entry values weights i j))
      by (apply IH; [lia|exact Htaken'|assumption|lia]).
    destruct (0 <=? j - weight); [|exact Hcarry].
    eapply f64_le_trans;
      [exact Hsum|apply dp_entry_number|apply number_double, Hcell
      |exact Hcarry|apply fmax_le_l].
Qed.

(** With weights of at least 1, no selection among the first [i] items that
    fits the column is worth more than the entry. *)
Lemma dp_entry_bound {LAWS : OrderLaws AR} values weights (i : nat) (j : Z) sel :
  Forall (λ weight, 1 ≤ weight) weights →
  (i ≤ length weights)%nat → (length weights ≤ length values)%nat →
  length sel = i → total_weight sel (take i weights) ≤ j →
  f64_le (total_value sel (take i (f64_of_f32 <$> values))) (dp_entry values weights i j).
Proof.
  intros Hpos. apply dp_entry_bound_taken.
  - eapply Forall_impl; [|exact Hpos]. simpl. intros. lia.
  - intros k weight _ Hweight. rewrite Forall_lookup in Hpos. apply (Hpos _ _ Hweight).
Qed.

End Selections.

(** * The solver as a whole *)

Section Solver.
Context {AR : Arith}.

(** The table and the result on a valid input that fits the buffers. *)
Lemma solve_spec values weights capacity :
  valid_input values weights capacity → fits_c_int weights capacity →
  ∃ dp log log',
    fill_table (f32_of_f64 <$> values) weights capacity = Returns dp log ∧
    table_at (Z.of_nat (length weights) + 1) (capacity + 1)
      (λ r k, dp_entry (f32_of_f64 <$> values) weights (Z.to_nat r) k) dp ∧
    knapsack values weights capacity =
      Returns (dp_entry (f32_of_f64 <$> values) weights (length weights) capacity) log' ∧
    Forall (access_ok (length values) (length weights)
              (Z.of_nat (length weights) + 1) (capacity + 1)) log'.
Proof.
  intros (Hlen & Hw & Hc) Hfit.
  assert (Hle : (length weights ≤ length values)%nat) by lia.
  destruct (valid_input_buffers_ok _ _ _ Hle Hw Hc Hfit) as (Hok & _ & _).
  destruct (fill_table_spec _ _ _ Hok) as (dp & log & Hrun & Htab & _).
  destruct (knapsack_spec _ _ _ Hle Hw Hc Hfit) as (log' & Hres & Hlog').
  exists dp, log, log'. split; [assumption|]. split; [assumption|]. split; assumption.
Qed.

(** Every cell of the table outside row 0 and column 0 obeys the
    recurrence. *)
Lemma recurrence_of_table values weights capacity dp (i j : Z) :
  valid_input values weights capacity →
  table_at (Z.of_nat (length weights) + 1) (capacity + 1)
    (λ r k, dp_entry (f32_of_f64 <$> values) weights (Z.to_nat r) k) dp →
  1 ≤ i ≤ Z.of_nat (length weights) → 1 ≤ j ≤ capacity →
  recurrence_at values weights dp i j.
Proof.
  intros (Hlen & Hw & Hc) Htab Hi Hj.
  destruct (lookup_lt_is_Some_2 weights (Z.to_nat (i - 1))) as [weight Hweight]; [lia|].
  destruct (lookup_lt_is_Some_2 values (Z.to_nat (i - 1))) as [v Hv]; [lia|].
  assert (Hweight0 : 0 ≤ weight).
  { rewrite Forall_lookup in Hw. apply (Hw _ _ Hweight). }
  assert (Hbuf : (f32_of_f64 <$> values) !! Z.to_nat (i - 1) = Some (f32_of_f64 v))
    by (rewrite list_lookup_fmap, Hv; reflexivity).
  exists weight, (f64_of_f32 (f32_of_f64 v)),
    (dp_entry (f32_of_f64 <$> values) weights (Z.to_nat (i - 1)) j).
  split; [exact Hweight|]. split.
  { unfold as_stored. rewrite list_lookup_fmap, Hv. reflexivity. }
  split; [apply (table_at_entry _ _ _ _ _ _ Htab); lia|].
  rewrite (table_at_entry _ _ _ _ i j Htab) by lia.
  replace (Z.to_nat i) with (S (Z.to_nat (i - 1))) by lia.
  rewrite (dp_entry_step _ _ (Z.to_nat (i - 1)) j weight (f32_of_f64 v)
             ltac:(lia) Hweight Hbuf).
  destruct (Z.gtb_spec weight j) as [Hgt|Hngt].
  - destruct (Z.leb_spec 0 (j - weight)); [lia|reflexivity].
  - destruct (Z.leb_spec 0 (j - weight)); [|lia].
    eexists. split; [apply (table_at_entry _ _ _ _ _ _ Htab); lia|reflexivity].
Qed.

End Solver.


(** ** Optimality, and where it stops *)

Section Optimum.
Context {AR : Arith}.

Lemma dp_entry_take values weights (n i : nat) (j : Z) :
  (i ≤ n)%nat →
  dp_entry (take n values) weights i j = dp_entry values weights i j.
Proof.
  intros Hi. revert j. induction i as [|i IH]; intros j; [reflexivity|].
  simpl. rewrite lookup_take_lt by lia.
  destruct (j <=? 0); [reflexivity|].
  destruct (weights !! i) as [weight|]; [|apply IH; lia].
  destruct (values !! i) as [v|]; [|apply IH; lia].
  rewrite !IH by lia. reflexivity.
Qed.

(** Values beyond the last weight play no part: the call returns what it
    returns on the first [len(weights)] values alone. *)
Lemma surplus_values_ignored values weights capacity :
  (length weights ≤ length values)%nat →
  Forall (λ weight, 0 ≤ weight) weights → 0 ≤ capacity →
  fits_c_int weights capacity →
  ∃ r, result (knapsack values weights capacity) = Some r ∧
       result (knapsack (take (length weights) values) weights capacity) = Some r.
Proof.
  intros Hlen Hw Hc Hfit.
  destruct (knapsack_spec values weights capacity Hlen Hw Hc Hfit) as (log & Hres & _).
  destruct (knapsack_spec (take (length weights) values) weights capacity)
    as (log' & Hres' & _); try assumption.
  { rewrite length_take. lia. }
  eexists. rewrite Hres, Hres'. split; [reflexivity|]. simpl. f_equal.
  rewrite fmap_take. apply dp_entry_take. lia.
Qed.

(** When every weight is at least 1 the result is the best value of a
    selection that fits: some selection reaches it and none exceeds it. *)
Lemma optimal_for_positive_weights {LAWS : OrderLaws AR} values weights capacity :
  (length weights ≤ length values)%nat →
  Forall (λ weight, 1 ≤ weight) weights → 0 ≤ capacity →
  fits_c_int weights capacity →
  ∃ r, result (knapsack values weights capacity) = Some r ∧
       is_optimum (as_stored values) weights capacity r.
Proof.
  intros Hlen Hpos Hc Hfit.
  assert (Hw : Forall (λ weight, 0 ≤ weight) weights).
  { eapply Forall_impl; [|exact Hpos]. simpl. intros. lia. }
  destruct (knapsack_spec values weights capacity Hlen Hw Hc Hfit) as (log & Hres & _).
  eexists. rewrite Hres. split; [reflexivity|].
  assert (Hstored : as_stored values = f64_of_f32 <$> (f32_of_f64 <$> values)).
  { unfold as_stored. rewrite <- list_fmap_compose. reflexivity. }
  assert (Hlenb : (length weights ≤ length (f32_of_f64 <$> values))%nat)
    by (rewrite length_fmap; assumption).
  split.
  - destruct (dp_entry_attained (f32_of_f64 <$> values) weights (length weights) capacity)
      as (sel & Hls & Hsw & Hsv); [lia|assumption|assumption|].
    exists sel. rewrite take_ge in Hsw by lia. split; [split; assumption|].
    rewrite Hstored, <- Hsv, <- Hls. symmetry. apply total_value_take.
  - intros sel [Hls Hsw]. rewrite Hstored, <- (total_value_take sel), Hls.
    apply dp_entry_bound; try assumption; [lia|]. rewrite take_ge by lia. assumption.
Qed.

End Optimum.

(** ** Calls that raise *)

Section Raising.
Context {AR : Arith}.

Lemma bind_raises_if {A B} (m : outcome A) (f : A → outcome B) :
  (∀ a l, m = Returns a l → ∃ e, f a = Raises e) → ∃ e, (m ≫= f) = Raises e.
Proof.
  intros H. destruct m as [a l|e].
  - destruct (H a l eq_refl) as [e He]. exists e.
    unfold mbind, outcome_mbind. simpl. rewrite He. reflexivity.
  - exists e. reflexivity.
Qed.

Lemma index_returns {A} b (l : list A) (i : Z) x log :
  index b l i = Returns x log → x ∈ l.
Proof.
  unfold index. intros H. apply bind_inv in H as (k & l1 & l2 & _ & H & _).
  destruct (l !! k) eqn:Hk; [|discriminate]. injection H as <- _.
  eapply list_elem_of_lookup_2, Hk.
Qed.

Lemma np_zeros_dims rows cols dp log :
  np_zeros rows cols = Returns dp log → dims rows cols dp ∧ log = [].
Proof.
  unfold np_zeros.
  destruct (Z.ltb_spec rows 0); [discriminate|].
  destruct (Z.ltb_spec cols 0); [discriminate|]. simpl.
  intros [= <- <-]. split; [|reflexivity]. split; [rewrite length_replicate; lia|].
  apply Forall_replicate. rewrite length_replicate. lia.
Qed.

Lemma store_dims rows cols dp (i j : Z) x dp' log :
  dims rows cols dp → store dp i j x = Returns dp' log → dims rows cols dp'.
Proof.
  intros [Hlen Hrows] H. unfold store in H.
  apply bind_inv in H as (ki & l1 & l2 & _ & H & _).
  destruct (dp !! ki) as [row|] eqn:Hrow; [|discriminate].
  apply bind_inv in H as (kj & l3 & l4 & _ & H & _).
  injection H as <- _. split; [rewrite length_insert; assumption|].
  apply Forall_insert; [assumption|]. rewrite length_insert.
  apply (Forall_lookup_1 _ _ _ _ Hrows Hrow).
Qed.

Lemma cell_dims values weights rows cols (i j : Z) dp dp' log :
  dims rows cols dp → cell values weights i j dp = Returns dp' log →
  dims rows cols dp'.
Proof.
  intros Hd H. unfold cell in H.
  apply bind_inv in H as (weight & ? & ? & _ & H & _).
  destruct (0 <=? wrap_int (j - weight)).
  - apply bind_inv in H as (v & ? & ? & _ & H & _).
    apply bind_inv in H as (above & ? & ? & _ & H & _).
    apply bind_inv in H as (skip & ? & ? & _ & H & _).
    apply bind_inv in H as (above' & ? & ? & _ & H & _).
    apply bind_inv in H as (rest & ? & ? & _ & H & _).
    apply (store_dims _ _ _ _ _ _ _ _ Hd H).
  - apply bind_inv in H as (above & ? & ? & _ & H & _).
    apply bind_inv in H as (skip & ? & ? & _ & H & _).
    apply (store_dims _ _ _ _ _ _ _ _ Hd H).
Qed.

Lemma for_each_preserves {S} (Inv : S → Prop) (body : Z → S → outcome S) l s s' log :
  (∀ i s s' log, Inv s → body i s = Returns s' log → Inv s') →
  Inv s → for_each l body s = Returns s' log → Inv s'.
Proof.
  intros Hbody. revert s log. induction l as [|i l IH]; intros s log Hs H.
  - injection H as <- _. assumption.
  - simpl in H. apply bind_inv in H as (s1 & l1 & l2 & H1 & H2 & _).
    apply (IH s1 l2); [|assumption]. apply (Hbody i s s1 l1); assumption.
Qed.

(** A loop raises as soon as one of its iterations is bound to. *)
Lemma for_each_raises {S} (Inv : S → Prop) (body : Z → S → outcome S) l1 x l2 s :
  (∀ i s s' log, Inv s → body i s = Returns s' log → Inv s') →
  (∀ s, Inv s → ∃ e, body x s = Raises e) →
  Inv s → ∃ e, for_each (l1 ++ x :: l2) body s = Raises e.
Proof.
  intros Hbody Hx. revert s. induction l1 as [|i l1 IH]; intros s Hs; simpl.
  - destruct (Hx s Hs) as [e He]. exists e. rewrite He. reflexivity.
  - apply bind_raises_if. intros s1 log1 H1. apply IH. apply (Hbody i s s1 log1); assumption.
Qed.

Lemma for_each_skips {S} (body : Z → S → outcome S) l s :
  (∀ i s, body i s = Returns s []) → for_each l body s = Returns s [].
Proof.
  intros Hbody. induction l as [|i l IH]; [reflexivity|].
  simpl. rewrite Hbody, bind_pure. exact IH.
Qed.

Lemma range_split (lo x hi : Z) :
  lo ≤ x < hi → range lo hi = range lo x ++ x :: range (x + 1) hi.
Proof.
  intros H. unfold range.
  replace (hi - lo) with ((x - lo) + (hi - x)) by lia.
  rewrite seqZ_app by lia. f_equal.
  replace (lo + (x - lo)) with x by lia.
  rewrite seqZ_cons by lia. f_equal. f_equal; lia.
Qed.

(** With a negative weight, the last column of the item's row reads the
    row above past its end. *)
Lemma cell_raises_on_negative_weight values weights rows cols (i weight : Z) dp :
  dims rows cols dp → 1 ≤ i ≤ INT_MAX → 2 ≤ cols ≤ INT_MAX →
  weights !! Z.to_nat (i - 1) = Some weight →
  weight < 0 → cols - 1 - weight ≤ INT_MAX →
  ∃ e, cell values weights i (cols - 1) dp = Raises e.
Proof.
  intros [Hlen Hrows] Hi Hcols Hw Hneg Hnowrap.
  assert (Hint : INT_MIN = - 2 ^ 31 ∧ INT_MAX = 2 ^ 31 - 1) by (split; reflexivity).
  unfold cell. rewrite !(wrap_int_id (i - 1)) by lia.
  rewrite (index_in_range Weights weights (i - 1) weight) by (lia || assumption).
  apply bind_raises_if. intros a l [= <- _].
  rewrite (wrap_int_id (cols - 1 - weight)) by lia.
  destruct (Z.leb_spec 0 (cols - 1 - weight)); [|lia].
  apply bind_raises_if. intros v _ _.
  apply bind_raises_if. intros above _ _.
  apply bind_raises_if. intros skip _ _.
  apply bind_raises_if. intros above' l' Habove'.
  exists IndexError. apply bind_raises, index_too_large.
  apply index_returns in Habove'. apply list_elem_of_lookup_1 in Habove' as [k Hk].
  pose proof (Forall_lookup_1 _ _ _ _ Hrows Hk) as Hla. simpl in Hla. lia.
Qed.

Lemma fill_table_raises_on_negative_weight values weights max_weight :
  1 ≤ max_weight ≤ INT_MAX → Z.of_nat (length weights) < INT_MAX →
  Exists (λ weight, max_weight - INT_MAX ≤ weight < 0) weights →
  ∃ e, fill_table values weights max_weight = Raises e.
Proof.
  intros Hc Hn Hex.
  assert (Hint : INT_MIN = - 2 ^ 31 ∧ INT_MAX = 2 ^ 31 - 1) by (split; reflexivity).
  apply Exists_exists in Hex as (weight & Hin & Hweight).
  apply list_elem_of_In, list_elem_of_lookup_1 in Hin as [p Hp].
  apply lookup_lt_Some in Hp as Hlt.
  unfold fill_table. rewrite (wrap_int_id (Z.of_nat (length weights) + 1)) by lia.
  destruct (decide (max_weight = INT_MAX)) as [->|Hne].
  { exists ValueError. apply bind_raises. unfold np_zeros.
    replace (wrap_int (INT_MAX + 1) <? 0) with true by reflexivity.
    rewrite orb_true_r. reflexivity. }
  rewrite (wrap_int_id (max_weight + 1)) by lia.
  apply bind_raises_if. intros dp0 l0 Hzeros.
  apply np_zeros_dims in Hzeros as [Hd ->].
  set (rows := Z.of_nat (length weights) + 1) in *.
  set (cols := max_weight + 1) in *.
  rewrite (range_split 1 (Z.of_nat p + 1) rows) by (unfold rows; lia).
  apply (for_each_raises (dims rows cols)); [| |assumption].
  - intros i s s' log Hs. apply for_each_preserves; [|assumption].
    intros j t t' log'. apply cell_dims.
  - intros s Hs.
    rewrite (range_split 1 (cols - 1) cols) by (unfold cols; lia).
    apply (for_each_raises (dims rows cols)); [| |assumption].
    + intros j t t' log'. apply cell_dims.
    + intros t Ht.
      apply (cell_raises_on_negative_weight values weights rows cols _ weight);
        try assumption; try (unfold cols; lia).
      replace (Z.to_nat (Z.of_nat p + 1 - 1)) with p by lia. assumption.
Qed.

(** With a negative capacity either the allocation fails or the table has
    no column, and then no iteration of the inner loop runs. *)
Lemma fill_table_negative_capacity values weights max_weight :
  INT_MIN ≤ max_weight < 0 →
  fill_table values weights max_weight = Raises ValueError ∨
  max_weight = -1 ∧
  ∃ dp, fill_table values weights max_weight = Returns dp [] ∧
        Forall (λ row, row = []) dp.
Proof.
  intros Hc.
  assert (Hint : INT_MIN = - 2 ^ 31 ∧ INT_MAX = 2 ^ 31 - 1) by (split; reflexivity).
  unfold fill_table. rewrite (wrap_int_id (max_weight + 1)) by lia.
  set (rows := wrap_int (Z.of_nat (length weights) + 1)).
  unfold np_zeros. destruct ((rows <? 0) || (max_weight + 1 <? 0)) eqn:Hneg.
  { left. reflexivity. }
  right. apply orb_false_iff in Hneg as [_ Hcols%Z.ltb_ge].
  split; [lia|]. assert (max_weight + 1 = 0) as -> by lia.
  exists (replicate (Z.to_nat rows) []). split; [|apply Forall_replicate; reflexivity].
  change (mret ?x) with (Returns x []). rewrite bind_pure. simpl.
  apply for_each_skips. intros i s. reflexivity.
Qed.

Lemma _knapsack_negative_capacity values weights max_weight :
  INT_MIN ≤ max_weight < 0 → ∃ e, _knapsack values weights max_weight = Raises e.
Proof.
  intros Hc.
  assert (Hint : INT_MIN = - 2 ^ 31 ∧ INT_MAX = 2 ^ 31 - 1) by (split; reflexivity).
  unfold _knapsack.
  destruct (fill_table_negative_capacity values weights max_weight Hc)
    as [Hraise|(-> & dp & Hrun & Hrows)]; rewrite ?Hraise, ?Hrun.
  { exists ValueError. reflexivity. }
  apply bind_raises_if. intros dp' l [= <- _].
  apply bind_raises_if. intros last l' Hlast.
  apply index_returns in Hlast. apply list_elem_of_lookup_1 in Hlast as [k Hk].
  rewrite (Forall_lookup_1 _ _ _ _ Hrows Hk).
  exists IndexError. reflexivity.
Qed.

End Raising.

(** ** Exhaustive search *)

Section BruteForce.
Context {AR : Arith}.

Lemma selections_length (n : nat) sel : sel ∈ selections n → length sel = n.
Proof.
  revert sel. induction n as [|n IH]; intros sel Hin; simpl in Hin.
  - apply list_elem_of_singleton in Hin as ->. reflexivity.
  - apply elem_of_app in Hin as [Hin|Hin];
      apply list_elem_of_fmap in Hin as (sel' & -> & Hin');
      rewrite length_app, (IH _ Hin'); simpl; lia.
Qed.

Lemma selections_complete (n : nat) sel : length sel = n → sel ∈ selections n.
Proof.
  revert sel. induction n as [|n IH]; intros sel Hlen.
  - destruct sel; [|discriminate]. simpl. apply list_elem_of_singleton. reflexivity.
  - destruct (snoc_of_length _ _ Hlen) as (sel' & b & -> & Hlen').
    simpl. apply elem_of_app. destruct b; [right|left];
      apply list_elem_of_fmap; exists sel'; (split; [reflexivity|apply IH, Hlen']).
Qed.

Lemma total_weight_none (n : nat) weights :
  total_weight (replicate n false) weights = 0.
Proof.
  unfold total_weight. revert weights.
  induction n as [|n IH]; intros [|w ws]; simpl; try reflexivity. apply IH.
Qed.

Lemma total_value_none (n : nat) values :
  total_value (replicate n false) values = f64_zero.
Proof.
  unfold total_value. revert values.
  induction n as [|n IH]; intros [|v vs]; simpl; try reflexivity. apply IH.
Qed.

(** Folding [max] over a list of selections keeps the best one that fits. *)
Lemma best_of_selections {LAWS : OrderLaws AR} values weights capacity sels :
  0 ≤ capacity → Forall is_double values →
  (∀ sel, sel ∈ sels → length sel = length weights) →
  let step := λ sel best,
    if total_weight sel weights <=? capacity
    then fmax best (total_value sel values) else best in
  is_number (foldr step f64_zero sels) ∧
  (∃ sel, feasible sel weights capacity ∧
          total_value sel values = foldr step f64_zero sels) ∧
  (∀ sel, sel ∈ sels → total_weight sel weights ≤ capacity →
          f64_le (total_value sel values) (foldr step f64_zero sels)).
Proof.
  intros Hc Hv Hall step. induction sels as [|s sels IH].
  - split; [apply number_zero|]. split; [|intros sel Hin; inversion Hin].
    exists (replicate (length weights) false). split; [split|].
    + apply length_replicate.
    + rewrite total_weight_none. assumption.
    + apply total_value_none.
  - destruct IH as (Hnum & (best & Hbest & Hval) & Hbound).
    { intros sel Hin. apply Hall. right. assumption. }
    simpl. unfold step at 1 3 5.
    pose proof (total_value_double s values Hv) as Hs_double.
    destruct (Z.leb_spec (total_weight s weights) capacity) as [Hs|Hs].
    + split; [apply fmax_number; assumption|]. split.
      * unfold fmax. destruct (f64_gt _ _).
        -- exists s. split; [split; [apply Hall; left|assumption]|reflexivity].
        -- exists best. split; assumption.
      * intros sel Hin Hfit. apply elem_of_cons in Hin as [->|Hin].
        -- apply fmax_le_r.
        -- eapply f64_le_trans;
             [apply total_value_double, Hv|exact Hnum
             |apply number_double, fmax_number; assumption
             |apply Hbound; assumption|apply fmax_le_l].
    + split; [exact Hnum|]. split; [exists best; split; assumption|].
      intros sel Hin Hfit. apply elem_of_cons in Hin as [->|Hin]; [lia|].
      apply Hbound; assumption.
Qed.

(** Exhaustive search returns the best value of a selection that fits. *)
Lemma brute_force_optimum {LAWS : OrderLaws AR} values weights capacity :
  0 ≤ capacity → Forall is_double values →
  is_number (brute_force values weights capacity) ∧
  is_optimum values weights capacity (brute_force values weights capacity).
Proof.
  intros Hc Hv.
  destruct (best_of_selections values weights capacity (selections (length weights)) Hc Hv)
    as (Hnum & Hreach & Hbound).
  { intros sel. apply selections_length. }
  split; [exact Hnum|]. split; [exact Hreach|].
  intros sel [Hlen Hfit]. apply Hbound; [|assumption].
  apply selections_complete, Hlen.
Qed.

End BruteForce.

(** ** Single and double precision *)

Lemma iter_pos_iter {A} (f : A → A) (p : positive) (x : A) :
  SpecFloat.iter_pos f p x = Pos.iter f x p.
Proof.
  revert x. induction p as [p IH|p IH|]; intros x; simpl.
  - rewrite !IH. rewrite <- !Pos.iter_swap. reflexivity.
  - rewrite !IH. reflexivity.
  - reflexivity.
Qed.

Lemma digits2_pos_shift (m p : positive) :
  digits2_pos (Pos.iter xO m p) = (digits2_pos m + p)%positive.
Proof.
  induction p as [|p IH] using Pos.peano_ind.
  - simpl. lia.
  - rewrite Pos.iter_succ. simpl. rewrite IH. lia.
Qed.

Lemma shr_shift (m p : positive) :
  SpecFloat.iter_pos shr_1 p
    {| shr_m := Zpos (Pos.iter xO m p); shr_r := false; shr_s := false |}
  = {| shr_m := Zpos m; shr_r := false; shr_s := false |}.
Proof.
  rewrite iter_pos_iter. induction p as [|p IH] using Pos.peano_ind.
  - reflexivity.
  - rewrite Pos.iter_succ_r, Pos.iter_succ. simpl. exact IH.
Qed.

(** Rounding a mantissa that ends in [p] zero bits, [p ≥ 0], to a format
    in which it has exactly those [p] bits too many, drops them. *)
Lemma binary_round_aux_shift prec emax (s : bool) (m : positive) (t : Z) (p : Z) :
  0 ≤ p →
  fexp prec emax (Zpos (digits2_pos m) + (t + p)) = t + p →
  t + p ≤ emax - prec →
  binary_round_aux prec emax s
    (Zpos (match p with Zpos q => Pos.iter xO m q | _ => m end)) t loc_Exact
  = S754_finite s m (t + p).
Proof.
  intros Hp Hfexp Hmax. unfold binary_round_aux, shr_fexp. cbn [Zdigits2 shr_record_of_loc].
  destruct p as [|q|q]; [| |lia].
  - rewrite Z.add_0_r in *. rewrite Hfexp, Z.sub_diag. cbn [shr].
    cbn [shr_m loc_of_shr_record round_nearest_even Zdigits2 shr_record_of_loc].
    rewrite Hfexp, Z.sub_diag. cbn [shr shr_m].
    destruct (Z.leb_spec t (emax - prec)); [reflexivity|lia].
  - rewrite digits2_pos_shift.
    replace (Z.pos (digits2_pos m + q) + t) with (Z.pos (digits2_pos m) + (t + Z.pos q)) by lia.
    rewrite Hfexp. replace (t + Z.pos q - t) with (Z.pos q) by lia. cbn [shr].
    rewrite shr_shift.
    cbn [shr_m loc_of_shr_record round_nearest_even Zdigits2 shr_record_of_loc].
    rewrite Hfexp, Z.sub_diag. cbn [shr shr_m].
    destruct (Z.leb_spec (t + Z.pos q) (emax - prec)); [reflexivity|lia].
Qed.

Lemma single_bounds (m : positive) (e : Z) :
  bounded 24 128 m e = true →
  (digits2_pos m ≤ 24)%positive ∧ -149 ≤ e ≤ 104 ∧
  fexp 24 128 (Zpos (digits2_pos m) + e) = e.
Proof.
  unfold bounded, canonical_mantissa. intros Hb.
  apply andb_true_iff in Hb as [Hcan%Z.eqb_eq He%Z.leb_le].
  split; [|split; [|exact Hcan]]; unfold fexp, emin in Hcan; lia.
Qed.

(** Widening a single-precision number to double only shifts its mantissa. *)
Lemma widen_single (s : bool) (m : positive) (e : Z) :
  bounded 24 128 m e = true →
  IEEE.convert 53 1024 (S754_finite s m e) =
    S754_finite s (Pos.iter xO m (53 - digits2_pos m))
                (Zpos (digits2_pos m) + e - 53).
Proof.
  intros Hb. destruct (single_bounds m e Hb) as (Hd & He & Hcan).
  set (d := digits2_pos m) in *.
  unfold IEEE.convert, binary_round. fold d.
  assert (Hf : fexp 53 1024 (Z.pos d + e) = Z.pos d + e - 53)
    by (unfold fexp, emin; lia).
  rewrite Hf. unfold shl_align.
  replace (Z.pos d + e - 53 - e) with (Z.neg (53 - d)) by lia.
  rewrite <- (Z.add_0_r (Z.pos d + e - 53)) at 2.
  apply (binary_round_aux_shift 53 1024 s _ _ 0); [lia| |lia].
  rewrite digits2_pos_shift. fold d. unfold fexp, emin. lia.
Qed.

(** A single-precision number that went through a double comes back as it
    was: the translation layer leaves such values unchanged. *)
Lemma single_survives (x : spec_float) :
  valid_binary 24 128 x = true →
  IEEE.convert 24 128 (IEEE.convert 53 1024 x) = x.
Proof.
  destruct x as [s|s| |s m e]; try reflexivity. intros Hb. simpl in Hb.
  rewrite (widen_single s m e Hb).
  destruct (single_bounds m e Hb) as (Hd & He & Hcan).
  set (d := digits2_pos m) in *.
  unfold IEEE.convert, binary_round. rewrite digits2_pos_shift. fold d.
  replace (Z.pos (d + (53 - d)) + (Z.pos d + e - 53)) with (Z.pos d + e) by lia.
  rewrite Hcan. unfold shl_align.
  replace (e - (Z.pos d + e - 53)) with (Z.pos (53 - d)) by lia.
  replace e with ((Z.pos d + e - 53) + Z.pos (53 - d)) at 2 by lia.
  apply (binary_round_aux_shift 24 128 s m _ (Z.pos (53 - d))); [lia| |lia].
  replace (Z.pos d + e - 53 + Z.pos (53 - d)) with e by lia. exact Hcan.
Qed.

Lemma pos_shift_value (m q : positive) : Zpos (Pos.iter xO m q) = Zpos m * 2 ^ Zpos q.
Proof.
  induction q as [|q IH] using Pos.peano_ind.
  - simpl. lia.
  - rewrite Pos.iter_succ, Pos2Z.inj_xO, IH, Pos2Z.inj_succ, Z.pow_succ_r by lia. lia.
Qed.

(** Widening is exact: the double denotes the same number. *)
Lemma widen_exact (x : spec_float) :
  valid_binary 24 128 x = true → x ≠ S754_nan →
  IEEE.same_number (IEEE.convert 53 1024 x) x = true.
Proof.
  destruct x as [s|s| |s m e]; try (destruct s; reflexivity); [congruence|].
  intros Hb _. simpl in Hb. rewrite (widen_single s m e Hb).
  destruct (single_bounds m e Hb) as (Hd & He & Hcan).
  set (d := digits2_pos m) in *.
  unfold IEEE.same_number, IEEE.exponent, IEEE.scaled.
  replace (Z.min (Z.pos d + e - 53) e) with (Z.pos d + e - 53) by lia.
  rewrite Z.sub_diag. replace (e - (Z.pos d + e - 53)) with (Z.pos (53 - d)) by lia.
  apply Z.eqb_eq. rewrite pos_shift_value. destruct s; simpl cond_Zopp; lia.
Qed.

(** ** IEEE doubles are ordered

    The order laws, for the Standard Library's [SFltb] and [SFadd] on
    binary64.  A double is read as an integer, in units of the smallest
    positive double ([IEEE.key]); comparison is the comparison of these
    integers, and a sum is the exact integer sum, rounded to 53 bits, ties
    to even, and to an infinity on overflow ([IEEE.round_key]), which is a
    monotone function. *)

(** *** Digits *)

(** [digits2_pos m] is the number of binary digits of [m]. *)
Lemma digits2_pos_bounds (m : positive) :
  2 ^ (Zpos (digits2_pos m) - 1) ≤ Zpos m < 2 ^ Zpos (digits2_pos m).
Proof.
  induction m as [m IH|m IH|]; cbn [digits2_pos].
  - rewrite Pos2Z.inj_succ.
    replace (Z.succ (Zpos (digits2_pos m)) - 1) with (Z.succ (Zpos (digits2_pos m) - 1)) by lia.
    rewrite !Z.pow_succ_r by lia. lia.
  - rewrite Pos2Z.inj_succ.
    replace (Z.succ (Zpos (digits2_pos m)) - 1) with (Z.succ (Zpos (digits2_pos m) - 1)) by lia.
    rewrite !Z.pow_succ_r by lia. lia.
  - simpl. lia.
Qed.

Lemma Zdigits2_bounds (n : Z) :
  0 < n → 2 ^ (Zdigits2 n - 1) ≤ n < 2 ^ Zdigits2 n ∧ 0 < Zdigits2 n.
Proof.
  destruct n as [|m|m]; try lia. intros _. simpl.
  split; [apply digits2_pos_bounds|lia].
Qed.

Lemma Zdigits2_le (n p : Z) : 0 < n → 0 ≤ p → n < 2 ^ p → Zdigits2 n ≤ p.
Proof.
  intros Hn Hp Hlt. destruct (Zdigits2_bounds n Hn) as [[Hlo _] Hd].
  destruct (Z.le_gt_cases (Zdigits2 n) p) as [|Hgt]; [assumption|].
  assert (2 ^ p ≤ 2 ^ (Zdigits2 n - 1)) by (apply Z.pow_le_mono_r; lia). lia.
Qed.

Lemma Zdigits2_ge (n p : Z) : 0 < n → 2 ^ (p - 1) ≤ n → p ≤ Zdigits2 n.
Proof.
  intros Hn Hlo. destruct (Zdigits2_bounds n Hn) as [[_ Hhi] Hd].
  destruct (Z.le_gt_cases p (Zdigits2 n)) as [|Hgt]; [assumption|].
  assert (2 ^ Zdigits2 n ≤ 2 ^ (p - 1)) by (apply Z.pow_le_mono_r; lia). lia.
Qed.

(** *** Shifting right *)

(** One step of [shr] halves the mantissa, keeps the bit that fell off
    and remembers whether any earlier bit was set. *)
Lemma shr_1_spec (m : Z) (r s : bool) :
  0 ≤ m →
  shr_1 {| shr_m := m; shr_r := r; shr_s := s |} =
  {| shr_m := Z.div2 m; shr_r := Z.odd m; shr_s := r || s |}.
Proof. intros Hm. destruct m as [|[p|p|]|p]; try lia; reflexivity. Qed.

Lemma mod_pow2_succ (m k : Z) :
  0 ≤ k →
  m mod 2 ^ (k + 1) = m mod 2 ^ k + (if Z.testbit m k then 2 ^ k else 0).
Proof.
  intros Hk. rewrite Z.pow_add_r, Z.pow_1_r by lia.
  assert (0 < 2 ^ k) by (apply Z.pow_pos_nonneg; lia).
  rewrite Z.rem_mul_r by lia. f_equal.
  rewrite Z.testbit_odd, Z.shiftr_div_pow2 by lia.
  rewrite Zmod_odd. destruct (Z.odd (m / 2 ^ k)); lia.
Qed.

(** After [n] steps: the quotient by [2^n], bit [n - 1], and whether the
    bits below it are all zero. *)
Lemma shr_iter (m : Z) (n : positive) :
  0 ≤ m →
  Pos.iter shr_1 {| shr_m := m; shr_r := false; shr_s := false |} n =
  {| shr_m := m / 2 ^ Zpos n;
     shr_r := Z.testbit m (Zpos n - 1);
     shr_s := negb (m mod 2 ^ (Zpos n - 1) =? 0) |}.
Proof.
  intros Hm. induction n as [|n IH] using Pos.peano_ind.
  - cbn [Pos.iter]. rewrite shr_1_spec by assumption.
    rewrite Z.div2_div. change (Z.pos 1 - 1) with 0. rewrite Z.bit0_odd.
    rewrite Z.pow_0_r, Z.mod_1_r. reflexivity.
  - rewrite Pos.iter_succ, IH, shr_1_spec by (apply Z.div_pos; [lia|apply Z.pow_pos_nonneg; lia]).
    rewrite Pos2Z.inj_succ. f_equal.
    + rewrite Z.div2_div, Z.pow_succ_r by lia.
      rewrite Z.div_div by (try apply Z.pow_pos_nonneg; lia). f_equal. lia.
    + replace (Z.succ (Z.pos n) - 1) with (Z.pos n) by lia.
      rewrite <- Z.shiftr_div_pow2 by lia. rewrite <- Z.bit0_odd, Z.shiftr_spec by lia.
      reflexivity.
    + replace (Z.succ (Z.pos n) - 1) with (Z.pos n - 1 + 1) by lia.
      rewrite (mod_pow2_succ m (Z.pos n - 1)) by lia.
      assert (0 ≤ m mod 2 ^ (Z.pos n - 1)) by (apply Z.mod_pos_bound, Z.pow_pos_nonneg; lia).
      assert (0 < 2 ^ (Z.pos n - 1)) by (apply Z.pow_pos_nonneg; lia).
      destruct (Z.testbit m (Z.pos n - 1)); simpl.
      * symmetry. apply negb_true_iff, Z.eqb_neq. lia.
      * rewrite Z.add_0_r. reflexivity.
Qed.

Lemma rnd_0 (m : Z) : IEEE.rnd m 0 = m.
Proof.
  unfold IEEE.rnd, IEEE.round_up. rewrite Z.pow_0_r, Z.mod_1_r, Z.div_1_r. simpl. lia.
Qed.

(** Shifting right by [k] and rounding to nearest even is [IEEE.rnd]. *)
Lemma shr_round (m e k : Z) :
  0 ≤ m → 0 ≤ k →
  ∃ mrs, shr {| shr_m := m; shr_r := false; shr_s := false |} e k = (mrs, e + k) ∧
         round_nearest_even (shr_m mrs) (loc_of_shr_record mrs) = IEEE.rnd m k.
Proof.
  intros Hm Hk. destruct k as [|n|n]; [| |lia].
  - eexists. split; [rewrite Z.add_0_r; reflexivity|]. rewrite rnd_0. reflexivity.
  - eexists. split; [reflexivity|].
    rewrite iter_pos_iter, shr_iter by assumption.
    unfold IEEE.rnd, IEEE.round_up. cbn [shr_m].
    pose proof (mod_pow2_succ m (Z.pos n - 1) ltac:(lia)) as Hmod.
    replace (Z.pos n - 1 + 1) with (Z.pos n) in Hmod by lia. rewrite Hmod.
    assert (Hpow : 2 ^ Z.pos n = 2 ^ (Z.pos n - 1) * 2).
    { rewrite <- (Z.pow_1_r 2) at 3. rewrite <- Z.pow_add_r by lia. f_equal. lia. }
    assert (0 ≤ m mod 2 ^ (Z.pos n - 1) < 2 ^ (Z.pos n - 1))
      by (apply Z.mod_pos_bound, Z.pow_pos_nonneg; lia).
    set (q := m / 2 ^ Z.pos n). rewrite Hpow.
    set (low := m mod 2 ^ (Z.pos n - 1)) in *.
    set (h := 2 ^ (Z.pos n - 1)) in *.
    destruct (Z.testbit m (Z.pos n - 1)); destruct (Z.eqb_spec low 0) as [Hl|Hl];
      cbn [negb loc_of_shr_record round_nearest_even].
    + rewrite Hl. replace (h * 2 <? 2 * (0 + h)) with false by (symmetry; apply Z.ltb_ge; lia).
      replace (2 * (0 + h) =? h * 2) with true by (symmetry; apply Z.eqb_eq; lia).
      rewrite <- Z.negb_odd. simpl. destruct (Z.odd q); simpl; lia.
    + replace (h * 2 <? 2 * (low + h)) with true by (symmetry; apply Z.ltb_lt; lia).
      simpl. lia.
    + rewrite Hl. replace (h * 2 <? 2 * (0 + 0)) with false by (symmetry; apply Z.ltb_ge; lia).
      replace (2 * (0 + 0) =? h * 2) with false by (symmetry; apply Z.eqb_neq; lia).
      simpl. lia.
    + replace (h * 2 <? 2 * (low + 0)) with false by (symmetry; apply Z.ltb_ge; lia).
      replace (2 * (low + 0) =? h * 2) with false by (symmetry; apply Z.eqb_neq; lia).
      simpl. lia.
Qed.

Lemma rnd_bounds (m k lo hi : Z) :
  0 ≤ k → lo * 2 ^ k ≤ m < hi * 2 ^ k → lo ≤ IEEE.rnd m k ≤ hi.
Proof.
  intros Hk [Hlo Hhi]. assert (0 < 2 ^ k) by (apply Z.pow_pos_nonneg; lia).
  assert (lo ≤ m / 2 ^ k) by (apply Z.div_le_lower_bound; lia).
  assert (m / 2 ^ k < hi) by (apply Z.div_lt_upper_bound; lia).
  unfold IEEE.rnd. destruct (IEEE.round_up m k); lia.
Qed.

(** [binary_round_aux] on a mantissa with too many digits: the rounded
    mantissa is at most [2^53], has 53 digits or more above the smallest
    exponent, and is renormalised when it reaches [2^53]. *)
Lemma binary_round_aux_spec (s : bool) (mx : positive) (ex : Z) :
  let E := fexp 53 1024 (Zpos (digits2_pos mx) + ex) in
  ex ≤ E →
  let m2 := IEEE.rnd (Zpos mx) (E - ex) in
  0 ≤ m2 ≤ 2 ^ 53 ∧ (-1074 < E → 2 ^ 52 ≤ m2) ∧
  binary_round_aux 53 1024 s (Zpos mx) ex loc_Exact = IEEE.rounded s m2 E.
Proof.
  intros E Hex m2.
  pose proof (digits2_pos_bounds mx) as [Hlo Hhi].
  set (d := Zpos (digits2_pos mx)) in *.
  assert (HE : E = Z.max (d + ex - 53) (-1074)) by reflexivity.
  assert (Hpow : 0 < 2 ^ (E - ex)) by (apply Z.pow_pos_nonneg; lia).
  assert (Hm2 : 0 ≤ m2 ≤ 2 ^ 53).
  { apply rnd_bounds; [lia|]. split; [lia|].
    rewrite <- Z.pow_add_r by lia.
    eapply Z.lt_le_trans; [exact Hhi|]. apply Z.pow_le_mono_r; lia. }
  assert (Hnormal : -1074 < E → 2 ^ 52 ≤ m2).
  { intros Hn. apply (rnd_bounds _ _ _ (2 ^ 53 + 1)); [lia|]. split.
    - rewrite <- Z.pow_add_r by lia.
      eapply Z.le_trans; [|exact Hlo]. apply Z.pow_le_mono_r; lia.
    - eapply Z.lt_le_trans; [exact Hhi|].
      replace d with (53 + (E - ex)) by lia. rewrite Z.pow_add_r by lia. nia. }
  split; [exact Hm2|]. split; [exact Hnormal|].
  unfold binary_round_aux, shr_fexp. cbn [Zdigits2 shr_record_of_loc]. fold d. fold E.
  destruct (shr_round (Zpos mx) ex (E - ex)) as (mrs & -> & Hround); [lia|lia|].
  rewrite Hround. fold m2. replace (ex + (E - ex)) with E by lia.
  unfold IEEE.rounded.
  destruct (Z.eqb_spec m2 0) as [H0|H0].
  { rewrite H0. cbn [Zdigits2 shr_record_of_loc]. unfold shr.
    destruct (fexp 53 1024 (0 + E) - E) eqn:Hk; try reflexivity.
    unfold fexp, SpecFloat.emin in Hk. lia. }
  destruct (Z.eqb_spec m2 (2 ^ 53)) as [H53|H53].
  { rewrite H53. cbn [shr_record_of_loc].
    replace (fexp 53 1024 (Zdigits2 (2 ^ 53) + E) - E) with 1
      by (change (Zdigits2 (2 ^ 53)) with 54; unfold fexp, SpecFloat.emin; lia).
    reflexivity. }
  assert (Hd2 := Zdigits2_bounds m2 ltac:(lia)).
  assert (Zdigits2 m2 ≤ 53) by (apply Zdigits2_le; lia).
  assert (-1074 < E → 53 ≤ Zdigits2 m2).
  { intros Hn. apply Zdigits2_ge; [lia|]. apply Hnormal, Hn. }
  cbn [shr_record_of_loc].
  replace (fexp 53 1024 (Zdigits2 m2 + E) - E) with 0
    by (unfold fexp, SpecFloat.emin; lia).
  cbn [shr shr_m]. destruct m2 as [|p|p]; try lia. reflexivity.
Qed.

(** [binary_round] for any mantissa and exponent: a mantissa with too few
    digits is shifted left first, exactly. *)
Lemma binary_round_spec (s : bool) (mx : positive) (ex : Z) :
  let E := fexp 53 1024 (Zpos (digits2_pos mx) + ex) in
  let m2 := IEEE.rnd (Zpos mx * 2 ^ Z.max (ex - E) 0) (Z.max (E - ex) 0) in
  0 ≤ m2 ≤ 2 ^ 53 ∧ (-1074 < E → 2 ^ 52 ≤ m2) ∧
  binary_round 53 1024 s mx ex = IEEE.rounded s m2 E.
Proof.
  intros E m2. unfold binary_round, shl_align. fold E.
  assert (Hm2 : m2 = IEEE.rnd (Zpos mx * 2 ^ Z.max (ex - E) 0) (Z.max (E - ex) 0)) by reflexivity.
  clearbody m2.
  destruct (Z.le_gt_cases ex E) as [Hle|Hgt].
  - pose proof (binary_round_aux_spec s mx ex) as Haux. cbv zeta in Haux. fold E in Haux.
    replace (Z.max (ex - E) 0) with 0 in Hm2 by lia.
    replace (Z.max (E - ex) 0) with (E - ex) in Hm2 by lia.
    rewrite Z.pow_0_r, Z.mul_1_r in Hm2. rewrite <- Hm2 in Haux.
    destruct (E - ex) as [|p|p] eqn:Hk; [apply Haux, Hle|apply Haux, Hle|lia].
  - destruct (E - ex) as [|p|p] eqn:Hk; [lia|lia|].
    pose proof (binary_round_aux_spec s (Pos.iter xO mx p) E) as Haux. cbv zeta in Haux.
    rewrite digits2_pos_shift in Haux.
    replace (Z.pos (digits2_pos mx + p) + E) with (Zpos (digits2_pos mx) + ex) in Haux by lia.
    fold E in Haux. rewrite Z.sub_diag, rnd_0, pos_shift_value in Haux.
    replace (Z.max (ex - E) 0) with (Z.pos p) in Hm2 by lia.
    replace (Z.max (Z.neg p) 0) with 0 in Hm2 by lia. rewrite rnd_0 in Hm2.
    rewrite Hm2, pos_shift_value. apply Haux. lia.
Qed.

(** What rounding builds is a datum of the format. *)
Lemma rounded_valid (s : bool) (m2 E : Z) :
  0 ≤ m2 ≤ 2 ^ 53 → (-1074 < E → 2 ^ 52 ≤ m2) → -1074 ≤ E →
  valid_binary 53 1024 (IEEE.rounded s m2 E) = true.
Proof.
  intros Hm2 Hnormal HE. unfold IEEE.rounded.
  destruct (Z.eqb_spec m2 0); [reflexivity|].
  destruct (Z.eqb_spec m2 (2 ^ 53)).
  { destruct (Z.leb_spec (E + 1) 971); [|reflexivity].
    unfold valid_binary, bounded, canonical_mantissa.
    change (Z.pos (digits2_pos (Z.to_pos (2 ^ 52)))) with 53.
    apply andb_true_iff. split; [apply Z.eqb_eq|apply Z.leb_le]; unfold fexp, SpecFloat.emin; lia. }
  destruct (Z.leb_spec E 971); [|reflexivity].
  assert (Hd2 := Zdigits2_bounds m2 ltac:(lia)).
  assert (Zdigits2 m2 ≤ 53) by (apply Zdigits2_le; lia).
  assert (-1074 < E → 53 ≤ Zdigits2 m2).
  { intros Hn. apply Zdigits2_ge; [lia|]. apply Hnormal, Hn. }
  destruct m2 as [|p|p]; try lia. cbn [Z.to_pos Zdigits2] in *.
  unfold valid_binary, bounded, canonical_mantissa.
  apply andb_true_iff. split; [apply Z.eqb_eq|apply Z.leb_le]; unfold fexp, SpecFloat.emin; lia.
Qed.

Lemma binary_round_valid (s : bool) (mx : positive) (ex : Z) :
  valid_binary 53 1024 (binary_round 53 1024 s mx ex) = true.
Proof.
  destruct (binary_round_spec s mx ex) as (Hm2 & Hnormal & ->).
  apply rounded_valid; [exact Hm2|exact Hnormal|]. unfold fexp, SpecFloat.emin. lia.
Qed.

Lemma key_rounded (s : bool) (m2 E : Z) :
  0 ≤ m2 ≤ 2 ^ 53 → (-1074 < E → 2 ^ 52 ≤ m2) → -1074 ≤ E →
  IEEE.key (IEEE.rounded s m2 E) = cond_Zopp s (IEEE.clamp (m2 * 2 ^ (E + 1074))).
Proof.
  intros Hm2 Hnormal HE. unfold IEEE.rounded, IEEE.clamp.
  assert (Hp : 0 < 2 ^ (E + 1074)) by (apply Z.pow_pos_nonneg; lia).
  destruct (Z.eqb_spec m2 0) as [->|H0].
  { simpl. destruct s; reflexivity. }
  destruct (Z.eqb_spec m2 (2 ^ 53)) as [->|H53].
  { rewrite <- Z.pow_add_r by lia.
    destruct (Z.leb_spec (E + 1) 971).
    - cbn [IEEE.key]. rewrite Z2Pos.id by lia. rewrite <- Z.pow_add_r by lia. f_equal.
      assert (2 ^ (53 + (E + 1074)) < 2 ^ 2098) by (apply Z.pow_lt_mono_r; lia).
      destruct (Z.ltb_spec (2 ^ (53 + (E + 1074))) (2 ^ 2098)); [f_equal; lia|lia].
    - cbn [IEEE.key]. f_equal.
      assert (2 ^ 2098 ≤ 2 ^ (53 + (E + 1074))) by (apply Z.pow_le_mono_r; lia).
      destruct (Z.ltb_spec (2 ^ (53 + (E + 1074))) (2 ^ 2098)); [lia|reflexivity]. }
  destruct (Z.leb_spec E 971).
  - cbn [IEEE.key]. rewrite Z2Pos.id by lia. f_equal.
    assert (2 ^ 53 * 2 ^ (E + 1074) ≤ 2 ^ 2098).
    { rewrite <- Z.pow_add_r by lia. apply Z.pow_le_mono_r; lia. }
    destruct (Z.ltb_spec (m2 * 2 ^ (E + 1074)) (2 ^ 2098)); [reflexivity|nia].
  - cbn [IEEE.key]. f_equal.
    assert (2 ^ 2098 ≤ 2 ^ 52 * 2 ^ (E + 1074)).
    { rewrite <- Z.pow_add_r by lia. apply Z.pow_le_mono_r; lia. }
    specialize (Hnormal ltac:(lia)).
    destruct (Z.ltb_spec (m2 * 2 ^ (E + 1074)) (2 ^ 2098)); [nia|reflexivity].
Qed.

Lemma round_up_scale (m k t : Z) :
  0 ≤ k → 0 ≤ t → IEEE.round_up (m * 2 ^ t) (k + t) = IEEE.round_up m k.
Proof.
  intros Hk Ht. unfold IEEE.round_up.
  assert (0 < 2 ^ t) by (apply Z.pow_pos_nonneg; lia).
  assert (0 < 2 ^ k) by (apply Z.pow_pos_nonneg; lia).
  rewrite Z.pow_add_r by lia.
  rewrite Z.mul_mod_distr_r by lia. rewrite Z.div_mul_cancel_r by lia.
  f_equal; [|f_equal].
  - destruct (Z.ltb_spec (2 ^ k * 2 ^ t) (2 * (m mod 2 ^ k * 2 ^ t)));
      destruct (Z.ltb_spec (2 ^ k) (2 * (m mod 2 ^ k))); try reflexivity; nia.
  - destruct (Z.eqb_spec (2 * (m mod 2 ^ k * 2 ^ t)) (2 ^ k * 2 ^ t));
      destruct (Z.eqb_spec (2 * (m mod 2 ^ k)) (2 ^ k)); try reflexivity; nia.
Qed.

Lemma rnd_scale (m k t : Z) :
  0 ≤ k → 0 ≤ t → IEEE.rnd (m * 2 ^ t) (k + t) = IEEE.rnd m k.
Proof.
  intros Hk Ht. unfold IEEE.rnd. rewrite round_up_scale by assumption.
  assert (0 < 2 ^ t) by (apply Z.pow_pos_nonneg; lia).
  assert (0 < 2 ^ k) by (apply Z.pow_pos_nonneg; lia).
  rewrite Z.pow_add_r by lia. rewrite Z.div_mul_cancel_r by lia. reflexivity.
Qed.

Lemma Zdigits2_shift (m : positive) (t : Z) :
  0 ≤ t → Zdigits2 (Zpos m * 2 ^ t) = Zpos (digits2_pos m) + t.
Proof.
  intros Ht. pose proof (digits2_pos_bounds m) as [Hlo Hhi].
  assert (0 < 2 ^ t) by (apply Z.pow_pos_nonneg; lia).
  apply Z.le_antisymm.
  - apply Zdigits2_le; [nia|lia|]. rewrite Z.pow_add_r by lia. nia.
  - apply Zdigits2_ge; [nia|].
    replace (Z.pos (digits2_pos m) + t - 1) with (Z.pos (digits2_pos m) - 1 + t) by lia.
    rewrite Z.pow_add_r by lia. nia.
Qed.

(** Rounding the exact number [m * 2^e], [e] at least the smallest
    exponent, in terms of the integer it is in units of [2^-1074]. *)
Lemma key_binary_round (s : bool) (mx : positive) (ex : Z) :
  -1074 ≤ ex →
  IEEE.key (binary_round 53 1024 s mx ex) =
    cond_Zopp s (IEEE.clamp (IEEE.val (Zpos mx * 2 ^ (ex + 1074)))).
Proof.
  intros Hex. destruct (binary_round_spec s mx ex) as (Hm2 & Hnormal & ->).
  set (d := Z.pos (digits2_pos mx)) in *.
  set (E := fexp 53 1024 (d + ex)) in *.
  assert (HE : E = Z.max (d + ex - 53) (-1074)) by reflexivity.
  rewrite key_rounded by (try assumption; lia). do 2 f_equal.
  unfold IEEE.val. rewrite Zdigits2_shift by lia. fold d.
  replace (Z.max (d + (ex + 1074) - 53) 0) with (E + 1074) by lia. f_equal.
  destruct (Z.le_gt_cases ex E).
  - replace (Z.max (ex - E) 0) with 0 by lia. rewrite Z.pow_0_r, Z.mul_1_r.
    replace (Z.max (E - ex) 0) with (E - ex) by lia.
    replace (E + 1074) with ((E - ex) + (ex + 1074)) by lia.
    rewrite rnd_scale by lia. reflexivity.
  - replace (Z.max (ex - E) 0) with (ex - E) by lia.
    replace (Z.max (E - ex) 0) with 0 by lia. rewrite rnd_0.
    replace (ex + 1074) with ((ex - E) + (E + 1074)) by lia.
    rewrite Z.pow_add_r, Z.mul_assoc by lia.
    rewrite <- (Z.add_0_l (E + 1074)) at 2. rewrite rnd_scale, rnd_0 by lia. reflexivity.
Qed.

(** *** Rounding is monotone *)

Lemma Zdigits2_mono (N N' : Z) : 0 < N ≤ N' → Zdigits2 N ≤ Zdigits2 N'.
Proof.
  intros [HN Hle]. destruct (Zdigits2_bounds N' ltac:(lia)) as [[_ Hhi] Hd].
  apply Zdigits2_le; lia.
Qed.

(** [val N] lies between the multiples of [2^K] around [N], and between
    the powers of two around [N]. *)
Lemma val_bounds (N : Z) :
  0 < N →
  let D := Zdigits2 N in
  let K := Z.max (D - 53) 0 in
  N / 2 ^ K * 2 ^ K ≤ IEEE.val N ≤ (N / 2 ^ K + 1) * 2 ^ K ∧
  2 ^ (D - 1) ≤ N / 2 ^ K * 2 ^ K ∧ (N / 2 ^ K + 1) * 2 ^ K ≤ 2 ^ D.
Proof.
  intros HN D K. destruct (Zdigits2_bounds N HN) as [[Hlo Hhi] Hd]. fold D in Hlo, Hhi, Hd.
  assert (HK : 0 ≤ K ≤ D - 1) by lia.
  assert (HP : 0 < 2 ^ K) by (apply Z.pow_pos_nonneg; lia).
  assert (Hlo' : 2 ^ (D - 1) = 2 ^ (D - 1 - K) * 2 ^ K)
    by (rewrite <- Z.pow_add_r by lia; f_equal; lia).
  assert (Hhi' : 2 ^ D = 2 ^ (D - K) * 2 ^ K)
    by (rewrite <- Z.pow_add_r by lia; f_equal; lia).
  assert (2 ^ (D - 1 - K) ≤ N / 2 ^ K) by (apply Z.div_le_lower_bound; lia).
  assert (N / 2 ^ K < 2 ^ (D - K)) by (apply Z.div_lt_upper_bound; lia).
  unfold IEEE.val. fold D. fold K. unfold IEEE.rnd.
  split; [destruct (IEEE.round_up N K); nia|]. split; nia.
Qed.

(** Rounding to 53 bits is monotone: with the same number of digits the
    quotients or else the remainders are ordered, with fewer digits a
    power of two lies between the two results. *)
Lemma val_mono (N N' : Z) : 0 < N ≤ N' → IEEE.val N ≤ IEEE.val N'.
Proof.
  intros [HN Hle].
  pose proof (Zdigits2_mono N N' ltac:(lia)) as HD.
  pose proof (val_bounds N HN) as (Hv & Hlo & Hhi).
  pose proof (val_bounds N' ltac:(lia)) as (Hv' & Hlo' & Hhi').
  cbv zeta in *.
  destruct (Z.eq_dec (Zdigits2 N) (Zdigits2 N')) as [Heq|Hne].
  - rewrite <- Heq in *. set (K := Z.max (Zdigits2 N - 53) 0) in *.
    assert (HP : 0 < 2 ^ K) by (apply Z.pow_pos_nonneg; lia).
    assert (Hq : N / 2 ^ K ≤ N' / 2 ^ K) by (apply Z.div_le_mono; lia).
    destruct (Z.eq_dec (N / 2 ^ K) (N' / 2 ^ K)) as [Hqq|Hqq]; [|nia].
    unfold IEEE.val. rewrite <- Heq. fold K. unfold IEEE.rnd, IEEE.round_up. rewrite <- Hqq.
    pose proof (Z.div_mod N (2 ^ K) ltac:(lia)) as HN1.
    pose proof (Z.div_mod N' (2 ^ K) ltac:(lia)) as HN2.
    rewrite <- Hqq in HN2.
    assert (Hrem : N mod 2 ^ K ≤ N' mod 2 ^ K) by lia.
    apply Z.mul_le_mono_nonneg_r; [lia|]. apply Z.add_le_mono_l.
    destruct (Z.ltb_spec (2 ^ K) (2 * (N mod 2 ^ K)));
      destruct (Z.ltb_spec (2 ^ K) (2 * (N' mod 2 ^ K)));
      destruct (Z.eqb_spec (2 * (N mod 2 ^ K)) (2 ^ K));
      destruct (Z.eqb_spec (2 * (N' mod 2 ^ K)) (2 ^ K));
      destruct (Z.odd (N / 2 ^ K)); simpl; lia.
  - assert (2 ^ Zdigits2 N ≤ 2 ^ (Zdigits2 N' - 1)) by (apply Z.pow_le_mono_r; lia).
    lia.
Qed.

Lemma val_pos (N : Z) : 0 < N → 0 < IEEE.val N.
Proof.
  intros HN. pose proof (val_bounds N HN) as (Hv & Hlo & _). cbv zeta in *.
  destruct (Zdigits2_bounds N HN) as [_ Hd].
  assert (0 < 2 ^ (Zdigits2 N - 1)) by (apply Z.pow_pos_nonneg; lia). lia.
Qed.

Lemma clamp_mono (a b : Z) : a ≤ b → IEEE.clamp a ≤ IEEE.clamp b.
Proof.
  intros Hab. unfold IEEE.clamp.
  assert (2 ^ 2098 < 2 ^ 2200) by (apply Z.pow_lt_mono_r; lia).
  destruct (Z.ltb_spec a (2 ^ 2098)); destruct (Z.ltb_spec b (2 ^ 2098)); lia.
Qed.

Lemma clamp_pos (a : Z) : 0 < a → 0 < IEEE.clamp a.
Proof.
  intros Ha. unfold IEEE.clamp. assert (0 < 2 ^ 2200) by (apply Z.pow_pos_nonneg; lia).
  destruct (a <? 2 ^ 2098); lia.
Qed.

Lemma round_key_mono (S S' : Z) : S ≤ S' → IEEE.round_key S ≤ IEEE.round_key S'.
Proof.
  intros Hle. unfold IEEE.round_key.
  destruct (Z.lt_trichotomy S 0) as [Hs|[Hs|Hs]];
    destruct (Z.lt_trichotomy S' 0) as [Hs'|[Hs'|Hs']]; try lia.
  - rewrite !Z.sgn_neg by lia.
    pose proof (clamp_mono _ _ (val_mono (Z.abs S') (Z.abs S) ltac:(lia))). lia.
  - rewrite Z.sgn_neg by lia. subst S'. change (Z.sgn 0) with 0.
    pose proof (clamp_pos _ (val_pos (Z.abs S) ltac:(lia))). lia.
  - rewrite Z.sgn_neg, Z.sgn_pos by lia.
    pose proof (clamp_pos _ (val_pos (Z.abs S) ltac:(lia))).
    pose proof (clamp_pos _ (val_pos (Z.abs S') ltac:(lia))). lia.
  - subst S. change (Z.sgn 0) with 0. rewrite Z.sgn_pos by lia.
    pose proof (clamp_pos _ (val_pos (Z.abs S') ltac:(lia))). lia.
  - rewrite !Z.sgn_pos by lia.
    pose proof (clamp_mono _ _ (val_mono (Z.abs S) (Z.abs S') ltac:(lia))). lia.
Qed.

(** *** Doubles and the integers they stand for *)

(** A finite double has at most 53 digits, exactly 53 above the smallest
    exponent. *)
Lemma bounded_inv (m : positive) (e : Z) :
  bounded 53 1024 m e = true →
  -1074 ≤ e ≤ 971 ∧ Zpos (digits2_pos m) ≤ 53 ∧ (-1074 < e → Zpos (digits2_pos m) = 53).
Proof.
  unfold bounded, canonical_mantissa. intros Hb.
  apply andb_true_iff in Hb as [Hcan%Z.eqb_eq He%Z.leb_le].
  unfold fexp, SpecFloat.emin in Hcan. lia.
Qed.

Lemma mag_bounds (m : positive) (e : Z) :
  bounded 53 1024 m e = true → 0 < Zpos m * 2 ^ (e + 1074) < 2 ^ 2098.
Proof.
  intros Hb. destruct (bounded_inv m e Hb) as (He & Hd & _).
  pose proof (digits2_pos_bounds m) as [_ Hhi].
  assert (0 < 2 ^ (e + 1074)) by (apply Z.pow_pos_nonneg; lia).
  assert (2 ^ Zpos (digits2_pos m) ≤ 2 ^ 53) by (apply Z.pow_le_mono_r; lia).
  assert (2 ^ 53 * 2 ^ (e + 1074) ≤ 2 ^ 2098).
  { rewrite <- Z.pow_add_r by lia. apply Z.pow_le_mono_r; lia. }
  split; nia.
Qed.

Lemma mag_lt_of_exponent (m1 m2 : positive) (e1 e2 : Z) :
  bounded 53 1024 m1 e1 = true → bounded 53 1024 m2 e2 = true → e1 < e2 →
  Zpos m1 * 2 ^ (e1 + 1074) < Zpos m2 * 2 ^ (e2 + 1074).
Proof.
  intros Hb1 Hb2 Hlt.
  destruct (bounded_inv m1 e1 Hb1) as (He1 & Hd1 & _).
  destruct (bounded_inv m2 e2 Hb2) as (He2 & _ & Hd2).
  pose proof (digits2_pos_bounds m1) as [_ Hhi].
  pose proof (digits2_pos_bounds m2) as [Hlo _]. rewrite Hd2 in Hlo by lia.
  assert (2 ^ Zpos (digits2_pos m1) ≤ 2 ^ 53) by (apply Z.pow_le_mono_r; lia).
  assert (0 < 2 ^ (e1 + 1074)) by (apply Z.pow_pos_nonneg; lia).
  assert (2 * 2 ^ (e1 + 1074) ≤ 2 ^ (e2 + 1074)).
  { rewrite <- Z.pow_succ_r by lia. apply Z.pow_le_mono_r; lia. }
  change (2 ^ (53 - 1)) with (2 ^ 52) in Hlo. change (2 ^ 53) with (2 * 2 ^ 52) in *.
  nia.
Qed.

(** Comparing exponents first and mantissas next compares the numbers. *)
Lemma mag_compare (m1 m2 : positive) (e1 e2 : Z) :
  bounded 53 1024 m1 e1 = true → bounded 53 1024 m2 e2 = true →
  (Zpos m1 * 2 ^ (e1 + 1074) ?= Zpos m2 * 2 ^ (e2 + 1074)) =
    match e1 ?= e2 with
    | Lt => Lt
    | Gt => Gt
    | Eq => Pos.compare_cont Eq m1 m2
    end.
Proof.
  intros Hb1 Hb2. destruct (Z.compare_spec e1 e2) as [->|Hlt|Hgt].
  - destruct (bounded_inv m2 e2 Hb2) as (He2 & _).
    assert (0 < 2 ^ (e2 + 1074)) by (apply Z.pow_pos_nonneg; lia).
    rewrite <- Zmult_compare_compat_r by lia. reflexivity.
  - apply Z.compare_lt_iff. apply mag_lt_of_exponent; assumption.
  - apply Z.compare_gt_iff. apply mag_lt_of_exponent; assumption.
Qed.

(** [SFcompare] on doubles is the comparison of the integers they stand
    for. *)
Lemma SFcompare_key (x y : spec_float) :
  valid_binary 53 1024 x = true → valid_binary 53 1024 y = true →
  x ≠ S754_nan → y ≠ S754_nan →
  SFcompare x y = Some (IEEE.key x ?= IEEE.key y).
Proof.
  assert (Hinf : 0 < 2 ^ 2098 < 2 ^ 2200)
    by (split; [apply Z.pow_pos_nonneg|apply Z.pow_lt_mono_r]; lia).
  intros Hx Hy Hnx Hny.
  destruct x as [sx|sx| |sx mx ex]; [| |congruence|];
    destruct y as [sy|sy| |sy my ey]; try congruence;
    cbn [valid_binary] in Hx, Hy;
    try pose proof (mag_bounds mx ex Hx); try pose proof (mag_bounds my ey Hy);
    cbn [SFcompare IEEE.key]; f_equal; symmetry;
    destruct sx, sy; cbn [cond_Zopp];
    try first [apply Z.compare_eq_iff; lia|apply Z.compare_lt_iff; lia
              |apply Z.compare_gt_iff; lia].
  - rewrite Z.compare_opp, Z.compare_antisym, (mag_compare mx my ex ey Hx Hy).
    destruct (ex ?= ey); reflexivity.
  - apply (mag_compare mx my ex ey Hx Hy).
Qed.

(** *** Addition *)

(** A double is its own rounding. *)
Lemma val_exact (m : positive) (e : Z) :
  bounded 53 1024 m e = true →
  IEEE.val (Zpos m * 2 ^ (e + 1074)) = Zpos m * 2 ^ (e + 1074).
Proof.
  intros Hb. destruct (bounded_inv m e Hb) as (He & Hd & Hn).
  unfold IEEE.val. rewrite Zdigits2_shift by lia.
  replace (Z.max (Z.pos (digits2_pos m) + (e + 1074) - 53) 0) with (e + 1074) by lia.
  rewrite <- (Z.add_0_l (e + 1074)) at 2. rewrite rnd_scale, rnd_0 by lia. reflexivity.
Qed.

Lemma round_key_exact (x : spec_float) :
  valid_binary 53 1024 x = true → (∀ s, x ≠ S754_infinity s) →
  IEEE.round_key (IEEE.key x) = IEEE.key x.
Proof.
  intros Hx Hfin. destruct x as [s|s| |s m e]; try reflexivity.
  { destruct (Hfin s). reflexivity. }
  cbn [valid_binary] in Hx. pose proof (mag_bounds m e Hx) as Hmag.
  unfold IEEE.round_key. cbn [IEEE.key].
  assert (Habs : Z.abs (cond_Zopp s (Z.pos m * 2 ^ (e + 1074))) = Z.pos m * 2 ^ (e + 1074))
    by (destruct s; simpl cond_Zopp; lia).
  rewrite Habs, (val_exact m e Hx). unfold IEEE.clamp.
  destruct (Z.ltb_spec (Z.pos m * 2 ^ (e + 1074)) (2 ^ 2098)); [|lia].
  destruct s; cbn [cond_Zopp]; [rewrite Z.sgn_neg by lia|rewrite Z.sgn_pos by lia]; lia.
Qed.

Lemma round_key_overflow (S : Z) :
  2 ^ 2199 ≤ Z.abs S → IEEE.round_key S = Z.sgn S * 2 ^ 2200.
Proof.
  intros HS. assert (Hp : 0 < 2 ^ 2199) by (apply Z.pow_pos_nonneg; lia).
  pose proof (val_bounds (Z.abs S) ltac:(lia)) as (Hv & Hlo & _). cbv zeta in *.
  assert (2200 ≤ Zdigits2 (Z.abs S)) by (apply Zdigits2_ge; [lia|exact HS]).
  assert (2 ^ 2098 ≤ 2 ^ (Zdigits2 (Z.abs S) - 1)) by (apply Z.pow_le_mono_r; lia).
  unfold IEEE.round_key, IEEE.clamp.
  destruct (Z.ltb_spec (IEEE.val (Z.abs S)) (2 ^ 2098)); [lia|reflexivity].
Qed.

Lemma shl_align_value (m : positive) (e e' : Z) :
  e' ≤ e → Zpos (fst (shl_align m e e')) = Zpos m * 2 ^ (e - e').
Proof.
  intros Hle. unfold shl_align. destruct (e' - e) as [|p|p] eqn:Hk; try lia.
  - replace (e - e') with 0 by lia. simpl fst. lia.
  - simpl fst. rewrite pos_shift_value. f_equal. f_equal. lia.
Qed.

(** [binary_normalize], the rounding step of [SFadd]. *)
Lemma key_binary_normalize (M ez : Z) :
  -1074 ≤ ez →
  valid_binary 53 1024 (binary_normalize 53 1024 M ez false) = true ∧
  binary_normalize 53 1024 M ez false ≠ S754_nan ∧
  IEEE.key (binary_normalize 53 1024 M ez false) = IEEE.round_key (M * 2 ^ (ez + 1074)).
Proof.
  intros Hez. assert (Hp : 0 < 2 ^ (ez + 1074)) by (apply Z.pow_pos_nonneg; lia).
  destruct M as [|p|p]; cbn [binary_normalize].
  - split; [reflexivity|]. split; [discriminate|reflexivity].
  - split; [apply binary_round_valid|]. split.
    { destruct (binary_round_spec false p ez) as (_ & _ & ->). unfold IEEE.rounded.
      repeat match goal with |- context [if ?b then _ else _] => destruct b end;
        discriminate. }
    rewrite key_binary_round by assumption. unfold IEEE.round_key.
    rewrite Z.sgn_pos, Z.abs_eq by lia. cbn [cond_Zopp]. lia.
  - split; [apply binary_round_valid|]. split.
    { destruct (binary_round_spec true p ez) as (_ & _ & ->). unfold IEEE.rounded.
      repeat match goal with |- context [if ?b then _ else _] => destruct b end;
        discriminate. }
    rewrite key_binary_round by assumption. unfold IEEE.round_key.
    rewrite Z.sgn_neg by lia. cbn [cond_Zopp].
    replace (Z.abs (Z.neg p * 2 ^ (ez + 1074))) with (Z.pos p * 2 ^ (ez + 1074)) by lia.
    lia.
Qed.

(** The sum of two doubles is the double nearest to the exact sum, unless
    it is a NaN. *)
Lemma SFadd_key (x y : spec_float) :
  valid_binary 53 1024 x = true → valid_binary 53 1024 y = true →
  x ≠ S754_nan → y ≠ S754_nan → SFadd 53 1024 x y ≠ S754_nan →
  IEEE.key (SFadd 53 1024 x y) = IEEE.round_key (IEEE.key x + IEEE.key y).
Proof.
  assert (Hinf : 0 < 2 ^ 2098 ∧ 2 * 2 ^ 2098 ≤ 2 ^ 2199 ∧ 2 * 2 ^ 2199 = 2 ^ 2200).
  { split; [apply Z.pow_pos_nonneg; lia|]. split.
    - rewrite <- Z.pow_succ_r by lia. apply Z.pow_le_mono_r; lia.
    - rewrite <- Z.pow_succ_r by lia. reflexivity. }
  intros Hx Hy Hnx Hny Hsum.
  destruct x as [sx|sx| |sx mx ex]; [| |congruence|];
    destruct y as [sy|sy| |sy my ey]; try congruence;
    cbn [valid_binary] in Hx, Hy;
    try pose proof (mag_bounds mx ex Hx); try pose proof (mag_bounds my ey Hy).
  - destruct sx, sy; reflexivity.
  - cbn [SFadd IEEE.key]. rewrite round_key_overflow by (destruct sy; simpl; lia).
    destruct sy; cbn [cond_Zopp]; [rewrite Z.sgn_neg by lia|rewrite Z.sgn_pos by lia]; lia.
  - cbn [SFadd]. rewrite Z.add_0_l. symmetry. apply round_key_exact; [exact Hy|discriminate].
  - cbn [SFadd IEEE.key]. rewrite round_key_overflow by (destruct sx; simpl; lia).
    destruct sx; cbn [cond_Zopp]; [rewrite Z.sgn_neg by lia|rewrite Z.sgn_pos by lia]; lia.
  - destruct sx, sy; cbn [SFadd IEEE.key cond_Zopp] in *; try congruence.
    + rewrite round_key_overflow by lia. rewrite Z.sgn_neg by lia. lia.
    + rewrite round_key_overflow by lia. rewrite Z.sgn_pos by lia. lia.
  - cbn [SFadd IEEE.key]. rewrite round_key_overflow by (destruct sx, sy; simpl; lia).
    destruct sx, sy; cbn [cond_Zopp];
      first [rewrite Z.sgn_neg by lia|rewrite Z.sgn_pos by lia]; lia.
  - cbn [SFadd]. rewrite Z.add_0_r. symmetry. apply round_key_exact; [exact Hx|discriminate].
  - cbn [SFadd IEEE.key]. rewrite round_key_overflow by (destruct sx, sy; simpl; lia).
    destruct sx, sy; cbn [cond_Zopp];
      first [rewrite Z.sgn_neg by lia|rewrite Z.sgn_pos by lia]; lia.
  - destruct (bounded_inv mx ex Hx) as (Hex & _). destruct (bounded_inv my ey Hy) as (Hey & _).
    cbn [SFadd]. cbv zeta.
    destruct (key_binary_normalize
                (cond_Zopp sx (Zpos (fst (shl_align mx ex (Z.min ex ey)))) +
                 cond_Zopp sy (Zpos (fst (shl_align my ey (Z.min ex ey)))))
                (Z.min ex ey)) as (_ & _ & ->); [lia|].
    rewrite !shl_align_value by lia. f_equal. cbn [IEEE.key].
    assert (Hx2 : 2 ^ (ex + 1074) = 2 ^ (ex - Z.min ex ey) * 2 ^ (Z.min ex ey + 1074))
      by (rewrite <- Z.pow_add_r by lia; f_equal; lia).
    assert (Hy2 : 2 ^ (ey + 1074) = 2 ^ (ey - Z.min ex ey) * 2 ^ (Z.min ex ey + 1074))
      by (rewrite <- Z.pow_add_r by lia; f_equal; lia).
    rewrite Hx2, Hy2. destruct sx, sy; cbn [cond_Zopp]; ring.
Qed.

(** A sum of doubles is a double. *)
Lemma SFadd_valid (x y : spec_float) :
  valid_binary 53 1024 x = true → valid_binary 53 1024 y = true →
  valid_binary 53 1024 (SFadd 53 1024 x y) = true.
Proof.
  intros Hx Hy.
  destruct x as [sx|sx| |sx mx ex]; destruct y as [sy|sy| |sy my ey];
    try reflexivity; try assumption; try (destruct sx, sy; reflexivity).
  destruct (bounded_inv mx ex Hx) as (Hex & _). destruct (bounded_inv my ey Hy) as (Hey & _).
  cbn [SFadd]. cbv zeta. apply key_binary_normalize. lia.
Qed.

Lemma SFltb_key (x y : spec_float) :
  IEEE.valid_number x → IEEE.valid_number y → SFltb x y = (IEEE.key x <? IEEE.key y).
Proof.
  intros [Hx Hnx] [Hy Hny]. unfold SFltb. rewrite (SFcompare_key x y Hx Hy Hnx Hny).
  unfold Z.ltb. destruct (IEEE.key x ?= IEEE.key y); reflexivity.
Qed.

Lemma SFleb_key (x y : spec_float) :
  IEEE.valid_number x → IEEE.valid_number y → SFleb x y = (IEEE.key x <=? IEEE.key y).
Proof.
  intros [Hx Hnx] [Hy Hny]. unfold SFleb. rewrite (SFcompare_key x y Hx Hy Hnx Hny).
  unfold Z.leb. destruct (IEEE.key x ?= IEEE.key y); reflexivity.
Qed.

Lemma nan_or_not (x : spec_float) : x = S754_nan ∨ x ≠ S754_nan.
Proof. destruct x; [right|right|left|right]; congruence. Qed.

Lemma SFltb_nan_l (y : spec_float) : SFltb S754_nan y = false.
Proof. reflexivity. Qed.

Lemma SFltb_nan_r (x : spec_float) : SFltb x S754_nan = false.
Proof. destruct x; reflexivity. Qed.

Lemma SFltb_number (x y : spec_float) :
  SFltb x y = true → x ≠ S754_nan ∧ y ≠ S754_nan.
Proof.
  intros H. split; intros ->; [rewrite SFltb_nan_l in H|rewrite SFltb_nan_r in H];
    discriminate.
Qed.

(** [<] is asymmetric, on all data. *)
Lemma SFltb_asym (x y : spec_float) : SFltb x y = true → SFltb y x = false.
Proof.
  unfold SFltb.
  destruct x as [sx|sx| |sx mx ex]; destruct y as [sy|sy| |sy my ey]; cbn [SFcompare];
    try discriminate; try reflexivity;
    try (destruct sx; try discriminate; try reflexivity);
    try (destruct sy; try discriminate; try reflexivity).
  all: rewrite (Z.compare_antisym ex ey);
    replace (Pos.compare_cont Eq my mx) with (CompOpp (Pos.compare_cont Eq mx my))
      by (rewrite Pos.compare_cont_antisym; reflexivity);
    destruct (ex ?= ey); cbn [CompOpp]; try discriminate; try reflexivity;
    destruct (Pos.compare_cont Eq mx my); cbn [CompOpp]; try discriminate; reflexivity.
Qed.

(** [≤] is transitive through a number. *)
Lemma SFltb_cotrans (a b c : spec_float) :
  IEEE.valid_double a → IEEE.valid_number b → IEEE.valid_double c →
  SFltb b a = false → SFltb c b = false → SFltb c a = false.
Proof.
  intros Ha Hb Hc Hab Hbc.
  destruct (nan_or_not (a)) as [->|Hna]; [apply SFltb_nan_r|].
  destruct (nan_or_not (c)) as [->|Hnc]; [apply SFltb_nan_l|].
  rewrite SFltb_key in * by (split; assumption || apply Hb).
  apply Z.ltb_ge in Hab, Hbc. apply Z.ltb_ge. lia.
Qed.

Lemma key_range (x : spec_float) : IEEE.valid_double x → - 2 ^ 2200 ≤ IEEE.key x ≤ 2 ^ 2200.
Proof.
  assert (Hinf : 0 < 2 ^ 2098 < 2 ^ 2200)
    by (split; [apply Z.pow_pos_nonneg|apply Z.pow_lt_mono_r]; lia).
  intros Hx. destruct x as [s|s| |s m e]; cbn [IEEE.key]; try lia.
  - destruct s; simpl; lia.
  - pose proof (mag_bounds m e Hx). destruct s; simpl; lia.
Qed.

(** Adding the same double on the left keeps the order, as far as the
    sums are numbers; a sum that is a NaN is not above anything. *)
Lemma SFadd_mono (v t x d : spec_float) :
  IEEE.valid_double v → IEEE.valid_double t → IEEE.valid_number x → IEEE.valid_double d →
  SFltb x t = false → SFltb d (SFadd 53 1024 v x) = false →
  SFltb d (SFadd 53 1024 v t) = false.
Proof.
  intros Hv Ht [Hx Hnx] Hd Htx Hsum.
  destruct (nan_or_not (d)) as [->|Hnd]; [reflexivity|].
  destruct (nan_or_not (SFadd 53 1024 v t)) as [->|Hnvt]; [apply SFltb_nan_r|].
  assert (Hnv : v ≠ S754_nan) by (intros ->; apply Hnvt; reflexivity).
  assert (Hnt : t ≠ S754_nan) by (intros ->; apply Hnvt; destruct v; reflexivity).
  rewrite SFltb_key in Htx by (split; assumption). apply Z.ltb_ge in Htx.
  rewrite SFltb_key by (split; first [assumption|apply SFadd_valid; assumption]).
  apply Z.ltb_ge. rewrite (SFadd_key v t) by assumption.
  destruct (nan_or_not (SFadd 53 1024 v x)) as [Hnan|Hnvx].
  - (* [v] and [x] are opposite infinities *)
    assert (Hinf : 0 < 2 ^ 2098 ∧ 2 * 2 ^ 2098 ≤ 2 ^ 2199 ∧ 2 * 2 ^ 2199 = 2 ^ 2200).
    { split; [apply Z.pow_pos_nonneg; lia|]. split.
      - rewrite <- Z.pow_succ_r by lia. apply Z.pow_le_mono_r; lia.
      - rewrite <- Z.pow_succ_r by lia. reflexivity. }
    pose proof (key_range d Hd) as Hkd.
    assert (Hopp : (v = S754_infinity true ∧ x = S754_infinity false) ∨
                   (v = S754_infinity false ∧ x = S754_infinity true)).
    { destruct v as [sv|sv| |sv mv ev]; [| |congruence|];
        destruct x as [sx|sx| |sx mx ex]; try congruence;
        try (cbn [SFadd] in Hnan; destruct sv, sx; discriminate).
      - destruct sv, sx; try (cbn [SFadd] in Hnan; discriminate); auto.
      - exfalso. revert Hnan. cbn [SFadd]. cbv zeta.
        destruct (bounded_inv mv ev Hv) as (Hev & _).
        destruct (bounded_inv mx ex Hx) as (Hex & _).
        apply key_binary_normalize. lia. }
    destruct Hopp as [[-> ->]|[-> ->]]; cbn [IEEE.key cond_Zopp] in *.
    + destruct t as [st|st| |st mt et]; [| |congruence|].
      * rewrite round_key_overflow by (simpl; lia). rewrite Z.sgn_neg by (simpl; lia). lia.
      * destruct st; [|exfalso; apply Hnvt; reflexivity].
        rewrite round_key_overflow by (simpl; lia). rewrite Z.sgn_neg by (simpl; lia). lia.
      * pose proof (mag_bounds mt et Ht).
        rewrite round_key_overflow by (cbn [IEEE.key]; destruct st; simpl; lia).
        rewrite Z.sgn_neg by (cbn [IEEE.key]; destruct st; simpl; lia). lia.
    + exfalso. destruct t as [st|st| |st mt et]; [| |congruence|]; cbn [IEEE.key] in Htx.
      * lia.
      * destruct st; [apply Hnvt; reflexivity|]. simpl in Htx. lia.
      * pose proof (mag_bounds mt et Ht). destruct st; simpl in Htx; lia.
  - rewrite SFltb_key in Hsum
      by (split; first [assumption|apply SFadd_valid; assumption]).
    apply Z.ltb_ge in Hsum. rewrite (SFadd_key v x) in Hsum by assumption.
    pose proof (round_key_mono (IEEE.key v + IEEE.key t) (IEEE.key v + IEEE.key x) ltac:(lia)). lia.
Qed.

Lemma convert_valid (x : spec_float) : IEEE.valid_double (IEEE.convert 53 1024 x).
Proof. destruct x; try reflexivity. apply binary_round_valid. Qed.

Lemma valid_number_double (x : spec_float) : IEEE.valid_number x → IEEE.valid_double x.
Proof. intros [Hx _]. exact Hx. Qed.

Lemma valid_number_zero : IEEE.valid_number (S754_zero false).
Proof. split; [reflexivity|discriminate]. Qed.

Lemma SFltb_valid_number (a b : spec_float) :
  IEEE.valid_double a → SFltb b a = true → IEEE.valid_number a.
Proof. intros Ha Hlt. split; [exact Ha|]. apply (SFltb_number b a Hlt). Qed.

#[global] Instance ieee_laws : OrderLaws IEEE.arith :=
  @Build_OrderLaws IEEE.arith IEEE.valid_double IEEE.valid_number
    valid_number_double valid_number_zero convert_valid SFadd_valid
    SFltb_valid_number (λ a b, SFltb_asym b a) SFltb_cotrans SFadd_mono.

(** Between numbers, [a > b] false is [a ≤ b]. *)
Lemma not_gt_is_le (a b : spec_float) :
  IEEE.valid_number a → IEEE.valid_number b →
  @f64_gt IEEE.arith a b = false → SFleb a b = true.
Proof.
  intros Ha Hb Hgt. change (SFltb b a = false) in Hgt.
  rewrite SFltb_key in Hgt by assumption. rewrite SFleb_key by assumption.
  apply Z.ltb_ge in Hgt. apply Z.leb_le. exact Hgt.
Qed.

(** ** The scenarios of the specification *)

(** Scenario A: values 60, 100, 120, weights 10, 20, 30, capacity 50 give
    220. *)
Example scenario_a :
  result (knapsack (AR := IEEE.arith)
            [IEEE.double 60 0; IEEE.double 100 0; IEEE.double 120 0] [10; 20; 30] 50)
    = Some (IEEE.double 220 0).
Proof. vm_compute. reflexivity. Qed.

(** Scenario B: values 1, 2, 3, weights 1, 1, 1, capacity 2 give 5. *)
Example scenario_b :
  result (knapsack (AR := IEEE.arith)
            [IEEE.double 1 0; IEEE.double 2 0; IEEE.double 3 0] [1; 1; 1] 2)
    = Some (IEEE.double 5 0).
Proof. vm_compute. reflexivity. Qed.

(** In IEEE arithmetic too the result grows with the capacity and is not
    negative when a value is: scenario A at capacities 20 and 50, and the
    items (-5, 1), (3, 2) at capacity 2. *)
Example ieee_monotone_in_capacity :
  ∃ r1 r2,
    result (knapsack (AR := IEEE.arith)
              [IEEE.double 60 0; IEEE.double 100 0; IEEE.double 120 0] [10; 20; 30] 20)
      = Some r1 ∧
    result (knapsack (AR := IEEE.arith)
              [IEEE.double 60 0; IEEE.double 100 0; IEEE.double 120 0] [10; 20; 30] 50)
      = Some r2 ∧
    r1 = IEEE.double 100 0 ∧ r2 = IEEE.double 220 0 ∧
    f64_le (AR := IEEE.arith) r1 r2.
Proof.
  exists (IEEE.double 100 0), (IEEE.double 220 0).
  split; [vm_compute; reflexivity|]. split; [vm_compute; reflexivity|].
  split; [reflexivity|]. split; [reflexivity|]. vm_compute. reflexivity.
Qed.

Example ieee_negative_value_left_out :
  result (knapsack (AR := IEEE.arith) [IEEE.double (-5) 0; IEEE.double 3 0] [1; 2] 2)
    = Some (IEEE.double 3 0).
Proof. vm_compute. reflexivity. Qed.

(** A weight of [INT_MIN] is never rejected: [j - weight] wraps to a
    negative number, so the item is skipped in every column. *)
Example weight_int_min_is_skipped :
  result (knapsack (AR := IEEE.arith)
            [IEEE.double 5 0; IEEE.double 3 0] [INT_MIN; 1] 3)
    = Some (IEEE.double 3 0).
Proof. vm_compute. reflexivity. Qed.

(** Fewer values than weights is not rejected either, as long as the items
    without a value are too heavy to be looked at. *)
Example missing_value_not_read :
  result (knapsack (AR := IEEE.arith) [] [5] 3) = Some (S754_zero false).
Proof. vm_compute. reflexivity. Qed.

(** ** What the result is worth *)

Section Worth.
Context {AR : Arith}.

Lemma as_stored_fmap (values : list float64) :
  as_stored values = f64_of_f32 <$> (f32_of_f64 <$> values).
Proof. unfold as_stored. rewrite <- list_fmap_compose. reflexivity. Qed.

(** The bottom-right entry is the value of a selection that fits, zero
    weights or not. *)
Lemma last_entry_attained values weights capacity :
  (length weights ≤ length values)%nat → 0 ≤ capacity →
  ∃ sel,
    feasible sel weights capacity ∧
    total_value sel (as_stored values) =
      dp_entry (f32_of_f64 <$> values) weights (length weights) capacity.
Proof.
  intros Hlen Hc.
  destruct (dp_entry_attained (f32_of_f64 <$> values) weights (length weights) capacity)
    as (sel & Hls & Hsw & Hsv); [lia|rewrite length_fmap; lia|assumption|].
  exists sel. rewrite take_ge in Hsw by lia. split; [split; assumption|].
  rewrite <- Hsv, <- Hls, as_stored_fmap. symmetry. apply total_value_take.
Qed.

End Worth.

(** ** Which exception, and when *)

Section Exceptions.
Context {AR : Arith}.

Lemma bind_raises_inv {A B} (m : outcome A) (f : A → outcome B) e :
  (m ≫= f) = Raises e →
  m = Raises e ∨ ∃ a l, m = Returns a l ∧ f a = Raises e.
Proof.
  unfold mbind, outcome_mbind. destruct m as [a l|e']; simpl.
  - destruct (f a) as [b l'|e''] eqn:Hf; [discriminate|].
    intros [= ->]. right. exists a, l. split; [reflexivity|assumption].
  - intros [= ->]. left. reflexivity.
Qed.

Lemma position_raises b (n : nat) (i : Z) e :
  position b n i = Raises e → e = IndexError.
Proof. unfold position. destruct (_ && _); [discriminate|]. intros [= <-]. reflexivity. Qed.

Lemma index_raises {A} b (l : list A) (i : Z) e :
  index b l i = Raises e → e = IndexError.
Proof.
  unfold index. intros H. apply bind_raises_inv in H as [H|(k & log & _ & H)].
  - apply (position_raises _ _ _ _ H).
  - destruct (l !! k); [discriminate|]. injection H as <-. reflexivity.
Qed.

Lemma store_raises (dp : list (list float64)) (i j : Z) x e :
  store dp i j x = Raises e → e = IndexError.
Proof.
  unfold store. intros H. apply bind_raises_inv in H as [H|(ki & log & _ & H)].
  - apply (position_raises _ _ _ _ H).
  - destruct (dp !! ki) as [row|]; [|injection H as <-; reflexivity].
    apply bind_raises_inv in H as [H|(kj & log' & _ & H)]; [|discriminate].
    apply (position_raises _ _ _ _ H).
Qed.

(** The loop body raises nothing but [IndexError]. *)
Lemma cell_raises values weights (i j : Z) dp e :
  cell values weights i j dp = Raises e → e = IndexError.
Proof.
  unfold cell. intros H.
  apply bind_raises_inv in H as [H|(weight & ? & _ & H)]; [apply (index_raises _ _ _ _ H)|].
  destruct (0 <=? wrap_int (j - weight)).
  - apply bind_raises_inv in H as [H|(v & ? & _ & H)]; [apply (index_raises _ _ _ _ H)|].
    apply bind_raises_inv in H as [H|(above & ? & _ & H)]; [apply (index_raises _ _ _ _ H)|].
    apply bind_raises_inv in H as [H|(skip & ? & _ & H)]; [apply (index_raises _ _ _ _ H)|].
    apply bind_raises_inv in H as [H|(above' & ? & _ & H)]; [apply (index_raises _ _ _ _ H)|].
    apply bind_raises_inv in H as [H|(rest & ? & _ & H)]; [apply (index_raises _ _ _ _ H)|].
    apply (store_raises _ _ _ _ _ H).
  - apply bind_raises_inv in H as [H|(above & ? & _ & H)]; [apply (index_raises _ _ _ _ H)|].
    apply bind_raises_inv in H as [H|(skip & ? & _ & H)]; [apply (index_raises _ _ _ _ H)|].
    apply (store_raises _ _ _ _ _ H).
Qed.

Lemma for_each_raises_only {S} (P : exception → Prop) (body : Z → S → outcome S) l s e :
  (∀ i s e, body i s = Raises e → P e) → for_each l body s = Raises e → P e.
Proof.
  intros Hbody. revert s. induction l as [|i l IH]; intros s H; [discriminate|].
  simpl in H. apply bind_raises_inv in H as [H|(s' & ? & _ & H)].
  - apply (Hbody i s e H).
  - apply (IH s' H).
Qed.

(** [fill_table] raises [ValueError] when a dimension is negative, and
    nothing but [IndexError] once the table is allocated. *)
Lemma fill_table_raises values weights max_weight e :
  fill_table values weights max_weight = Raises e →
  (e = ValueError ∧
   (wrap_int (Z.of_nat (length weights) + 1) < 0 ∨ wrap_int (max_weight + 1) < 0)) ∨
  e = IndexError.
Proof.
  unfold fill_table. intros H.
  apply bind_raises_inv in H as [H|(dp & ? & _ & H)].
  - left. unfold np_zeros in H.
    destruct (Z.ltb_spec (wrap_int (Z.of_nat (length weights) + 1)) 0);
      destruct (Z.ltb_spec (wrap_int (max_weight + 1)) 0);
      simpl in H; try discriminate; injection H as <-; (split; [reflexivity|lia]).
  - right. revert H. apply (for_each_raises_only (λ e, e = IndexError)).
    intros i s e'. apply (for_each_raises_only (λ e, e = IndexError)).
    intros j t e''. apply cell_raises.
Qed.

Lemma _knapsack_raises values weights max_weight e :
  _knapsack values weights max_weight = Raises e →
  (e = ValueError ∧
   (wrap_int (Z.of_nat (length weights) + 1) < 0 ∨ wrap_int (max_weight + 1) < 0)) ∨
  e = IndexError.
Proof.
  unfold _knapsack. intros H.
  apply bind_raises_inv in H as [H|(dp & ? & _ & H)]; [apply (fill_table_raises _ _ _ _ H)|].
  right. apply bind_raises_inv in H as [H|(last & ? & _ & H)]; apply (index_raises _ _ _ _ H).
Qed.

(** A missing value is noticed in the last column at the latest, when the
    item fits. *)
Lemma cell_raises_on_missing_value values weights (i j weight : Z) dp :
  1 ≤ i ≤ INT_MAX → 1 ≤ j ≤ INT_MAX →
  weights !! Z.to_nat (i - 1) = Some weight → 0 ≤ weight ≤ j →
  values !! Z.to_nat (i - 1) = None →
  cell values weights i j dp = Raises IndexError.
Proof.
  intros Hi Hj Hw Hfit Hv.
  assert (Hint : INT_MIN = - 2 ^ 31 ∧ INT_MAX = 2 ^ 31 - 1) by (split; reflexivity).
  unfold cell. rewrite !(wrap_int_id (i - 1)) by lia.
  rewrite (index_in_range Weights weights (i - 1) weight) by (lia || assumption).
  unfold mbind, outcome_mbind at 1. simpl outcome_bind.
  rewrite (wrap_int_id (j - weight)) by lia.
  destruct (Z.leb_spec 0 (j - weight)); [|lia].
  rewrite (index_too_large Values values (i - 1)); [reflexivity|].
  apply lookup_ge_None in Hv. lia.
Qed.

End Exceptions.

(** ** One item more or less *)

Section Items.
Context {AR : Arith}.

(** Entries of row [i] depend on the first [i] items only. *)
Lemma dp_entry_ext values values' weights weights' (i : nat) (j : Z) :
  (∀ k, (k < i)%nat → weights !! k = weights' !! k ∧ values !! k = values' !! k) →
  dp_entry values weights i j = dp_entry values' weights' i j.
Proof.
  revert j. induction i as [|i IH]; intros j Hsame; [reflexivity|].
  assert (Hbelow : ∀ k, (k < i)%nat →
            weights !! k = weights' !! k ∧ values !! k = values' !! k)
    by (intros k Hk; apply Hsame; lia).
  destruct (Hsame i ltac:(lia)) as [Hw Hv].
  simpl. rewrite <- Hw, <- Hv. destruct (j <=? 0); [reflexivity|].
  destruct (weights !! i) as [weight|]; [|apply IH, Hbelow].
  destruct (values !! i) as [v|]; [|apply IH, Hbelow].
  rewrite !IH by exact Hbelow. reflexivity.
Qed.

Lemma dp_entry_S values weights (i : nat) (j : Z) :
  dp_entry values weights (S i) j =
    if j <=? 0 then f64_zero
    else match weights !! i, values !! i with
         | Some weight, Some v =>
             if 0 <=? j - weight
             then fmax (dp_entry values weights i j)
                       (f64_add (f64_of_f32 v) (dp_entry values weights i (j - weight)))
             else dp_entry values weights i j
         | _, _ => dp_entry values weights i j
         end.
Proof. reflexivity. Qed.

Lemma lookup_before {A} (l1 l2 : list A) (x : A) (k : nat) :
  (k < length l1)%nat → (l1 ++ x :: l2) !! k = (l1 ++ l2) !! k.
Proof. intros Hk. rewrite !lookup_app_l by assumption. reflexivity. Qed.

Lemma lookup_after {A} (l1 l2 : list A) (x : A) (k : nat) :
  (length l1 ≤ k)%nat → (l1 ++ x :: l2) !! S k = (l1 ++ l2) !! k.
Proof.
  intros Hk. rewrite !lookup_app_r by lia.
  replace (S k - length l1)%nat with (S (k - length l1)) by lia. reflexivity.
Qed.

Lemma lookup_at {A} (l1 l2 : list A) (x : A) :
  (l1 ++ x :: l2) !! length l1 = Some x.
Proof. rewrite lookup_app_r by lia. rewrite Nat.sub_diag. reflexivity. Qed.

(** An item heavier than the capacity leaves no trace in the columns up to
    the capacity: the rows below it are those of the table without it. *)
Lemma dp_entry_drop_heavy vs1 v vs2 ws1 weight ws2 (capacity : Z) (i : nat) (j : Z) :
  length vs1 = length ws1 → Forall (λ w, 0 ≤ w) ws2 → capacity < weight →
  (length ws1 ≤ i)%nat → j ≤ capacity →
  dp_entry (vs1 ++ v :: vs2) (ws1 ++ weight :: ws2) (S i) j =
  dp_entry (vs1 ++ vs2) (ws1 ++ ws2) i j.
Proof.
  intros Hlen Hw2 Hheavy Hi. revert j. induction Hi as [|i Hi IH]; intros j Hj.
  - rewrite dp_entry_S, lookup_at, <- Hlen, lookup_at, Hlen.
    assert (Hbefore : dp_entry (vs1 ++ v :: vs2) (ws1 ++ weight :: ws2) (length ws1) j =
                      dp_entry (vs1 ++ vs2) (ws1 ++ ws2) (length ws1) j).
    { apply dp_entry_ext. intros k Hk. split; apply lookup_before; lia. }
    destruct (Z.leb_spec j 0) as [Hj0|Hj0].
    + rewrite dp_entry_col0 by assumption. reflexivity.
    + destruct (Z.leb_spec 0 (j - weight)); [lia|]. exact Hbefore.
  - rewrite (dp_entry_S _ _ (S i)), (dp_entry_S (vs1 ++ vs2) (ws1 ++ ws2) i),
      !lookup_after by lia.
    destruct (Z.leb_spec j 0); [reflexivity|].
    destruct ((ws1 ++ ws2) !! i) as [w|] eqn:Hw; [|apply IH, Hj].
    destruct ((vs1 ++ vs2) !! i) as [x|]; [|apply IH, Hj].
    assert (Hw0 : 0 ≤ w).
    { rewrite lookup_app_r in Hw by lia.
      rewrite Forall_lookup in Hw2. apply (Hw2 _ _ Hw). }
    rewrite !IH by lia. reflexivity.
Qed.

(** The capacity that is enough for all the items together is enough:
    beyond the total weight the entries of a row no longer change. *)
Lemma sum_snoc (l : list Z) (w : Z) : foldr Z.add 0 (l ++ [w]) = foldr Z.add 0 l + w.
Proof. induction l as [|x l IH]; simpl; lia. Qed.

Lemma sum_nonneg (l : list Z) : Forall (λ w, 1 ≤ w) l → 0 ≤ foldr Z.add 0 l.
Proof. induction 1; simpl; lia. Qed.

Lemma dp_entry_saturates values weights (i : nat) (j : Z) :
  Forall (λ w, 1 ≤ w) weights → (i ≤ length weights)%nat →
  foldr Z.add 0 (take i weights) ≤ j →
  dp_entry values weights i j =
  dp_entry values weights i (foldr Z.add 0 (take i weights)).
Proof.
  intros Hpos Hi. revert j. induction i as [|i IH]; intros j Hj; [reflexivity|].
  destruct (lookup_lt_is_Some_2 weights i) as [w Hw]; [lia|].
  assert (Hw1 : 1 ≤ w) by (rewrite Forall_lookup in Hpos; apply (Hpos _ _ Hw)).
  pose proof (sum_nonneg (take i weights) (Forall_take _ _ _ Hpos)) as Hsum.
  revert Hj. rewrite (take_S_r _ _ _ Hw), sum_snoc. intros Hj.
  set (total := foldr Z.add 0 (take i weights)) in *.
  rewrite !dp_entry_S, Hw.
  destruct (Z.leb_spec j 0); [lia|]. destruct (Z.leb_spec (total + w) 0); [lia|].
  destruct (values !! i) as [v|].
  - destruct (Z.leb_spec 0 (j - w)); [|lia].
    destruct (Z.leb_spec 0 (total + w - w)); [|lia].
    rewrite (IH ltac:(lia) j), (IH ltac:(lia) (j - w)),
            (IH ltac:(lia) (total + w)), (IH ltac:(lia) (total + w - w)) by (fold total; lia).
    reflexivity.
  - rewrite (IH ltac:(lia) j), (IH ltac:(lia) (total + w)) by (fold total; lia).
    reflexivity.
Qed.

Context {LAWS : OrderLaws AR}.

(** With an item more, anywhere in the list, no entry gets smaller. *)
Lemma dp_entry_insert vs1 v vs2 ws1 weight ws2 (i : nat) (j : Z) :
  length vs1 = length ws1 → (length ws1 ≤ i)%nat →
  f64_le (dp_entry (vs1 ++ vs2) (ws1 ++ ws2) i j)
         (dp_entry (vs1 ++ v :: vs2) (ws1 ++ weight :: ws2) (S i) j).
Proof.
  intros Hlen Hi. revert j. induction Hi as [|i Hi IH]; intros j.
  - rewrite (dp_entry_ext (vs1 ++ vs2) (vs1 ++ v :: vs2) (ws1 ++ ws2) (ws1 ++ weight :: ws2)).
    + apply dp_entry_mono_row.
    + intros k Hk. split; symmetry; apply lookup_before; lia.
  - rewrite (dp_entry_S _ _ (S i)), (dp_entry_S (vs1 ++ vs2) (ws1 ++ ws2) i),
      !lookup_after by lia.
    destruct (Z.leb_spec j 0); [apply f64_le_refl|].
    destruct ((ws1 ++ ws2) !! i) as [w|]; [|apply IH].
    destruct ((vs1 ++ vs2) !! i) as [x|]; [|apply IH].
    destruct (0 <=? j - w); [|apply IH].
    apply fmax_add_mono; try apply dp_entry_number; [apply double_of_f32|apply IH|apply IH].
Qed.

End Items.

Section MoreRaising.
Context {AR : Arith}.

Lemma fill_table_raises_on_missing_value values weights max_weight (p : nat) weight :
  1 ≤ max_weight < INT_MAX → Z.of_nat (length weights) < INT_MAX →
  weights !! p = Some weight → 0 ≤ weight ≤ max_weight → values !! p = None →
  ∃ e, fill_table values weights max_weight = Raises e.
Proof.
  intros Hc Hn Hp Hfit Hv.
  assert (Hint : INT_MIN = - 2 ^ 31 ∧ INT_MAX = 2 ^ 31 - 1) by (split; reflexivity).
  apply lookup_lt_Some in Hp as Hlt.
  unfold fill_table. rewrite !wrap_int_id by lia.
  apply bind_raises_if. intros dp0 l0 _.
  rewrite (range_split 1 (Z.of_nat p + 1) (Z.of_nat (length weights) + 1)) by lia.
  apply (for_each_raises (λ _, True)); [trivial| |trivial].
  intros s _.
  rewrite (range_split 1 max_weight (max_weight + 1)) by lia.
  apply (for_each_raises (λ _, True)); [trivial| |trivial].
  intros t _. exists IndexError.
  apply (cell_raises_on_missing_value values weights _ _ weight); try lia;
    replace (Z.to_nat (Z.of_nat p + 1 - 1)) with p by lia; assumption.
Qed.

(** With C ints, a capacity from 0 up and an item count that does not
    wrap, the table is allocated and every exception is an [IndexError]. *)
Lemma knapsack_raises_index_error values weights capacity :
  Forall (λ weight, INT_MIN ≤ weight ≤ INT_MAX) weights →
  0 ≤ capacity < INT_MAX → Z.of_nat (length weights) < INT_MAX →
  (∃ e, fill_table (f32_of_f64 <$> values) weights capacity = Raises e) →
  knapsack values weights capacity = Raises IndexError.
Proof.
  intros Hw Hc Hn [e He].
  assert (Hint : INT_MIN = - 2 ^ 31 ∧ INT_MAX = 2 ^ 31 - 1) by (split; reflexivity).
  rewrite (knapsack_translates values weights capacity Hw) by lia.
  destruct (fill_table_raises _ _ _ _ He) as [[_ Hneg]| ->].
  - rewrite !wrap_int_id in Hneg by lia. lia.
  - unfold _knapsack. apply bind_raises, He.
Qed.

End MoreRaising.

(** Validity of an input with one item taken out. *)
Lemma valid_without_item {AR : Arith} (vs1 vs2 : list float64) v
    (ws1 ws2 : list Z) weight capacity :
  length vs1 = length ws1 →
  valid_input (vs1 ++ v :: vs2) (ws1 ++ weight :: ws2) capacity →
  fits_c_int (ws1 ++ weight :: ws2) capacity →
  valid_input (vs1 ++ vs2) (ws1 ++ ws2) capacity ∧
  fits_c_int (ws1 ++ ws2) capacity ∧
  Forall (λ w, 0 ≤ w) ws2 ∧
  length (ws1 ++ weight :: ws2) = S (length (ws1 ++ ws2)).
Proof.
  intros Hlen1 (Hlen & Hw & Hc) (Hfit & Hcap & Hn).
  rewrite !length_app in *. simpl in *.
  apply Forall_app in Hw as [Hw1 Hw2]. apply Forall_inv_tail in Hw2.
  apply Forall_app in Hfit as [Hf1 Hf2]. apply Forall_inv_tail in Hf2.
  split; [|split; [|split; [assumption|lia]]].
  - split; [rewrite !length_app; lia|]. split; [apply Forall_app; split; assumption|assumption].
  - split; [apply Forall_app; split; assumption|]. split; [assumption|].
    rewrite length_app. lia.
Qed.

Lemma knapsack_overflow {AR : Arith} values weights capacity :
  ¬ (Forall (λ weight, INT_MIN ≤ weight ≤ INT_MAX) weights ∧
     INT_MIN ≤ capacity ≤ INT_MAX) →
  knapsack values weights capacity = Raises OverflowError.
Proof.
  intros Hbad. unfold knapsack, array_f.
  change (mret (f32_of_f64 <$> values)) with (Returns (f32_of_f64 <$> values) []).
  rewrite bind_pure.
  destruct (decide (Forall (λ weight, INT_MIN ≤ weight ≤ INT_MAX) weights)) as [Hw|Hw].
  - rewrite (array_i_fits weights Hw), bind_pure.
    rewrite (to_c_int_overflow capacity); [reflexivity|tauto].
  - rewrite (array_i_overflow weights Hw). reflexivity.
Qed.

(** ** The unit of weight *)

Section Units.
Context {AR : Arith}.

Lemma dp_entry_scale values weights (k : Z) (i : nat) (j : Z) :
  1 ≤ k →
  dp_entry values (Z.mul k <$> weights) i (k * j) = dp_entry values weights i j.
Proof.
  intros Hk. revert j. induction i as [|i IH]; intros j; [reflexivity|].
  rewrite !dp_entry_S, list_lookup_fmap.
  assert ((k * j <=? 0) = (j <=? 0)) as ->.
  { destruct (Z.leb_spec (k * j) 0), (Z.leb_spec j 0); try reflexivity; nia. }
  destruct (j <=? 0); [reflexivity|].
  destruct (weights !! i) as [weight|]; simpl; [|apply IH].
  destruct (values !! i) as [v|]; [|apply IH].
  assert ((0 <=? k * j - k * weight) = (0 <=? j - weight)) as ->.
  { destruct (Z.leb_spec 0 (k * j - k * weight)), (Z.leb_spec 0 (j - weight));
      try reflexivity; nia. }
  replace (k * j - k * weight) with (k * (j - weight)) by lia.
  rewrite !IH. reflexivity.
Qed.

End Units.

(** ** What the loops leave in the table, on any input *)

Section Entries.
Context {AR : Arith} {LAWS : OrderLaws AR}.

Lemma fmax_nonneg (a b : float64) :
  is_number a → f64_le f64_zero a → is_double b →
  is_number (fmax a b) ∧ f64_le f64_zero (fmax a b).
Proof.
  intros Ha H0 Hb. pose proof (fmax_number a b Ha Hb) as Hm. split; [exact Hm|].
  apply (f64_le_trans f64_zero a);
    [apply number_double, number_zero|exact Ha|apply number_double, Hm|exact H0
    |apply fmax_le_l].
Qed.

Lemma Forall_elem {A} (P : A → Prop) (l : list A) (x : A) : Forall P l → x ∈ l → P x.
Proof.
  intros Hl Hx. apply list_elem_of_lookup_1 in Hx as [k Hk].
  apply (Forall_lookup_1 _ _ _ _ Hl Hk).
Qed.

Lemma store_entries (P : float64 → Prop) dp (i j : Z) x dp' log :
  Forall (Forall P) dp → P x → store dp i j x = Returns dp' log →
  Forall (Forall P) dp'.
Proof.
  intros Hdp Hx H. unfold store in H.
  apply bind_inv in H as (ki & l1 & l2 & _ & H & _).
  destruct (dp !! ki) as [row|] eqn:Hrow; [|discriminate].
  apply bind_inv in H as (kj & l3 & l4 & _ & H & _).
  injection H as <- _. apply Forall_insert; [assumption|].
  apply Forall_insert; [|assumption]. apply (Forall_lookup_1 _ _ _ _ Hdp Hrow).
Qed.

(** The loop body keeps every entry a number that is not below zero:
    what it stores is an entry, or the greater of an entry and a sum. *)
Lemma cell_nonneg values weights (i j : Z) dp dp' log :
  Forall (Forall (λ x, is_number x ∧ f64_le f64_zero x)) dp → cell values weights i j dp = Returns dp' log →
  Forall (Forall (λ x, is_number x ∧ f64_le f64_zero x)) dp'.
Proof.
  intros Hdp H. unfold cell in H.
  apply bind_inv in H as (weight & ? & ? & _ & H & _).
  destruct (0 <=? wrap_int (j - weight)).
  - apply bind_inv in H as (v & ? & ? & _ & H & _).
    apply bind_inv in H as (above & ? & ? & Ha & H & _).
    apply bind_inv in H as (skip & ? & ? & Hs & H & _).
    apply bind_inv in H as (above' & ? & ? & Ha' & H & _).
    apply bind_inv in H as (rest & ? & ? & Hr & H & _).
    apply index_returns in Ha, Hs, Ha', Hr.
    pose proof (Forall_elem _ _ _ (Forall_elem _ _ _ Hdp Ha) Hs) as [Hskip Hskip0].
    pose proof (Forall_elem _ _ _ (Forall_elem _ _ _ Hdp Ha') Hr) as [Hrest _].
    apply (store_entries _ _ _ _ _ _ _ Hdp) in H; [exact H|].
    apply fmax_nonneg; [exact Hskip|exact Hskip0|].
    apply double_add; [apply double_of_f32|apply number_double, Hrest].
  - apply bind_inv in H as (above & ? & ? & Ha & H & _).
    apply bind_inv in H as (skip & ? & ? & Hs & H & _).
    apply index_returns in Ha, Hs.
    apply (store_entries _ _ _ _ _ _ _ Hdp) in H; [exact H|].
    apply (Forall_elem _ _ _ (Forall_elem _ _ _ Hdp Ha) Hs).
Qed.

Lemma fill_table_nonneg values weights max_weight dp log :
  fill_table values weights max_weight = Returns dp log →
  Forall (Forall (λ x, is_number x ∧ f64_le f64_zero x)) dp.
Proof.
  unfold fill_table. intros H.
  apply bind_inv in H as (dp0 & ? & ? & Hzeros & H & _).
  assert (Hdp0 : Forall (Forall (λ x, is_number x ∧ f64_le f64_zero x)) dp0).
  { unfold np_zeros in Hzeros. destruct (_ || _); [discriminate|].
    injection Hzeros as <- _. apply Forall_replicate, Forall_replicate.
    split; [apply number_zero|apply f64_le_refl]. }
  revert H. apply (for_each_preserves (Forall (Forall (λ x, is_number x ∧ f64_le f64_zero x)))); [|exact Hdp0].
  intros i s s' log'. apply (for_each_preserves (Forall (Forall (λ x, is_number x ∧ f64_le f64_zero x)))).
  intros j t t' log''. apply cell_nonneg.
Qed.

(** Whatever [knapsack] returns is a number, and not below zero. *)
Lemma knapsack_nonneg values weights max_weight r log :
  knapsack values weights max_weight = Returns r log →
  is_number r ∧ f64_le f64_zero r.
Proof.
  unfold knapsack. intros H.
  apply bind_inv in H as (v & ? & ? & _ & H & _).
  apply bind_inv in H as (w & ? & ? & _ & H & _).
  apply bind_inv in H as (c & ? & ? & _ & H & _).
  unfold _knapsack in H.
  apply bind_inv in H as (dp & ? & ? & Hfill & H & _).
  apply bind_inv in H as (last & ? & ? & Hlast & H & _).
  apply index_returns in Hlast, H. apply fill_table_nonneg in Hfill.
  apply (Forall_elem _ _ _ (Forall_elem _ _ _ Hfill Hlast) H).
Qed.

End Entries.

(** The values as the table reads them are doubles, whatever the caller
    supplied. *)
Lemma stored_double (values : list spec_float) :
  Forall IEEE.valid_double (as_stored (AR := IEEE.arith) values).
Proof.
  apply Forall_lookup. intros k v Hk. unfold as_stored in Hk.
  apply list_lookup_fmap_Some_1 in Hk as (x & -> & _). apply convert_valid.
Qed.

(** * The claims of the specification *)

(** C1: the result is not always the best value of a selection that fits.
    With the items (value 5, weight 0) and (value 3, weight 1) and capacity
    1 both items fit together and are worth 8, which exhaustive search
    finds, but [knapsack] returns 5: the item of weight 0 is never added to
    column 0, which the loops leave at zero. *)
Theorem zero_weight_item_not_counted :
  let values := [IEEE.double 5 0; IEEE.double 3 0] in
  let weights := [0; 1] in
  valid_input (AR := IEEE.arith) values weights 1 ∧
  fits_c_int weights 1 ∧
  result (knapsack (AR := IEEE.arith) values weights 1) = Some (IEEE.double 5 0) ∧
  feasible [true; true] weights 1 ∧
  total_value (AR := IEEE.arith) [true; true] (as_stored (AR := IEEE.arith) values)
    = IEEE.double 8 0 ∧
  brute_force (AR := IEEE.arith) (as_stored (AR := IEEE.arith) values) weights 1
    = IEEE.double 8 0 ∧
  @f64_gt IEEE.arith (IEEE.double 8 0) (IEEE.double 5 0) = true ∧
  ¬ is_optimum (AR := IEEE.arith) (as_stored (AR := IEEE.arith) values) weights 1
      (IEEE.double 5 0).
Proof.
  cbv zeta. split; [concrete_input|]. split; [concrete_input|].
  split; [vm_compute; reflexivity|]. split; [concrete_input|].
  split; [vm_compute; reflexivity|]. split; [vm_compute; reflexivity|].
  split; [vm_compute; reflexivity|].
  intros [_ Hbound]. specialize (Hbound [true; true]).
  assert (Hfeas : feasible [true; true] [0; 1] 1) by concrete_input.
  specialize (Hbound Hfeas). vm_compute in Hbound. discriminate Hbound.
Qed.

(** C2, amended: nothing validates the arguments and there is no
    [InvalidArgument].  With weights that are C ints, a call with a
    negative capacity raises before any iteration of the loop body:
    [OverflowError] from the conversion when the capacity is below
    [INT_MIN], [ValueError] from the allocation when it is below -1, and
    [IndexError] from the subscript of the [return] when it is -1 (the
    loops run over nothing: the table has no column).  A call with a
    negative weight raises [IndexError] from a subscript in the loop when
    the capacity is from 1 to [INT_MAX - 1] (with fewer than [INT_MAX]
    weights, the negative one not below [capacity - INT_MAX], so that
    [j - weight] does not wrap): the table is allocated, and filling it
    raises.  A difference in length is not an error by itself. *)
Theorem unchecked_arguments_that_raise {AR : Arith} values weights capacity :
  Forall (λ weight, INT_MIN ≤ weight ≤ INT_MAX) weights →
  (capacity < INT_MIN → knapsack values weights capacity = Raises OverflowError) ∧
  (INT_MIN ≤ capacity < -1 →
     knapsack values weights capacity = Raises ValueError ∧
     ∀ v, fill_table v weights capacity = Raises ValueError) ∧
  (capacity = -1 → Z.of_nat (length weights) < INT_MAX →
     knapsack values weights capacity = Raises IndexError ∧
     ∀ v, ∃ dp, fill_table v weights capacity = Returns dp []) ∧
  (1 ≤ capacity < INT_MAX → Z.of_nat (length weights) < INT_MAX →
   Exists (λ weight, capacity - INT_MAX ≤ weight < 0) weights →
     knapsack values weights capacity = Raises IndexError ∧
     (∃ dp, np_zeros (wrap_int (Z.of_nat (length weights) + 1)) (wrap_int (capacity + 1))
            = Returns dp []) ∧
     fill_table (f32_of_f64 <$> values) weights capacity = Raises IndexError).
Proof.
  intros Hw.
  assert (Hint : INT_MIN = - 2 ^ 31 ∧ INT_MAX = 2 ^ 31 - 1) by (split; reflexivity).
  split; [|split; [|split]].
  - intros Hc. apply knapsack_overflow. intros [_ Hrange]. lia.
  - intros Hc.
    assert (Hcols : (wrap_int (capacity + 1) <? 0) = true).
    { rewrite wrap_int_id by lia. apply Z.ltb_lt. lia. }
    split.
    + rewrite (knapsack_translates values weights capacity Hw) by lia.
      unfold _knapsack, fill_table. do 2 apply bind_raises. unfold np_zeros.
      rewrite Hcols, orb_true_r. reflexivity.
    + intros v. unfold fill_table. apply bind_raises. unfold np_zeros.
      rewrite Hcols, orb_true_r. reflexivity.
  - intros -> Hn.
    assert (Hdims : ¬ (wrap_int (Z.of_nat (length weights) + 1) < 0 ∨ wrap_int (-1 + 1) < 0)).
    { rewrite wrap_int_id by lia. change (wrap_int (-1 + 1)) with 0. lia. }
    split.
    + rewrite (knapsack_translates values weights (-1) Hw) by lia.
      destruct (_knapsack_negative_capacity (f32_of_f64 <$> values) weights (-1))
        as [e He]; [lia|].
      destruct (_knapsack_raises _ _ _ _ He) as [[_ Hneg]| ->]; [tauto|exact He].
    + intros v.
      destruct (fill_table_negative_capacity v weights (-1) ltac:(lia))
        as [Hraise|(_ & dp & Hrun & _)]; [|exists dp; exact Hrun].
      destruct (fill_table_raises _ _ _ _ Hraise) as [[_ Hneg]|Habs];
        [tauto|discriminate Habs].
  - intros Hc Hn Hex.
    destruct (fill_table_raises_on_negative_weight (f32_of_f64 <$> values) weights capacity)
      as [e He]; [lia|exact Hn|exact Hex|].
    split; [|split].
    + apply knapsack_raises_index_error; [exact Hw|lia|exact Hn|]. exists e. exact He.
    + unfold np_zeros. rewrite !wrap_int_id by lia.
      destruct (Z.ltb_spec (Z.of_nat (length weights) + 1) 0); [lia|].
      destruct (Z.ltb_spec (capacity + 1) 0); [lia|]. eexists. reflexivity.
    + destruct (fill_table_raises _ _ _ _ He) as [[_ Hneg]| ->]; [|exact He].
      rewrite !wrap_int_id in Hneg by lia. lia.
Qed.

Lemma unchecked_arguments_that_raise_witness :
  knapsack (AR := IEEE.arith) [IEEE.double 1 0; IEEE.double 2 0] [1; -1] (- 2 ^ 31 - 1)
    = Raises OverflowError ∧
  (knapsack (AR := IEEE.arith) [IEEE.double 1 0; IEEE.double 2 0] [1; -1] (-2)
     = Raises ValueError ∧
   ∀ v, fill_table (AR := IEEE.arith) v [1; -1] (-2) = Raises ValueError) ∧
  (knapsack (AR := IEEE.arith) [IEEE.double 1 0; IEEE.double 2 0] [1; -1] (-1)
     = Raises IndexError ∧
   ∀ v, ∃ dp, fill_table (AR := IEEE.arith) v [1; -1] (-1) = Returns dp []) ∧
  (knapsack (AR := IEEE.arith) [IEEE.double 1 0; IEEE.double 2 0] [1; -1] 2
     = Raises IndexError ∧
   (∃ dp, np_zeros (AR := IEEE.arith) (wrap_int (Z.of_nat (length [1; -1]) + 1))
            (wrap_int (2 + 1)) = Returns dp []) ∧
   fill_table (AR := IEEE.arith)
     (f32_of_f64 <$> [IEEE.double 1 0; IEEE.double 2 0]) [1; -1] 2 = Raises IndexError).
Proof.
  assert (Hw : Forall (λ weight, INT_MIN ≤ weight ≤ INT_MAX) [1; -1]).
  { apply Forall_cons; [unfold INT_MIN, INT_MAX; lia|].
    apply Forall_cons; [unfold INT_MIN, INT_MAX; lia|apply Forall_nil]. }
  split; [|split; [|split]].
  - apply (proj1 (unchecked_arguments_that_raise (AR := IEEE.arith)
                    [IEEE.double 1 0; IEEE.double 2 0] [1; -1] (- 2 ^ 31 - 1) Hw)).
    unfold INT_MIN. lia.
  - apply (proj1 (proj2 (unchecked_arguments_that_raise (AR := IEEE.arith)
                           [IEEE.double 1 0; IEEE.double 2 0] [1; -1] (-2) Hw))).
    unfold INT_MIN. lia.
  - apply (proj1 (proj2 (proj2 (unchecked_arguments_that_raise (AR := IEEE.arith)
                                  [IEEE.double 1 0; IEEE.double 2 0] [1; -1] (-1) Hw))));
      [reflexivity|]. simpl. unfold INT_MAX. lia.
  - apply (proj2 (proj2 (proj2 (unchecked_arguments_that_raise (AR := IEEE.arith)
                                  [IEEE.double 1 0; IEEE.double 2 0] [1; -1] 2 Hw)))).
    + unfold INT_MAX. lia.
    + simpl. unfold INT_MAX. lia.
    + apply Exists_cons_tl, Exists_cons_hd. unfold INT_MAX. lia.
Defined.

(** C2 as stated fails: sequences of different lengths and a negative
    weight are both accepted.  With three values and two weights the call
    returns 3.0, the best of the first two items; with the weight -1 and
    capacity 0 it returns 0.0. *)
Lemma invalid_arguments_accepted :
  ¬ valid_input (AR := IEEE.arith)
      [IEEE.double 1 0; IEEE.double 2 0; IEEE.double 3 0] [1; 1] 2 ∧
  result (knapsack (AR := IEEE.arith)
            [IEEE.double 1 0; IEEE.double 2 0; IEEE.double 3 0] [1; 1] 2)
    = Some (IEEE.double 3 0) ∧
  ¬ valid_input (AR := IEEE.arith) [IEEE.double 5 0] [-1] 0 ∧
  result (knapsack (AR := IEEE.arith) [IEEE.double 5 0] [-1] 0)
    = Some (S754_zero false).
Proof.
  split; [intros (Hlen & _); discriminate Hlen|].
  split; [vm_compute; reflexivity|].
  split; [|vm_compute; reflexivity].
  intros (_ & Hw & _). inversion Hw as [|? ? Hneg _]. lia.
Qed.

(** C3, amended: on a valid input the translation layer produces a value
    buffer as long as the weight buffer; the weights and the capacity go
    through unchanged; every value is rounded to single precision (to
    nearest, ties to even), and is unchanged when it is a single-precision
    number already; and every sum in the table is the double-precision sum
    of the widened value and a double entry. *)
Theorem marshaling_rounds_values_to_single
    (values : list spec_float) (weights : list Z) (capacity : Z) :
  valid_input (AR := IEEE.arith) values weights capacity →
  fits_c_int weights capacity →
  ∃ v,
    array_f (AR := IEEE.arith) values = Returns v [] ∧
    array_i weights = Returns weights [] ∧
    to_c_int capacity = Returns capacity [] ∧
    knapsack (AR := IEEE.arith) values weights capacity
      = _knapsack (AR := IEEE.arith) v weights capacity ∧
    length v = length weights ∧
    (∀ k x, values !! k = Some x → v !! k = Some (IEEE.convert 24 128 x)) ∧
    (∀ k y, valid_binary 24 128 y = true →
            values !! k = Some (IEEE.convert 53 1024 y) → v !! k = Some y) ∧
    ∃ dp log,
      fill_table (AR := IEEE.arith) v weights capacity = Returns dp log ∧
      ∀ i j, 1 ≤ i ≤ Z.of_nat (length weights) → 1 ≤ j ≤ capacity →
        ∃ weight x skip,
          weights !! Z.to_nat (i - 1) = Some weight ∧
          v !! Z.to_nat (i - 1) = Some x ∧
          entry_of (AR := IEEE.arith) dp (i - 1) j = Some skip ∧
          if weight >? j then entry_of (AR := IEEE.arith) dp i j = Some skip
          else ∃ rest,
                 entry_of (AR := IEEE.arith) dp (i - 1) (j - weight) = Some rest ∧
                 entry_of (AR := IEEE.arith) dp i j =
                   Some (fmax (AR := IEEE.arith) skip
                           (SFadd 53 1024 (IEEE.convert 53 1024 x) rest)).
Proof.
  intros Hvalid Hfit.
  destruct (solve_spec (AR := IEEE.arith) _ _ _ Hvalid Hfit)
    as (dp & log & _ & Hrun & Htab & _).
  pose proof (recurrence_of_table (AR := IEEE.arith) values weights capacity dp) as Hrec.
  specialize (λ i j, Hrec i j Hvalid Htab).
  destruct Hvalid as (Hlen & Hw & Hc).
  destruct (valid_input_buffers_ok (AR := IEEE.arith) values weights capacity
              ltac:(lia) Hw Hc Hfit) as (_ & Hwr & Hcr).
  exists (IEEE.convert 24 128 <$> values).
  split; [reflexivity|]. split; [apply array_i_fits, Hwr|].
  split; [apply to_c_int_fits, Hcr|].
  split; [apply (knapsack_translates (AR := IEEE.arith)); assumption|].
  split; [rewrite length_fmap; exact Hlen|]. split.
  { intros k x Hx. rewrite list_lookup_fmap, Hx. reflexivity. }
  split.
  { intros k y Hy Hx. rewrite list_lookup_fmap, Hx. simpl.
    rewrite (single_survives y Hy). reflexivity. }
  exists dp, log. split; [exact Hrun|]. intros i j Hi Hj.
  destruct (Hrec i j Hi Hj) as (weight & v & skip & Hweight & Hv & Hskip & Hcell).
  unfold as_stored in Hv. apply list_lookup_fmap_Some_1 in Hv as (x & -> & Hx).
  exists weight, (IEEE.convert 24 128 x), skip. split; [exact Hweight|]. split.
  { exact (list_lookup_fmap_Some_2 (IEEE.convert 24 128) values _ x Hx). }
  split; [exact Hskip|]. exact Hcell.
Qed.

Lemma marshaling_rounds_values_to_single_witness :
  ∃ v,
    array_f (AR := IEEE.arith) [IEEE.double 7205759403792794 (-56); IEEE.double 1 (-1)]
      = Returns v [] ∧
    array_i [1; 2] = Returns [1; 2] [] ∧
    to_c_int 3 = Returns 3 [] ∧
    knapsack (AR := IEEE.arith)
      [IEEE.double 7205759403792794 (-56); IEEE.double 1 (-1)] [1; 2] 3
      = _knapsack (AR := IEEE.arith) v [1; 2] 3 ∧
    length v = length [1; 2] ∧
    (∀ k x, [IEEE.double 7205759403792794 (-56); IEEE.double 1 (-1)] !! k = Some x →
            v !! k = Some (IEEE.convert 24 128 x)) ∧
    (∀ k y, valid_binary 24 128 y = true →
            [IEEE.double 7205759403792794 (-56); IEEE.double 1 (-1)] !! k
              = Some (IEEE.convert 53 1024 y) →
            v !! k = Some y) ∧
    ∃ dp log,
      fill_table (AR := IEEE.arith) v [1; 2] 3 = Returns dp log ∧
      ∀ i j, 1 ≤ i ≤ Z.of_nat (length [1; 2]) → 1 ≤ j ≤ 3 →
        ∃ weight x skip,
          [1; 2] !! Z.to_nat (i - 1) = Some weight ∧
          v !! Z.to_nat (i - 1) = Some x ∧
          entry_of (AR := IEEE.arith) dp (i - 1) j = Some skip ∧
          if weight >? j then entry_of (AR := IEEE.arith) dp i j = Some skip
          else ∃ rest,
                 entry_of (AR := IEEE.arith) dp (i - 1) (j - weight) = Some rest ∧
                 entry_of (AR := IEEE.arith) dp i j =
                   Some (fmax (AR := IEEE.arith) skip
                           (SFadd 53 1024 (IEEE.convert 53 1024 x) rest)).
Proof.
  apply (marshaling_rounds_values_to_single
           [IEEE.double 7205759403792794 (-56); IEEE.double 1 (-1)] [1; 2] 3);
    concrete_input.
Defined.

(** C3 as stated fails: the double nearest to 0.1 is a valid value, and
    the buffer holds a different number, 13421773 / 2^27, in its place (a
    value that is a single-precision number, 0.5, is unchanged). *)
Lemma marshaled_value_differs :
  let tenth := IEEE.double 7205759403792794 (-56) in
  let half := IEEE.double 1 (-1) in
  valid_input (AR := IEEE.arith) [tenth; half] [1; 2] 3 ∧
  fits_c_int [1; 2] 3 ∧
  ∃ x y,
    array_f (AR := IEEE.arith) [tenth; half] = Returns [x; y] [] ∧
    x = S754_finite false 13421773 (-27) ∧
    IEEE.same_number x tenth = false ∧
    IEEE.same_number (f64_of_f32 (Arith := IEEE.arith) x) tenth = false ∧
    IEEE.same_number y half = true.
Proof.
  cbv zeta. split; [concrete_input|]. split; [concrete_input|].
  eexists _, _. split; [vm_compute; reflexivity|]. split; [reflexivity|].
  split; [vm_compute; reflexivity|]. split; vm_compute; reflexivity.
Qed.




(** C5, amended: for fixed values and weights the result does not decrease
    when the capacity grows, as long as both calls return: the weights C
    ints, fewer than [INT_MAX] of them, and the capacities below
    [INT_MAX].  The values may be any doubles, the infinities and NaN
    included: both results are numbers, and [≤] is the comparison of
    doubles. *)
Theorem result_monotone_in_capacity (values : list spec_float) weights c1 c2 :
  valid_input (AR := IEEE.arith) values weights c1 → fits_c_int weights c2 → c1 ≤ c2 →
  ∃ r1 r2,
    result (knapsack (AR := IEEE.arith) values weights c1) = Some r1 ∧
    result (knapsack (AR := IEEE.arith) values weights c2) = Some r2 ∧
    SFleb r1 r2 = true.
Proof.
  intros (Hlen & Hw & Hc1) (Hfit & Hcap & Hn) Hle.
  destruct (solve_spec (AR := IEEE.arith) values weights c1)
    as (_ & _ & log1 & _ & _ & Hres1 & _).
  { split; [assumption|]. split; assumption. }
  { split; [assumption|]. split; [lia|assumption]. }
  destruct (solve_spec (AR := IEEE.arith) values weights c2)
    as (_ & _ & log2 & _ & _ & Hres2 & _).
  { split; [assumption|]. split; [assumption|lia]. }
  { split; [assumption|]. split; assumption. }
  eexists _, _. rewrite Hres1, Hres2. split; [reflexivity|]. split; [reflexivity|].
  apply not_gt_is_le.
  - exact (dp_entry_number (AR := IEEE.arith) _ _ _ _).
  - exact (dp_entry_number (AR := IEEE.arith) _ _ _ _).
  - apply (dp_entry_mono_col (AR := IEEE.arith)); assumption.
Qed.

Lemma result_monotone_in_capacity_witness :
  ∃ r1 r2,
    result (knapsack (AR := IEEE.arith)
              [IEEE.double 60 0; IEEE.double (-100) 0; S754_infinity false; S754_nan]
              [10; 20; 30; 5] 20) = Some r1 ∧
    result (knapsack (AR := IEEE.arith)
              [IEEE.double 60 0; IEEE.double (-100) 0; S754_infinity false; S754_nan]
              [10; 20; 30; 5] 50) = Some r2 ∧
    SFleb r1 r2 = true.
Proof.
  apply (result_monotone_in_capacity
           [IEEE.double 60 0; IEEE.double (-100) 0; S754_infinity false; S754_nan]
           [10; 20; 30; 5] 20 50); concrete_input.
Defined.

(** C5 as stated fails at the largest capacities: the values [1.0], the
    weights [1] and the capacities 0 and [2^31 - 1] are valid, and
    [0 ≤ 2^31 - 1], but the second call raises [ValueError] (the column
    count wraps to a negative C int), so that there is no result to
    compare. *)
Lemma largest_capacity_has_no_result :
  valid_input (AR := IEEE.arith) [IEEE.double 1 0] [1] 0 ∧
  valid_input (AR := IEEE.arith) [IEEE.double 1 0] [1] (2 ^ 31 - 1) ∧
  0 ≤ 2 ^ 31 - 1 ∧
  result (knapsack (AR := IEEE.arith) [IEEE.double 1 0] [1] 0) = Some (S754_zero false) ∧
  knapsack (AR := IEEE.arith) [IEEE.double 1 0] [1] (2 ^ 31 - 1) = Raises ValueError.
Proof.
  split; [concrete_input|]. split; [concrete_input|]. split; [lia|].
  split; vm_compute; reflexivity.
Qed.

(** C6, amended: with capacity 0 the result is 0 whatever the items are,
    and with no item at all the result is 0 for every non-negative
    capacity, as long as the numbers fit: the weights C ints, fewer than
    [INT_MAX] of them, and the capacity below [INT_MAX]. *)
Theorem zero_capacity_or_no_items {AR : Arith} values weights capacity :
  valid_input values weights 0 → fits_c_int weights 0 →
  0 ≤ capacity < INT_MAX →
  result (knapsack values weights 0) = Some f64_zero ∧
  result (knapsack [] [] capacity) = Some f64_zero.
Proof.
  intros Hvalid Hfit Hcap. split.
  - destruct (solve_spec _ _ _ Hvalid Hfit) as (_ & _ & log & _ & _ & Hres & _).
    rewrite Hres. simpl. f_equal. apply dp_entry_col0. lia.
  - destruct (solve_spec [] [] capacity) as (_ & _ & log & _ & _ & Hres & _).
    + split; [reflexivity|]. split; [constructor|lia].
    + split; [constructor|]. split; [lia|]. simpl. unfold INT_MAX. lia.
    + rewrite Hres. reflexivity.
Qed.

Lemma zero_capacity_or_no_items_witness :
  result (knapsack (AR := IEEE.arith)
            [IEEE.double 60 0; IEEE.double 100 0] [10; 0] 0) = Some (S754_zero false) ∧
  result (knapsack (AR := IEEE.arith) [] [] 50) = Some (S754_zero false).
Proof.
  apply (zero_capacity_or_no_items (AR := IEEE.arith)); concrete_input.
Defined.

(** C6 as stated fails for numbers that do not fit a C int: with no item
    at all the capacity [2^31 - 1] raises [ValueError] and the capacity
    [2^31] raises [OverflowError], and with capacity 0 an item of weight
    [2^31] raises [OverflowError]; all three inputs are valid. *)
Lemma zero_result_needs_c_ints :
  valid_input (AR := IEEE.arith) [] [] (2 ^ 31 - 1) ∧
  knapsack (AR := IEEE.arith) [] [] (2 ^ 31 - 1) = Raises ValueError ∧
  valid_input (AR := IEEE.arith) [] [] (2 ^ 31) ∧
  knapsack (AR := IEEE.arith) [] [] (2 ^ 31) = Raises OverflowError ∧
  valid_input (AR := IEEE.arith) [IEEE.double 1 0] [2 ^ 31] 0 ∧
  knapsack (AR := IEEE.arith) [IEEE.double 1 0] [2 ^ 31] 0 = Raises OverflowError.
Proof.
  split; [concrete_input|]. split; [vm_compute; reflexivity|].
  split; [concrete_input|]. split; [vm_compute; reflexivity|].
  split; [concrete_input|]. vm_compute; reflexivity.
Qed.

(** C7: in the table built on a valid input, entries do not decrease
    along a row (in [j], for fixed [i]) nor down a column (in [i], for
    fixed [j]), whatever doubles the values are: the entries are numbers,
    and [≤] is the comparison of doubles. *)
Theorem table_entries_monotone (values : list spec_float) weights capacity :
  valid_input (AR := IEEE.arith) values weights capacity → fits_c_int weights capacity →
  ∃ dp log,
    fill_table (AR := IEEE.arith) (IEEE.convert 24 128 <$> values) weights capacity
      = Returns dp log ∧
    (∀ i j j', 0 ≤ i ≤ Z.of_nat (length weights) → 0 ≤ j ≤ j' → j' ≤ capacity →
       ∃ a b, entry_of (AR := IEEE.arith) dp i j = Some a ∧
              entry_of (AR := IEEE.arith) dp i j' = Some b ∧ SFleb a b = true) ∧
    (∀ i i' j, 0 ≤ i ≤ i' → i' ≤ Z.of_nat (length weights) → 0 ≤ j ≤ capacity →
       ∃ a b, entry_of (AR := IEEE.arith) dp i j = Some a ∧
              entry_of (AR := IEEE.arith) dp i' j = Some b ∧ SFleb a b = true).
Proof.
  intros Hvalid Hfit.
  destruct (solve_spec (AR := IEEE.arith) _ _ _ Hvalid Hfit)
    as (dp & log & _ & Hrun & Htab & _).
  destruct Hvalid as (_ & Hw & _).
  exists dp, log. split; [exact Hrun|]. split.
  - intros i j j' Hi Hj Hj'. eexists _, _.
    rewrite !(table_at_entry (AR := IEEE.arith) _ _ _ _ _ _ Htab) by lia.
    split; [reflexivity|]. split; [reflexivity|].
    apply not_gt_is_le; try exact (dp_entry_number (AR := IEEE.arith) _ _ _ _).
    apply (dp_entry_mono_col (AR := IEEE.arith)); [assumption|lia].
  - intros i i' j Hi Hi' Hj. eexists _, _.
    rewrite !(table_at_entry (AR := IEEE.arith) _ _ _ _ _ _ Htab) by lia.
    split; [reflexivity|]. split; [reflexivity|].
    apply not_gt_is_le; try exact (dp_entry_number (AR := IEEE.arith) _ _ _ _).
    apply (dp_entry_mono_rows (AR := IEEE.arith)). lia.
Qed.

Lemma table_entries_monotone_witness :
  ∃ dp log,
    fill_table (AR := IEEE.arith)
      (IEEE.convert 24 128 <$> [IEEE.double 1 0; IEEE.double (-2) 0; S754_nan])
      [1; 1; 0] 2 = Returns dp log ∧
    (∀ i j j', 0 ≤ i ≤ Z.of_nat (length [1; 1; 0]) → 0 ≤ j ≤ j' → j' ≤ 2 →
       ∃ a b, entry_of (AR := IEEE.arith) dp i j = Some a ∧
              entry_of (AR := IEEE.arith) dp i j' = Some b ∧ SFleb a b = true) ∧
    (∀ i i' j, 0 ≤ i ≤ i' → i' ≤ Z.of_nat (length [1; 1; 0]) → 0 ≤ j ≤ 2 →
       ∃ a b, entry_of (AR := IEEE.arith) dp i j = Some a ∧
              entry_of (AR := IEEE.arith) dp i' j = Some b ∧ SFleb a b = true).
Proof.
  apply (table_entries_monotone [IEEE.double 1 0; IEEE.double (-2) 0; S754_nan]
           [1; 1; 0] 2); concrete_input.
Defined.

(** C8: whatever [knapsack] returns, on equal-length sequences with
    non-negative weights and capacity or on any other arguments, is a
    number that is at least 0, also when some of the values are negative,
    infinite or NaN: the table starts at zero and [max] never lowers an
    entry. *)
Theorem result_nonnegative (values : list spec_float) weights capacity r log :
  knapsack (AR := IEEE.arith) values weights capacity = Returns r log →
  r ≠ S754_nan ∧ SFleb (S754_zero false) r = true.
Proof.
  intros Hrun.
  destruct (knapsack_nonneg (AR := IEEE.arith) values weights capacity r log Hrun)
    as [Hr H0].
  split; [apply Hr|].
  apply not_gt_is_le; [apply valid_number_zero|exact Hr|exact H0].
Qed.

Lemma result_nonnegative_witness :
  ∃ r log,
    knapsack (AR := IEEE.arith)
      [IEEE.double (-5) 0; IEEE.double 3 0; S754_nan; S754_infinity true] [1; 2; 0; 1] 2
      = Returns r log ∧
    r ≠ S754_nan ∧ SFleb (S754_zero false) r = true.
Proof.
  destruct (knapsack (AR := IEEE.arith)
              [IEEE.double (-5) 0; IEEE.double 3 0; S754_nan; S754_infinity true]
              [1; 2; 0; 1] 2) as [r log|e] eqn:Hrun; [|vm_compute in Hrun; discriminate].
  exists r, log. split; [reflexivity|].
  apply (result_nonnegative
           [IEEE.double (-5) 0; IEEE.double 3 0; S754_nan; S754_infinity true]
           [1; 2; 0; 1] 2 r log Hrun).
Defined.

(** C9: with more values than weights the call still returns, and returns
    what it returns on the first [len(weights)] values alone; but that is
    not always their optimum.  With values 5, 3, 7, weights 0, 1 and
    capacity 1 the result is 5, while the first two items together fit and
    are worth 8. *)
Theorem surplus_ignored_but_not_optimal :
  let values := [IEEE.double 5 0; IEEE.double 3 0; IEEE.double 7 0] in
  let weights := [0; 1] in
  result (knapsack (AR := IEEE.arith) values weights 1) = Some (IEEE.double 5 0) ∧
  result (knapsack (AR := IEEE.arith) (take (length weights) values) weights 1)
    = Some (IEEE.double 5 0) ∧
  feasible [true; true] weights 1 ∧
  total_value (AR := IEEE.arith) [true; true]
    (as_stored (AR := IEEE.arith) (take (length weights) values)) = IEEE.double 8 0 ∧
  brute_force (AR := IEEE.arith)
    (as_stored (AR := IEEE.arith) (take (length weights) values)) weights 1
    = IEEE.double 8 0 ∧
  @f64_gt IEEE.arith (IEEE.double 8 0) (IEEE.double 5 0) = true.
Proof.
  cbv zeta. split; [vm_compute; reflexivity|]. split; [vm_compute; reflexivity|].
  split; [concrete_input|]. split; [vm_compute; reflexivity|].
  split; vm_compute; reflexivity.
Qed.

(** C10: on a valid input every subscript of [values], [weights] and the
    table lies within its axis; in particular every column index, [j] and
    [j - weight] alike, lies in [0, capacity], so the call returns and no
    subscript raises. *)
Theorem every_subscript_in_bounds {AR : Arith} values weights capacity :
  valid_input values weights capacity → fits_c_int weights capacity →
  ∃ r log,
    knapsack values weights capacity = Returns r log ∧
    Forall in_bounds log ∧
    Forall (access_ok (length values) (length weights)
              (Z.of_nat (length weights) + 1) (capacity + 1)) log ∧
    ∀ a, a ∈ log → acc_buffer a = TableCols → 0 ≤ acc_index a ≤ capacity.
Proof.
  intros Hvalid Hfit.
  destruct (solve_spec _ _ _ Hvalid Hfit) as (_ & _ & log & _ & _ & Hres & Hlog).
  eexists _, log. split; [exact Hres|]. split; [|split; [exact Hlog|]].
  - eapply Forall_impl; [|exact Hlog]. intros a [Ha _]. exact Ha.
  - intros a Ha Hcols. rewrite Forall_forall in Hlog.
    apply list_elem_of_In in Ha.
    destruct (Hlog a Ha) as [Hin Hlen]. unfold in_bounds in Hin.
    rewrite Hcols in Hlen. lia.
Qed.

Lemma every_subscript_in_bounds_witness :
  ∃ r log,
    knapsack (AR := IEEE.arith)
      [IEEE.double 60 0; IEEE.double 100 0; IEEE.double 120 0] [1; 2; 3] 5
      = Returns r log ∧
    Forall in_bounds log ∧
    Forall (access_ok 3 3 4 6) log ∧
    ∀ a, a ∈ log → acc_buffer a = TableCols → 0 ≤ acc_index a ≤ 5.
Proof.
  apply (every_subscript_in_bounds (AR := IEEE.arith)
           [IEEE.double 60 0; IEEE.double 100 0; IEEE.double 120 0] [1; 2; 3] 5);
    concrete_input.
Defined.

(** * Further properties of [knapsack] and [_knapsack] *)

(** X1: when every weight is at least 1, the result is the optimum over
    the values as the buffer holds them, rounded to single precision: the
    result is a number, some selection of items within the capacity has
    exactly that value, and no selection within the capacity compares
    greater; one whose value is a number is at most the result.  (The
    value of a selection is a NaN when it adds a NaN, or infinities of
    both signs.) *)
Theorem optimum_when_weights_positive (values : list spec_float) weights capacity :
  valid_input (AR := IEEE.arith) values weights capacity → fits_c_int weights capacity →
  Forall (λ weight, 1 ≤ weight) weights →
  ∃ r, result (knapsack (AR := IEEE.arith) values weights capacity) = Some r ∧
       r ≠ S754_nan ∧
       (∃ sel, feasible sel weights capacity ∧
               total_value (AR := IEEE.arith) sel (as_stored (AR := IEEE.arith) values) = r) ∧
       (∀ sel, feasible sel weights capacity →
          let worth :=
            total_value (AR := IEEE.arith) sel (as_stored (AR := IEEE.arith) values) in
          SFltb r worth = false ∧ (worth ≠ S754_nan → SFleb worth r = true)).
Proof.
  intros (Hlen & Hw & Hc) Hfit Hpos.
  destruct (optimal_for_positive_weights (AR := IEEE.arith) values weights capacity)
    as (r & Hres & Hreach & Hbound); try assumption; [lia|].
  assert (Hr : IEEE.valid_number r).
  { destruct (knapsack (AR := IEEE.arith) values weights capacity) as [r' log|] eqn:Hrun;
      [|discriminate]. injection Hres as ->.
    exact (proj1 (knapsack_nonneg (AR := IEEE.arith) values weights capacity r log Hrun)). }
  exists r. split; [exact Hres|]. split; [apply Hr|]. split; [exact Hreach|].
  intros sel Hsel worth. split; [exact (Hbound sel Hsel)|].
  intros Hworth. apply not_gt_is_le; [|exact Hr|exact (Hbound sel Hsel)].
  split; [|exact Hworth].
  exact (total_value_double (AR := IEEE.arith) sel _ (stored_double values)).
Qed.

Lemma optimum_when_weights_positive_witness :
  ∃ r, result (knapsack (AR := IEEE.arith)
                 [IEEE.double 60 0; IEEE.double 100 0; IEEE.double 120 0]
                 [10; 20; 30] 50) = Some r ∧
       r ≠ S754_nan ∧
       (∃ sel, feasible sel [10; 20; 30] 50 ∧
               total_value (AR := IEEE.arith) sel
                 (as_stored (AR := IEEE.arith)
                    [IEEE.double 60 0; IEEE.double 100 0; IEEE.double 120 0]) = r) ∧
       (∀ sel, feasible sel [10; 20; 30] 50 →
          let worth :=
            total_value (AR := IEEE.arith) sel
              (as_stored (AR := IEEE.arith)
                 [IEEE.double 60 0; IEEE.double 100 0; IEEE.double 120 0]) in
          SFltb r worth = false ∧ (worth ≠ S754_nan → SFleb worth r = true)).
Proof.
  apply (optimum_when_weights_positive
           [IEEE.double 60 0; IEEE.double 100 0; IEEE.double 120 0] [10; 20; 30] 50);
    concrete_input.
Defined.

(** X2: on every valid input, items of weight 0 included, the result is
    the value of some selection of items within the capacity: the call
    never reports a value that cannot be had. *)
Theorem result_is_achievable {AR : Arith} values weights capacity :
  valid_input values weights capacity → fits_c_int weights capacity →
  ∃ r sel,
    result (knapsack values weights capacity) = Some r ∧
    length sel = length weights ∧
    total_weight sel weights ≤ capacity ∧
    total_value sel (as_stored values) = r.
Proof.
  intros (Hlen & Hw & Hc) Hfit.
  destruct (knapsack_spec values weights capacity ltac:(lia) Hw Hc Hfit) as (log & Hres & _).
  destruct (last_entry_attained values weights capacity ltac:(lia) Hc)
    as (sel & [Hls Hsw] & Hsv).
  eexists _, sel. rewrite Hres. split; [reflexivity|].
  split; [exact Hls|]. split; [exact Hsw|exact Hsv].
Qed.

Lemma result_is_achievable_witness :
  ∃ r sel,
    result (knapsack (AR := IEEE.arith) [IEEE.double 5 0; IEEE.double 3 0] [0; 1] 1)
      = Some r ∧
    length sel = length [0; 1] ∧
    total_weight sel [0; 1] ≤ 1 ∧
    total_value (AR := IEEE.arith) sel
      (as_stored (AR := IEEE.arith) [IEEE.double 5 0; IEEE.double 3 0]) = r.
Proof.
  apply (result_is_achievable (AR := IEEE.arith) [IEEE.double 5 0; IEEE.double 3 0] [0; 1] 1);
    concrete_input.
Defined.

(** X3: the result is never above what exhaustive search over all
    selections finds on the values as the buffer holds them, and not
    below it either when every weight is at least 1. *)
Theorem result_against_exhaustive_search (values : list spec_float) weights capacity :
  valid_input (AR := IEEE.arith) values weights capacity → fits_c_int weights capacity →
  ∃ r, result (knapsack (AR := IEEE.arith) values weights capacity) = Some r ∧
       SFleb r (brute_force (AR := IEEE.arith) (as_stored (AR := IEEE.arith) values)
                  weights capacity) = true ∧
       (Forall (λ weight, 1 ≤ weight) weights →
        SFleb (brute_force (AR := IEEE.arith) (as_stored (AR := IEEE.arith) values)
                 weights capacity) r = true).
Proof.
  intros (Hlen & Hw & Hc) Hfit.
  destruct (knapsack_spec (AR := IEEE.arith) values weights capacity ltac:(lia) Hw Hc Hfit)
    as (log & Hres & _).
  destruct (brute_force_optimum (AR := IEEE.arith) (LAWS := ieee_laws)
              (as_stored (AR := IEEE.arith) values) weights capacity Hc (stored_double values))
    as (Hnum & (best & Hbest & Hval) & Hbound).
  pose proof (dp_entry_number (AR := IEEE.arith) (IEEE.convert 24 128 <$> values) weights
                (length weights) capacity) as Hr.
  eexists. rewrite Hres. split; [reflexivity|]. split.
  - apply not_gt_is_le; [exact Hr|exact Hnum|].
    destruct (last_entry_attained (AR := IEEE.arith) values weights capacity ltac:(lia) Hc)
      as (sel & Hsel & Hsv).
    pose proof (Hbound sel Hsel) as Hb. rewrite Hsv in Hb. exact Hb.
  - intros Hpos. apply not_gt_is_le; [exact Hnum|exact Hr|].
    destruct (optimal_for_positive_weights (AR := IEEE.arith) values weights capacity)
      as (r & Hres' & _ & Hbound'); try assumption; [lia|].
    rewrite Hres in Hres'. injection Hres' as <-.
    pose proof (Hbound' best Hbest) as Hb. rewrite Hval in Hb. exact Hb.
Qed.

Lemma result_against_exhaustive_search_witness :
  ∃ r, result (knapsack (AR := IEEE.arith) [IEEE.double 5 0; IEEE.double 3 0] [0; 2] 2)
         = Some r ∧
       SFleb r (brute_force (AR := IEEE.arith)
                  (as_stored (AR := IEEE.arith) [IEEE.double 5 0; IEEE.double 3 0])
                  [0; 2] 2) = true ∧
       (Forall (λ weight, 1 ≤ weight) [0; 2] →
        SFleb (brute_force (AR := IEEE.arith)
                 (as_stored (AR := IEEE.arith) [IEEE.double 5 0; IEEE.double 3 0])
                 [0; 2] 2) r = true).
Proof.
  apply (result_against_exhaustive_search [IEEE.double 5 0; IEEE.double 3 0] [0; 2] 2);
    concrete_input.
Defined.

(** X4: the result depends on the first [len(weights)] values only: two
    value sequences that agree on them give the same result, whatever
    follows. *)
Theorem only_the_first_values_count {AR : Arith} values values' weights capacity :
  (length weights ≤ length values)%nat → (length weights ≤ length values')%nat →
  take (length weights) values = take (length weights) values' →
  Forall (λ weight, 0 ≤ weight) weights → 0 ≤ capacity →
  fits_c_int weights capacity →
  ∃ r, result (knapsack values weights capacity) = Some r ∧
       result (knapsack values' weights capacity) = Some r.
Proof.
  intros Hlen Hlen' Hsame Hw Hc Hfit.
  destruct (knapsack_spec values weights capacity Hlen Hw Hc Hfit) as (log & Hres & _).
  destruct (knapsack_spec values' weights capacity Hlen' Hw Hc Hfit) as (log' & Hres' & _).
  eexists. rewrite Hres, Hres'. split; [reflexivity|]. simpl. f_equal.
  apply dp_entry_ext. intros k Hk. split; [reflexivity|].
  rewrite !list_lookup_fmap.
  rewrite <- (lookup_take_lt values' (length weights) k Hk), <- Hsame,
          (lookup_take_lt values (length weights) k Hk).
  reflexivity.
Qed.

Lemma only_the_first_values_count_witness :
  ∃ r, result (knapsack (AR := IEEE.arith)
                 [IEEE.double 1 0; IEEE.double 2 0; IEEE.double 3 0] [1; 1] 2) = Some r ∧
       result (knapsack (AR := IEEE.arith)
                 [IEEE.double 1 0; IEEE.double 2 0; IEEE.double 9 0; IEEE.double 7 0]
                 [1; 1] 2) = Some r.
Proof.
  apply (only_the_first_values_count (AR := IEEE.arith)); concrete_input.
Defined.

(** X5: an item more, anywhere in the sequences, never lowers the
    result, whatever doubles the values are. *)
Theorem one_more_item_never_lowers_the_result
    (vs1 vs2 : list spec_float) (v : spec_float) (ws1 ws2 : list Z) weight capacity :
  length vs1 = length ws1 →
  valid_input (AR := IEEE.arith) (vs1 ++ v :: vs2) (ws1 ++ weight :: ws2) capacity →
  fits_c_int (ws1 ++ weight :: ws2) capacity →
  ∃ r r',
    result (knapsack (AR := IEEE.arith) (vs1 ++ vs2) (ws1 ++ ws2) capacity) = Some r ∧
    result (knapsack (AR := IEEE.arith) (vs1 ++ v :: vs2) (ws1 ++ weight :: ws2) capacity)
      = Some r' ∧
    SFleb r r' = true.
Proof.
  intros Hlen1 Hvalid Hfit.
  destruct (valid_without_item (AR := IEEE.arith) _ _ _ _ _ _ _ Hlen1 Hvalid Hfit)
    as (Hvalid' & Hfit' & _ & Hcount).
  destruct (solve_spec (AR := IEEE.arith) _ _ _ Hvalid Hfit)
    as (_ & _ & log & _ & _ & Hres & _).
  destruct (solve_spec (AR := IEEE.arith) _ _ _ Hvalid' Hfit')
    as (_ & _ & log' & _ & _ & Hres' & _).
  eexists _, _. split; [exact (f_equal result Hres')|].
  split; [exact (f_equal result Hres)|].
  apply not_gt_is_le; try exact (dp_entry_number (AR := IEEE.arith) _ _ _ _).
  rewrite Hcount, !fmap_app, fmap_cons.
  apply (dp_entry_insert (AR := IEEE.arith)); [rewrite length_fmap; exact Hlen1|].
  rewrite length_app. lia.
Qed.

Lemma one_more_item_never_lowers_the_result_witness :
  ∃ r r',
    result (knapsack (AR := IEEE.arith)
              ([IEEE.double 60 0] ++ [IEEE.double 120 0]) ([10] ++ [30]) 50) = Some r ∧
    result (knapsack (AR := IEEE.arith)
              ([IEEE.double 60 0] ++ IEEE.double (-100) 0 :: [IEEE.double 120 0])
              ([10] ++ 20 :: [30]) 50) = Some r' ∧
    SFleb r r' = true.
Proof.
  apply (one_more_item_never_lowers_the_result
           [IEEE.double 60 0] [IEEE.double 120 0] (IEEE.double (-100) 0) [10] [30] 20 50);
    concrete_input.
Defined.

(** X6: an item heavier than the capacity, anywhere in the sequences,
    changes nothing: the result is the one of the call without it. *)
Theorem item_heavier_than_capacity_is_ignored {AR : Arith}
    (vs1 vs2 : list float64) v (ws1 ws2 : list Z) weight capacity :
  length vs1 = length ws1 →
  valid_input (vs1 ++ v :: vs2) (ws1 ++ weight :: ws2) capacity →
  fits_c_int (ws1 ++ weight :: ws2) capacity →
  capacity < weight →
  ∃ r,
    result (knapsack (vs1 ++ v :: vs2) (ws1 ++ weight :: ws2) capacity) = Some r ∧
    result (knapsack (vs1 ++ vs2) (ws1 ++ ws2) capacity) = Some r.
Proof.
  intros Hlen1 Hvalid Hfit Hheavy.
  destruct (valid_without_item _ _ _ _ _ _ _ Hlen1 Hvalid Hfit)
    as (Hvalid' & Hfit' & Hw2 & Hcount).
  destruct (solve_spec _ _ _ Hvalid Hfit) as (_ & _ & log & _ & _ & Hres & _).
  destruct (solve_spec _ _ _ Hvalid' Hfit') as (_ & _ & log' & _ & _ & Hres' & _).
  eexists. rewrite Hres, Hres'. split; [reflexivity|]. simpl. f_equal.
  rewrite Hcount, !fmap_app, fmap_cons. symmetry.
  apply (dp_entry_drop_heavy _ _ _ _ _ _ capacity);
    [rewrite length_fmap; exact Hlen1|assumption|assumption|rewrite length_app; lia|lia].
Qed.

Lemma item_heavier_than_capacity_is_ignored_witness :
  ∃ r,
    result (knapsack (AR := IEEE.arith)
              ([IEEE.double 60 0] ++ IEEE.double 500 0 :: [IEEE.double 120 0])
              ([10] ++ 51 :: [30]) 50) = Some r ∧
    result (knapsack (AR := IEEE.arith)
              ([IEEE.double 60 0] ++ [IEEE.double 120 0]) ([10] ++ [30]) 50) = Some r.
Proof.
  apply (item_heavier_than_capacity_is_ignored (AR := IEEE.arith)
           [IEEE.double 60 0] [IEEE.double 120 0] (IEEE.double 500 0) [10] [30] 51 50);
    concrete_input.
Defined.

(** X7: once the capacity reaches the total weight of the items, each of
    weight at least 1, a larger capacity gives the same result. *)
Theorem capacity_beyond_total_weight {AR : Arith} values weights c1 c2 :
  valid_input values weights c1 → fits_c_int weights c1 → fits_c_int weights c2 →
  Forall (λ weight, 1 ≤ weight) weights →
  foldr Z.add 0 weights ≤ c1 → foldr Z.add 0 weights ≤ c2 →
  ∃ r, result (knapsack values weights c1) = Some r ∧
       result (knapsack values weights c2) = Some r.
Proof.
  intros (Hlen & Hw & Hc1) Hfit1 Hfit2 Hpos Hsum1 Hsum2.
  pose proof (sum_nonneg weights Hpos) as Hsum.
  destruct (knapsack_spec values weights c1 ltac:(lia) Hw Hc1 Hfit1) as (log1 & Hres1 & _).
  destruct (knapsack_spec values weights c2 ltac:(lia) Hw ltac:(lia) Hfit2)
    as (log2 & Hres2 & _).
  eexists. rewrite Hres1, Hres2. split; [reflexivity|]. simpl. f_equal.
  rewrite (dp_entry_saturates _ weights (length weights) c1),
          (dp_entry_saturates _ weights (length weights) c2);
    rewrite ?take_ge by lia; try assumption; try lia.
  reflexivity.
Qed.

Lemma capacity_beyond_total_weight_witness :
  ∃ r, result (knapsack (AR := IEEE.arith)
                 [IEEE.double 60 0; IEEE.double 100 0] [1; 2] 3) = Some r ∧
       result (knapsack (AR := IEEE.arith)
                 [IEEE.double 60 0; IEEE.double 100 0] [1; 2] 9) = Some r.
Proof.
  apply (capacity_beyond_total_weight (AR := IEEE.arith)); concrete_input.
Defined.

(** X9: which exception a number that cannot be used raises.  A weight or
    a capacity that is not a C int raises [OverflowError]; with C ints, a
    capacity below -1 or equal to [INT_MAX] raises [ValueError] (the
    column count is negative, for [INT_MAX] because it wraps), and the
    capacity -1 raises [IndexError] (the table has no column to return). *)
Theorem exception_of_a_bad_number {AR : Arith} values weights capacity :
  (¬ Forall (λ weight, INT_MIN ≤ weight ≤ INT_MAX) weights →
   knapsack values weights capacity = Raises OverflowError) ∧
  (Forall (λ weight, INT_MIN ≤ weight ≤ INT_MAX) weights →
   (¬ (INT_MIN ≤ capacity ≤ INT_MAX) →
    knapsack values weights capacity = Raises OverflowError) ∧
   (INT_MIN ≤ capacity < -1 ∨ capacity = INT_MAX →
    knapsack values weights capacity = Raises ValueError) ∧
   (capacity = -1 → Z.of_nat (length weights) < INT_MAX →
    knapsack values weights capacity = Raises IndexError)).
Proof.
  assert (Hint : INT_MIN = - 2 ^ 31 ∧ INT_MAX = 2 ^ 31 - 1) by (split; reflexivity).
  split; [|intros Hw; split; [|split]].
  - intros Hbad. apply knapsack_overflow. tauto.
  - intros Hbad. apply knapsack_overflow. tauto.
  - intros Hneg. rewrite (knapsack_translates values weights capacity Hw) by lia.
    unfold _knapsack, fill_table. do 2 apply bind_raises. unfold np_zeros.
    assert ((wrap_int (capacity + 1) <? 0) = true) as ->.
    { destruct Hneg as [Hneg| ->]; [|reflexivity].
      rewrite wrap_int_id by lia. apply Z.ltb_lt. lia. }
    rewrite orb_true_r. reflexivity.
  - intros -> Hn. rewrite (knapsack_translates values weights (-1) Hw) by lia.
    destruct (_knapsack_negative_capacity (f32_of_f64 <$> values) weights (-1))
      as [e He]; [lia|].
    destruct (_knapsack_raises _ _ _ _ He) as [[_ Hneg]| ->]; [|exact He].
    rewrite wrap_int_id in Hneg by lia.
    replace (wrap_int (-1 + 1)) with 0 in Hneg by reflexivity. lia.
Qed.

Lemma exception_of_a_bad_number_witness :
  knapsack (AR := IEEE.arith) [] [2 ^ 31] 0 = Raises OverflowError ∧
  knapsack (AR := IEEE.arith) [] [1] (2 ^ 31) = Raises OverflowError ∧
  knapsack (AR := IEEE.arith) [] [1] (-2) = Raises ValueError ∧
  knapsack (AR := IEEE.arith) [] [1] (2 ^ 31 - 1) = Raises ValueError ∧
  knapsack (AR := IEEE.arith) [] [1] (-1) = Raises IndexError.
Proof.
  assert (Hfit : Forall (λ weight, INT_MIN ≤ weight ≤ INT_MAX) [1]).
  { apply Forall_cons; [unfold INT_MIN, INT_MAX; lia|apply Forall_nil]. }
  split; [|split; [|split; [|split]]].
  - apply (proj1 (exception_of_a_bad_number (AR := IEEE.arith) [] [2 ^ 31] 0)).
    intros Hbad. apply Forall_inv in Hbad. unfold INT_MAX in Hbad. lia.
  - apply (proj1 (proj2 (exception_of_a_bad_number (AR := IEEE.arith) [] [1] (2 ^ 31)) Hfit)).
    unfold INT_MIN, INT_MAX. lia.
  - apply (proj1 (proj2 (proj2 (exception_of_a_bad_number (AR := IEEE.arith) [] [1] (-2)) Hfit))).
    left. unfold INT_MIN. lia.
  - apply (proj1 (proj2 (proj2
      (exception_of_a_bad_number (AR := IEEE.arith) [] [1] (2 ^ 31 - 1)) Hfit))).
    right. reflexivity.
  - apply (proj2 (proj2 (proj2
      (exception_of_a_bad_number (AR := IEEE.arith) [] [1] (-1)) Hfit))); [reflexivity|].
    simpl. unfold INT_MAX. lia.
Defined.

(** X11: sequences that do not describe items make [knapsack] raise
    [IndexError], with a capacity from 1 to [INT_MAX - 1] and fewer than
    [INT_MAX] weights, all C ints: a negative weight reads a column right
    of the table, and an item that fits but has no value reads [values]
    past its end. *)
Theorem malformed_items_raise_index_error {AR : Arith} values weights capacity :
  Forall (λ weight, INT_MIN ≤ weight ≤ INT_MAX) weights →
  1 ≤ capacity < INT_MAX → Z.of_nat (length weights) < INT_MAX →
  Exists (λ weight, capacity - INT_MAX ≤ weight < 0) weights ∨
  (∃ (p : nat) weight,
     weights !! p = Some weight ∧ 0 ≤ weight ≤ capacity ∧ values !! p = None) →
  knapsack values weights capacity = Raises IndexError.
Proof.
  intros Hw Hc Hn Hbad.
  apply knapsack_raises_index_error; [exact Hw|lia|exact Hn|].
  destruct Hbad as [Hneg|(p & weight & Hp & Hfit & Hv)].
  - apply fill_table_raises_on_negative_weight; [lia|exact Hn|exact Hneg].
  - apply (fill_table_raises_on_missing_value _ weights capacity p weight);
      [exact Hc|exact Hn|exact Hp|exact Hfit|].
    rewrite list_lookup_fmap, Hv. reflexivity.
Qed.

Lemma malformed_items_raise_index_error_witness :
  knapsack (AR := IEEE.arith) [] [1] 1 = Raises IndexError.
Proof.
  apply (malformed_items_raise_index_error (AR := IEEE.arith) [] [1] 1).
  - apply Forall_cons; [unfold INT_MIN, INT_MAX; lia|apply Forall_nil].
  - unfold INT_MAX. lia.
  - simpl. unfold INT_MAX. lia.
  - right. exists 0%nat, 1. split; [reflexivity|]. split; [lia|reflexivity].
Defined.

(** X12: the table holds the answers to the smaller problems.  On a valid
    input that fits C ints, the entry at row [i], column [j] of the table
    the loops build is what [knapsack] itself returns for the first [i]
    items and the capacity [j]. *)
Theorem table_entry_is_result_of_subproblem {AR : Arith}
    values weights capacity dp log (i : nat) (j : Z) :
  valid_input values weights capacity → fits_c_int weights capacity →
  fill_table (f32_of_f64 <$> values) weights capacity = Returns dp log →
  (i ≤ length weights)%nat → 0 ≤ j ≤ capacity →
  ∃ r log',
    entry_of dp (Z.of_nat i) j = Some r ∧
    knapsack (take i values) (take i weights) j = Returns r log'.
Proof.
  intros Hvalid Hfit Hrun Hi Hj.
  destruct (solve_spec values weights capacity Hvalid Hfit)
    as (dp' & log0 & _ & Hrun' & Htab & _).
  rewrite Hrun in Hrun'. injection Hrun' as <- _.
  destruct Hvalid as (Hlen & Hw & Hc). destruct Hfit as (Hmax & Hcap & Hn).
  destruct (knapsack_spec (take i values) (take i weights) j) as (log' & Hsub & _).
  { rewrite !length_take. lia. }
  { apply Forall_take, Hw. }
  { lia. }
  { split; [apply Forall_take, Hmax|]. split; [lia|]. rewrite length_take. lia. }
  exists (dp_entry (f32_of_f64 <$> values) weights i j), log'. split.
  - rewrite (table_at_entry _ _ _ _ (Z.of_nat i) j Htab) by lia.
    rewrite Nat2Z.id. reflexivity.
  - rewrite Hsub. f_equal. rewrite length_take, Nat.min_l by exact Hi.
    apply dp_entry_ext. intros k Hk. split.
    + apply lookup_take_lt. exact Hk.
    + rewrite fmap_take. apply lookup_take_lt. exact Hk.
Qed.

Lemma table_entry_is_result_of_subproblem_witness :
  ∃ dp log r log',
    fill_table (AR := IEEE.arith) (IEEE.convert 24 128 <$> [IEEE.double 5 0; IEEE.double 3 0])
      [1; 2] 3 = Returns dp log ∧
    entry_of dp 1 2 = Some r ∧
    knapsack (AR := IEEE.arith) [IEEE.double 5 0] [1] 2 = Returns r log'.
Proof.
  destruct (fill_table (AR := IEEE.arith)
              (IEEE.convert 24 128 <$> [IEEE.double 5 0; IEEE.double 3 0]) [1; 2] 3)
    as [dp log|e] eqn:Hrun; [|vm_compute in Hrun; discriminate].
  exists dp, log.
  destruct (table_entry_is_result_of_subproblem (AR := IEEE.arith)
              [IEEE.double 5 0; IEEE.double 3 0] [1; 2] 3 dp log 1%nat 2) as (r & log' & He & Hr).
  - split; [reflexivity|]. split; [|lia].
    apply Forall_cons; [lia|]. apply Forall_cons; [lia|]. apply Forall_nil.
  - split; [|split; [unfold INT_MAX; lia|simpl; unfold INT_MAX; lia]].
    apply Forall_cons; [unfold INT_MAX; lia|].
    apply Forall_cons; [unfold INT_MAX; lia|]. apply Forall_nil.
  - exact Hrun.
  - simpl. lia.
  - lia.
  - exists r, log'. split; [reflexivity|]. split; [exact He|exact Hr].
Defined.

(** X14: the unit of weight does not matter.  Multiplying every weight
    and the capacity by the same factor [k ≥ 1] leaves the result as it
    is, items of weight 0 included, as long as the larger numbers still
    fit C ints. *)
Theorem result_unchanged_by_unit_of_weight {AR : Arith} values weights capacity (k : Z) :
  1 ≤ k →
  valid_input values weights capacity →
  fits_c_int (Z.mul k <$> weights) (k * capacity) →
  ∃ r, result (knapsack values weights capacity) = Some r ∧
       result (knapsack values (Z.mul k <$> weights) (k * capacity)) = Some r.
Proof.
  intros Hk (Hlen & Hw & Hc) (Hmax & Hcap & Hn).
  rewrite length_fmap in Hn.
  destruct (knapsack_spec values weights capacity) as (log & Hres & _).
  { lia. }
  { exact Hw. }
  { exact Hc. }
  { split; [|split; [nia|exact Hn]].
    apply Forall_lookup. intros p weight Hp.
    assert (Hp' : (Z.mul k <$> weights) !! p = Some (k * weight))
      by (rewrite list_lookup_fmap, Hp; reflexivity).
    pose proof (Forall_lookup_1 _ _ _ _ Hmax Hp') as Hscaled.
    pose proof (Forall_lookup_1 _ _ _ _ Hw Hp) as Hnonneg.
    simpl in Hscaled. nia. }
  destruct (knapsack_spec values (Z.mul k <$> weights) (k * capacity))
    as (log' & Hres' & _).
  { rewrite length_fmap. lia. }
  { apply Forall_lookup. intros p scaled Hp.
    rewrite list_lookup_fmap in Hp.
    destruct (weights !! p) as [weight|] eqn:Hweight; [|discriminate].
    injection Hp as <-.
    pose proof (Forall_lookup_1 _ _ _ _ Hw Hweight) as Hnonneg. simpl in Hnonneg. nia. }
  { nia. }
  { split; [exact Hmax|]. split; [exact Hcap|]. rewrite length_fmap. exact Hn. }
  eexists. rewrite Hres, Hres'. split; [reflexivity|]. simpl. f_equal.
  rewrite length_fmap. apply dp_entry_scale, Hk.
Qed.

Lemma result_unchanged_by_unit_of_weight_witness :
  ∃ r, result (knapsack (AR := IEEE.arith)
                 [IEEE.double 5 0; IEEE.double 3 0] [0; 2] 3) = Some r ∧
       result (knapsack (AR := IEEE.arith)
                 [IEEE.double 5 0; IEEE.double 3 0] (Z.mul 1000 <$> [0; 2]) (1000 * 3))
         = Some r.
Proof.
  apply (result_unchanged_by_unit_of_weight (AR := IEEE.arith)
           [IEEE.double 5 0; IEEE.double 3 0] [0; 2] 3 1000).
  - lia.
  - concrete_input.
  - split; [|split; [unfold INT_MAX; lia|simpl; unfold INT_MAX; lia]].
    apply Forall_cons; [unfold INT_MAX; lia|].
    apply Forall_cons; [unfold INT_MAX; lia|]. apply Forall_nil.
Defined.

(** X15: what the items of weight 0 can cost.  On every valid input, no
    selection within the capacity that takes only items of weight at
    least 1 compares greater than the result, and one whose value is a
    number is at most the result: the result lies between the best such
    selection and the best selection of all. *)
Theorem result_at_least_selections_without_weightless_items
    (values : list spec_float) weights capacity sel :
  valid_input (AR := IEEE.arith) values weights capacity → fits_c_int weights capacity →
  feasible sel weights capacity →
  (∀ (k : nat) weight,
     sel !! k = Some true → weights !! k = Some weight → 1 ≤ weight) →
  ∃ r, result (knapsack (AR := IEEE.arith) values weights capacity) = Some r ∧
       let worth :=
         total_value (AR := IEEE.arith) sel (as_stored (AR := IEEE.arith) values) in
       SFltb r worth = false ∧ (worth ≠ S754_nan → SFleb worth r = true).
Proof.
  intros (Hlen & Hw & Hc) Hfit [Hls Hsw] Htaken.
  destruct (knapsack_spec (AR := IEEE.arith) values weights capacity ltac:(lia) Hw Hc Hfit)
    as (log & Hres & _).
  eexists. rewrite Hres. split; [reflexivity|].
  assert (Hbound : f64_le (AR := IEEE.arith)
            (total_value (AR := IEEE.arith) sel (as_stored (AR := IEEE.arith) values))
            (dp_entry (AR := IEEE.arith) (IEEE.convert 24 128 <$> values) weights
               (length weights) capacity)).
  { rewrite (as_stored_fmap (AR := IEEE.arith)),
      <- (total_value_take (AR := IEEE.arith) sel), Hls.
    apply (dp_entry_bound_taken (AR := IEEE.arith)); try assumption.
    - lia.
    - rewrite length_fmap. apply Nat.eq_le_incl. symmetry. exact Hlen.
    - rewrite take_ge by lia. exact Hsw. }
  cbv zeta. split; [exact Hbound|].
  intros Hworth.
  apply not_gt_is_le; [|exact (dp_entry_number (AR := IEEE.arith) _ _ _ _)|exact Hbound].
  split; [|exact Hworth].
  exact (total_value_double (AR := IEEE.arith) sel _ (stored_double values)).
Qed.

Lemma result_at_least_selections_without_weightless_items_witness :
  ∃ r, result (knapsack (AR := IEEE.arith)
                 [IEEE.double 5 0; IEEE.double 3 0; IEEE.double 4 0] [0; 1; 2] 2) = Some r ∧
       let worth :=
         total_value (AR := IEEE.arith) [false; false; true]
           (as_stored (AR := IEEE.arith)
              [IEEE.double 5 0; IEEE.double 3 0; IEEE.double 4 0]) in
       SFltb r worth = false ∧ (worth ≠ S754_nan → SFleb worth r = true).
Proof.
  apply (result_at_least_selections_without_weightless_items
           [IEEE.double 5 0; IEEE.double 3 0; IEEE.double 4 0] [0; 1; 2] 2
           [false; false; true]).
  - concrete_input.
  - concrete_input.
  - split; [reflexivity|]. vm_compute. discriminate.
  - intros [|[|[|k]]] weight Hk Hweight; try discriminate.
    injection Hweight as <-. lia.
Defined.
